(** * clana: confusion-matrix ordering by simulated annealing

    A shallow embedding of [clana/visualize_cm.py]: the score, the in-place
    row/column transforms, the neighbour generator and the annealing loop,
    the colours of the HTML view and the warnings about the classes,
    followed by the properties of the optimizer that the specification
    states and by further properties of the code.

    Modelling conventions.
    - A 2-D [np.ndarray] of integers is a list of rows, [list (list Z)];
      a 1-D array (a permutation) is a [list Z].  Indices are Python
      integers ([Z]): a negative index counts from the end, an index out of
      range raises [IndexError].
    - numpy [float64] and Python [float] values (weights, temperature,
      acceptance draw) are binary64 floats, Rocq's primitive [float]:
      every operation rounds to nearest, ties to even, and [nan] and the
      infinities are values.
    - [np.exp] is not defined here: the engine takes it as a parameter
      [np_exp : float -> float].
    - The module [random] is a stream of raw draws [rs : nat -> N] read
      through a cursor; [random.random] and [random.randint] each consume
      one draw.
    - [while] loops take fuel; running out of fuel is the outcome
      [OutOfFuel], kept apart from a raised exception.
    - Logging has no influence on the result and is left out, except in
      [get_cm_problems], which does nothing else: there the warnings are
      the result.
    - Strings ([labels], HTML colour codes) are [string]s. *)

From Stdlib Require Import ZArith QArith Lia Floats.
From Stdlib Require HexString Uint63.
From stdpp Require Import base option list sorting strings.

Close Scope Q_scope.

(** ** Exceptions *)

(** [ScoreError] stands for whatever the [score] function raises: with
    [calculate_score], a [ValueError] when the shapes differ or the sum is
    [nan], an [OverflowError] when it is an infinity. *)
Inductive exn : Type :=
  | ValueError_insert_pos (insert_pos from_start from_end : Z)
  | ValueError_temp
  | ValueError_cooling_factor
  | ValueError_empty_range
  | ScoreError
  | IndexError
  | ZeroDivisionError
  | OverflowError
  | UnboundLocalError.

(** ** numpy arrays as lists *)

Abbreviation vector := (list Z) (only parsing).
Abbreviation matrix := (list (list Z)) (only parsing).
Abbreviation wmatrix := (list (list float)) (only parsing).

(** [range(a, b)] *)
Definition py_range (a b : Z) : list Z := seqZ a (b - a).

(** [sorted(l)] on integers *)
Definition sorted (l : list Z) : list Z := merge_sort Z.le l.

(** An index into an axis of length [len]: negative indices wrap once,
    anything else out of range is an [IndexError] ([None]). *)
Definition norm_index (len : nat) (i : Z) : option nat :=
  if bool_decide (0 ≤ i < Z.of_nat len)%Z then Some (Z.to_nat i)
  else if bool_decide (- Z.of_nat len ≤ i < 0)%Z
       then Some (Z.to_nat (i + Z.of_nat len))
       else None.

Section Arrays.
Context {A : Type}.

(** [l[i]] *)
Definition getitem (l : list A) (i : Z) : option A :=
  k ← norm_index (length l) i; l !! k.

(** [l[i] = v] *)
Definition setitem (l : list A) (i : Z) (v : A) : option (list A) :=
  k ← norm_index (length l) i; Some (<[k:=v]> l).

(** [l[idx]] for a list of indices [idx]: a fresh array. *)
Definition take_idx (l : list A) (idx : list Z) : option (list A) :=
  mapM (getitem l) idx.

(** [l[idx] = vals]: every index is checked first, then the values are
    stored from left to right. *)
Definition put_idx (l : list A) (idx : list Z) (vals : list A)
  : option (list A) :=
  ks ← mapM (norm_index (length l)) idx;
  Some (foldl (λ acc kv, <[kv.1:=kv.2]> acc) l (zip ks vals)).

(** [l[p_old] = l[p_new]]: the right-hand side is read in full before
    anything is written. *)
Definition reindex (l : list A) (p_old p_new : list Z) : option (list A) :=
  vals ← take_idx l p_new; put_idx l p_old vals.

(** [l[i], l[j] = l[j], l[i]] *)
Definition swap_items (l : list A) (i j : Z) : option (list A) :=
  a ← getitem l j;
  b ← getitem l i;
  l1 ← setitem l i a;
  setitem l1 j b.
End Arrays.

(** Column count of a (rectangular) 2-D array. *)
Definition ncols {A} (cm : list (list A)) : nat :=
  match cm with [] => 0 | r :: _ => length r end.

(** [cm.transpose()] *)
Definition transpose (cm : matrix) : matrix :=
  (λ j, (λ r : list Z, r !!! j) <$> cm) <$> seq 0 (ncols cm).

(** [cm[:, j]] (a view; [.copy()] is the identity on values) *)
Definition get_col (cm : matrix) (j : Z) : option (list Z) :=
  mapM (λ row, getitem row j) cm.

(** [cm[:, j] = col] *)
Definition set_col (cm : matrix) (j : Z) (col : list Z) : option matrix :=
  mapM (λ rv : list Z * Z, setitem rv.1 j rv.2) (zip cm col).

(** ** binary64 *)

#[global] Instance float_inhabited : Inhabited float := populate 0%float.

(** The float nearest to an integer, ties to even, an infinity beyond the
    largest float: Python's [float(z)] where that does not overflow. *)
Definition float_of_Z (z : Z) : float :=
  SF2Prim (binary_normalize prec emax z 0 false).

(** The entries of the matrices are [int64]: an entry stands for its value
    in [-2^63, 2^63). *)
Definition int64 (z : Z) : Z := ((z + 2 ^ 63) mod 2 ^ 64 - 2 ^ 63)%Z.

(** numpy's cast of an [int64] entry to [float64]: the nearest float to
    the magnitude (the processor's conversion of an unsigned integer below
    2^63), with the sign. *)
Definition np_float64 (z : Z) : float :=
  let v := int64 z in
  if (v =? - 2 ^ 63)%Z then (- 0x1p63)%float
  else let x := of_uint63 (Uint63.of_Z (Z.abs v)) in
       if (v <? 0)%Z then (- x)%float else x.

(** Python's conversion of an [int] operand to [float]: an [int] too large
    for a float is an [OverflowError] ([None]). *)
Definition py_float (z : Z) : option float :=
  let x := float_of_Z z in
  if is_infinity x then None else Some x.

(** The number a finite float stands for. *)
Definition float_value (x : float) : option Q :=
  match Prim2SF x with
  | S754_zero _ => Some 0%Q
  | S754_finite s m e =>
      let q := match e with
               | Zneg k => Qmake (Zpos m) (2 ^ k)
               | _ => inject_Z (Zpos m * 2 ^ e)
               end in
      Some (if s then Qopp q else q)
  | _ => None
  end.

(** [int(x)] on a float: truncation towards zero; [nan] and the infinities
    raise ([None]). *)
Definition py_int (x : float) : option Z :=
  match Prim2SF x with
  | S754_zero _ => Some 0%Z
  | S754_finite s m e =>
      let a := Z.shiftl (Zpos m) e in
      Some (if s then (- a)%Z else a)
  | _ => None
  end.

(** Not below zero: a [nan], or a float with the sign bit clear. *)
Definition SFnot_negative (x : spec_float) : Prop :=
  match x with
  | S754_zero s | S754_infinity s | S754_finite s _ _ => s = false
  | S754_nan => True
  end.

(** Zero, or finite and not zero. *)
Definition SFfinite (x : spec_float) : Prop :=
  match x with
  | S754_zero _ | S754_finite _ _ _ => True
  | _ => False
  end.

(** ** Score *)

(** [calculate_weight_matrix(n)]: the distance to the diagonal, cast to
    float, plus [(i + j) * 0.01] off the diagonal; [0x1.47ae147ae147bp-7]
    is the float [0.01]. *)
Definition calculate_weight_matrix (n : Z) : wmatrix :=
  (λ i, (λ j,
     let w := np_float64 (Z.abs (j - i)) in
     if (i =? j)%Z then w
     else (w + float_of_Z (i + j) * 0x1.47ae147ae147bp-7)%float)
     <$> py_range 0 n) <$> py_range 0 n.

(** One more term of a dot product: the integer entry is cast to float,
    the product and the sum are rounded. *)
Definition dot_step (acc : float) (cw : Z * float) : float :=
  (acc + np_float64 cw.1 * cw.2)%float.

(** [np.tensordot(cm, weights, axes=((0, 1), (0, 1)))]: the sum of the
    elementwise products; the shapes have to agree.  The terms are added
    one by one in the order of the flattened arrays; a BLAS behind numpy
    is free to add them in another order, which can change the last bits
    of the sum. *)
Definition tensordot (cm : matrix) (weights : wmatrix) : option float :=
  if bool_decide (length cm = length weights
                  ∧ Forall2 (λ r w, length r = length w) cm weights)
  then Some (foldl (λ acc (rw : list Z * list float),
                      foldl dot_step acc (zip rw.1 rw.2))
               0%float (zip cm weights))
  else None.

(** [int(np.tensordot(...))]; [None] when the call raises: the shapes
    differ, or the sum is not finite. *)
Definition calculate_score (cm : matrix) (weights : wmatrix) : option Z :=
  tensordot cm weights ≫= py_int.

(** The specification's "elementwise product-sum" of two [n] by [n]
    arrays, written with indices: [cm[i][j] * weights[i][j]] added up for
    [i, j < n], row by row.  [calculate_score] is compared with it. *)
Definition product_sum (n : nat) (cm : matrix) (weights : wmatrix) : float :=
  foldl (λ acc i,
           foldl (λ acc j,
                    (acc + np_float64 ((cm !!! i) !!! j)
                           * ((weights !!! i) !!! j))%float)
             acc (seq 0 n))
    0%float (seq 0 n).

(** The specification's "truncated to an integer": [r] is the integer
    part of the rational [q]. *)
Definition truncates (q : Q) (r : Z) : Prop :=
  ((0 <= q)%Q -> (inject_Z r <= q)%Q /\ (q < inject_Z (r + 1))%Q)
  /\ ((q <= 0)%Q -> (inject_Z (r - 1) < q)%Q /\ (q <= inject_Z r)%Q).

(** An [n] by [n] array. *)
Definition square {A} (n : nat) (cm : list (list A)) : Prop :=
  length cm = n /\ Forall (λ r, length r = n) cm.

(** ** Transforms

    The transforms work in place.  A call is modelled by the content of the
    array after the call together with the exception it raised, if any. *)

Definition inplace (A : Type) : Type := (A * option exn)%type.

Definition or_index_error {A} (before : A) (r : option A) : inplace A :=
  match r with
  | Some after => (after, None)
  | None => (before, Some IndexError)
  end.

(** [swap(cm, i, j)]: columns first, then rows. *)
Definition swap_columns (cm : matrix) (i j : Z) : option matrix :=
  copy ← get_col cm i;
  cj ← get_col cm j;
  cm1 ← set_col cm i cj;
  set_col cm1 j copy.

Definition swap_rows (cm : matrix) (i j : Z) : option matrix :=
  copy ← getitem cm i;
  rj ← getitem cm j;
  cm1 ← setitem cm i rj;
  setitem cm1 j copy.

Definition swap (cm : matrix) (i j : Z) : inplace matrix :=
  match swap_columns cm i j with
  | None => (cm, Some IndexError)
  | Some cm1 => or_index_error cm1 (swap_rows cm1 i j)
  end.

(** [swap_1d(perm, i, j)] *)
Definition swap_1d (perm : vector) (i j : Z) : inplace vector :=
  or_index_error perm (swap_items perm i j).

(** The index lists [p_new] of [move] and [move_1d]. *)
Definition move_p_new (from_start from_end insert_pos : Z) : list Z :=
  if (insert_pos >? from_end)%Z
  then py_range (from_end + 1) (insert_pos + 1)
       ++ py_range from_start (from_end + 1)
  else py_range from_start (from_end + 1)
       ++ py_range insert_pos from_start.

(** [move_1d(perm, from_start, from_end, insert_pos)] *)
Definition move_1d (perm : vector) (from_start from_end insert_pos : Z)
  : inplace vector :=
  if negb ((insert_pos <? from_start)%Z || (insert_pos >? from_end)%Z)
  then (perm, Some (ValueError_insert_pos insert_pos from_start from_end))
  else
    let p_new := move_p_new from_start from_end insert_pos in
    let p_old := sorted p_new in
    or_index_error perm (reindex perm p_old p_new).

(** [move(cm, from_start, from_end, insert_pos)]: columns, then rows. *)
Definition move (cm : matrix) (from_start from_end insert_pos : Z)
  : inplace matrix :=
  if negb ((insert_pos <? from_start)%Z || (insert_pos >? from_end)%Z)
  then (cm, Some (ValueError_insert_pos insert_pos from_start from_end))
  else
    let p_new := move_p_new from_start from_end insert_pos in
    let p_old := sorted p_new in
    match mapM (λ row : list Z, reindex row p_old p_new) cm with
    | None => (cm, Some IndexError)
    | Some cm1 => or_index_error cm1 (reindex cm1 p_old p_new)
    end.

(** [apply_permutation(cm, perm)]: [cm[perm].transpose()[perm].transpose()] *)
Definition apply_permutation (cm : matrix) (perm : vector) : option matrix :=
  rows ← take_idx cm perm;
  cols ← take_idx (transpose rows) perm;
  Some (transpose cols).

(** ** Effects: random draws, exceptions, fuel *)

Inductive outcome (A : Type) : Type :=
  | Ok (a : A) (cursor : nat)
  | Raise (e : exn)
  | OutOfFuel.
Arguments Ok {A} a cursor.
Arguments Raise {A} e.
Arguments OutOfFuel {A}.

(** A computation reads the random stream from a cursor and returns a
    value with the cursor advanced past the draws it consumed. *)
Definition M (A : Type) : Type := nat -> outcome A.

Definition ret {A} (a : A) : M A := λ k, Ok a k.
Definition raise {A} (e : exn) : M A := λ _, Raise e.
Definition diverge {A} : M A := λ _, OutOfFuel.
Definition bind {A B} (m : M A) (f : A -> M B) : M B :=
  λ k, match m k with
       | Ok a k' => f a k'
       | Raise e => Raise e
       | OutOfFuel => OutOfFuel
       end.

Notation "'let*' x ':=' m 'in' f" := (bind m (λ x, f))
  (at level 10, x name, m at level 100, f at level 200, only parsing).
Notation "'let*' ' p ':=' m 'in' f" :=
  (bind m (λ x, match x with p => f end))
  (at level 10, p pattern, m at level 100, f at level 200, only parsing).

(** The outcome of an in-place call, and of a fallible pure call. *)
Definition lift_inplace {A} (r : inplace A) : M A :=
  match r with
  | (a, None) => ret a
  | (_, Some e) => raise e
  end.

Definition lift_option {A} (e : exn) (r : option A) : M A :=
  match r with
  | Some a => ret a
  | None => raise e
  end.

(** [while cond(s): s = body(s)].  The second component of the result
    counts the executions of the body. *)
Fixpoint while {St} (fuel : nat) (cond : St -> bool) (body : St -> M St)
    (s : St) (iters : nat) : M (St * nat) :=
  if cond s then
    match fuel with
    | O => diverge
    | S fuel' => let* s' := body s in while fuel' cond body s' (S iters)
    end
  else ret (s, iters).

(** Python's [min(a, b)]: [b] when [b < a], otherwise [a]. *)
Definition py_min (a b : float) : float := if (b <? a)%float then b else a.

Record sa_state : Type := mk_state {
  current_cm : matrix;
  current_perm : vector;
  current_score : Z;
  best_cm : matrix;
  best_perm : vector;
  best_score : Z;
  temp : float
}.

(** The state an iteration leaves when it accepts the candidate
    [(tmp_cm, perm, tmp_score)] (the best state follows on a strict
    improvement), and when it rejects it; [t] is the temperature. *)
Definition accepted (s : sa_state) (tmp_cm : matrix) (perm : vector)
    (tmp_score : Z) (t : float) : sa_state :=
  let improved := (best_score s >? tmp_score)%Z in
  {| current_cm := tmp_cm; current_perm := perm; current_score := tmp_score;
     best_cm := if improved then tmp_cm else best_cm s;
     best_perm := if improved then perm else best_perm s;
     best_score := if improved then tmp_score else best_score s;
     temp := t |}.

Definition rejected (s : sa_state) (t : float) : sa_state :=
  {| current_cm := current_cm s; current_perm := current_perm s;
     current_score := current_score s;
     best_cm := best_cm s; best_perm := best_perm s;
     best_score := best_score s;
     temp := t |}.

Section Engine.
(** The random stream and the exponential function. *)
Variable rs : nat -> N.
Variable np_exp : float -> float.

(** [random.random()]: a multiple of 2^-53 in [0, 1), here 53 bits of the
    raw draw times [0x1p-53], which is exact. *)
Definition random : M float :=
  λ k, Ok (float_of_Z (Z.of_N (rs k mod 2 ^ 53)) * 0x1p-53)%float (S k).

(** [random.randint(a, b)]: an integer of [a, b]; an empty range is a
    [ValueError]. *)
Definition randint (a b : Z) : M Z :=
  λ k, if (a >? b)%Z then Raise ValueError_empty_range
       else Ok (a + Z.of_N (rs k) mod (b - a + 1))%Z (S k).

(** ** The neighbour generator *)

(** [j = i; while j == i: j = random.randint(0, n - 1)] *)
Definition draw_other (fuel : nat) (n i : Z) : M (Z * nat) :=
  while fuel (λ j, (j =? i)%Z) (λ _, randint 0 (n - 1)) i 0.

(** [block_len = n; while block_len >= n - 1: ...].  [from_start] and
    [from_end] are unbound until the body has run. *)
Definition draw_block (fuel : nat) (n : Z)
  : M ((Z * option (Z * Z)) * nat) :=
  while fuel
    (λ st : Z * option (Z * Z), (st.1 >=? n - 1)%Z)
    (λ _, let* from_start := randint 0 (n - 3) in
          let* from_end := randint (from_start + 1) (n - 2) in
          ret ((from_start - from_end)%Z, Some (from_start, from_end)))
    (n, None) 0.

(** [insert_pos = from_start; while not (insert_pos < from_start or
    insert_pos > from_end): insert_pos = random.randint(0, n - 1)] *)
Definition draw_insert_pos (fuel : nat) (n from_start from_end : Z)
  : M (Z * nat) :=
  while fuel
    (λ insert_pos,
       negb ((insert_pos <? from_start)%Z || (insert_pos >? from_end)%Z))
    (λ _, randint 0 (n - 1))
    from_start 0.

(** [make_swap = random.random() < swap_prob], forced to [True] when
    [n < 3]. *)
Definition choose_make_swap (n : Z) (r : float) : bool :=
  let swap_prob := 0.5%float in
  let make_swap := (r <? swap_prob)%float in
  if (n <? 3)%Z then true else make_swap.

(** [generate_permutation(n, current_perm, tmp_cm)]: the new permutation,
    [make_swap], and the content of [tmp_cm] after the call. *)
Definition generate_permutation (fuel : nat) (n : Z)
    (current_perm : vector) (tmp_cm : matrix)
  : M (vector * bool * matrix) :=
  let* r := random in
  let make_swap := choose_make_swap n r in
  if make_swap then
    let* i := randint 0 (n - 1) in
    let* ' (j, _) := draw_other fuel n i in
    let* perm := lift_inplace (swap_1d current_perm i j) in
    let* tmp_cm := lift_inplace (swap tmp_cm i j) in
    ret (perm, make_swap, tmp_cm)
  else
    let* ' ((_, block), _) := draw_block fuel n in
    match block with
    | None => raise UnboundLocalError
    | Some (from_start, from_end) =>
        let* ' (insert_pos, _) :=
          draw_insert_pos fuel n from_start from_end in
        let* perm := lift_inplace
                  (move_1d current_perm from_start from_end insert_pos) in
        let* tmp_cm := lift_inplace
                    (move tmp_cm from_start from_end insert_pos) in
        ret (perm, make_swap, tmp_cm)
    end.

(** ** The annealing loop *)

Section Loop.
Variable fuel : nat.
Variable score : matrix -> wmatrix -> option Z.
Variable n : Z.
Variable weights : wmatrix.
Variable deterministic : bool.

(** [min(1, np.exp(-(tmp_score - current_score) / temp))]: the difference
    of the scores is an [int]; dividing it by the float [temp] converts it
    first and then refuses a zero divisor. *)
Definition hot_prob_thresh (tmp_score cur_score : Z) (temp : float)
  : M float :=
  let* d := lift_option OverflowError
              (py_float (- (tmp_score - cur_score))) in
  if (temp =? 0)%float then raise ZeroDivisionError
  else ret (py_min 1%float (np_exp (d / temp)%float)).

(** The acceptance draw and the temperature it leaves behind;
    [0x1.fae147ae147aep-1] is the float [0.99]. *)
Definition draw_chance (temp : float) : M (float * float) :=
  if deterministic then ret (1%float, temp)
  else let* chance := random in
       ret (chance, (temp * 0x1.fae147ae147aep-1)%float).

(** One pass through the body of [for step in range(steps)].  [tmp_cm]
    starts as a copy of [current_cm]; the generator changes the copy. *)
Definition sa_iter (s : sa_state) : M sa_state :=
  let tmp_cm := current_cm s in
  let* ' (perm, make_swap, tmp_cm) :=
    generate_permutation fuel n (current_perm s) tmp_cm in
  let* tmp_score := lift_option ScoreError (score tmp_cm weights) in
  let* ' (chance, temp) := draw_chance (temp s) in
  let* thresh := hot_prob_thresh tmp_score (current_score s) temp in
  if (chance <=? thresh)%float
  then ret (accepted s tmp_cm perm tmp_score temp)
  else ret (rejected s temp).

(** [for step in range(steps): ...] *)
Fixpoint sa_loop (steps : nat) (s : sa_state) : M sa_state :=
  match steps with
  | O => ret s
  | S steps' => let* s' := sa_iter s in sa_loop steps' s'
  end.
End Loop.

(** [if current_perm is None: current_perm = list(range(n))], then
    [np.array(current_perm)].  For [n = 0] the default is an empty array of
    floats, which numpy refuses as an index. *)
Definition default_perm (n : Z) (perm : option vector) : M vector :=
  match perm with
  | Some p => ret p
  | None => if (n =? 0)%Z then raise IndexError else ret (py_range 0 n)
  end.

(** The state on entry to the loop. *)
Definition sa_init (score : matrix -> wmatrix -> option Z)
    (cm : matrix) (perm : option vector) (temp : float) : M sa_state :=
  let n := Z.of_nat (length cm) in
  let* perm := default_perm n perm in
  let weights := calculate_weight_matrix n in
  let* cm' := lift_option IndexError (apply_permutation cm perm) in
  let* sc := lift_option ScoreError (score cm' weights) in
  ret {| current_cm := cm'; current_perm := perm; current_score := sc;
         best_cm := cm'; best_perm := perm; best_score := sc;
         temp := temp |}.

(** [simulated_annealing(current_cm, current_perm, score, steps, temp,
    cooling_factor, deterministic)]: the pair of ["cm"] and ["perm"]. *)
Definition simulated_annealing (fuel : nat)
    (cm : matrix) (perm : option vector)
    (score : matrix -> wmatrix -> option Z)
    (steps : Z) (temp cooling_factor : float) (deterministic : bool)
  : M (matrix * vector) :=
  if (temp <=? 0)%float then raise ValueError_temp
  else if (cooling_factor <=? 0)%float || (1 <=? cooling_factor)%float
  then raise ValueError_cooling_factor
  else
    let n := Z.of_nat (length cm) in
    let weights := calculate_weight_matrix n in
    let* s0 := sa_init score cm perm temp in
    let* s :=
      sa_loop fuel score n weights deterministic (Z.to_nat steps) s0 in
    ret (best_cm s, best_perm s).
End Engine.

(** A stand-in for the exponential, used to run the engine: [1 / (1 - x)]
    for [x < 0] and [1 + x] otherwise, kept on its side of 1.  Where
    [1 - x] rounds to 1 it returns 1, as the exponential does. *)
Definition exp_bound (x : float) : float :=
  if (x <? 0)%float
  then let y := (1 / (1 - x))%float in if (y <=? 1)%float then y else 1%float
  else let y := (1 + x)%float in if (1 <=? y)%float then y else 1%float.

(** A stream that counts up. *)
Definition rs_count : nat -> N := N.of_nat.

Definition cm3 : matrix := [[0;1;2];[3;4;5];[6;7;8]]%Z.

(** A stream with large raw draws, so that both kinds of move occur. *)
Definition rs_lcg (k : nat) : N :=
  (N.of_nat k * 6364136223846793007 + 4611686018427387907)%N.

Definition cm4 : matrix := [[0;1;2;3];[4;5;6;7];[8;9;0;1];[2;3;4;5]]%Z.

(** The state in which [simulated_annealing] enters its loop on [cm3]. *)
Definition s0_cm3 : sa_state :=
  {| current_cm := cm3; current_perm := [0; 1; 2]%Z; current_score := 32;
     best_cm := cm3; best_perm := [0; 1; 2]%Z; best_score := 32;
     temp := 100%float |}.

(** ** Notions used in the statements *)

(** The elements of [l] at the positions [sigma], in that order. *)
Definition sel {A} `{!Inhabited A} (sigma : list nat) (l : list A) : list A :=
  (λ k, l !!! k) <$> sigma.

(** The specification's [matrix'[a][b] = matrix[perm[a]][perm[b]]], for
    indices [ks] already brought into range; [apply_permutation] is
    compared with it. *)
Definition gather (cm : matrix) (ks : list nat) : matrix :=
  (λ a, (λ b, (cm !!! a) !!! b) <$> ks) <$> ks.

(** The first two draws of the block-length loop. *)
Definition first_from_start (rs : nat -> N) (n : Z) (k : nat) : Z :=
  (0 + Z.of_N (rs k) mod (n - 3 - 0 + 1))%Z.

Definition first_from_end (rs : nat -> N) (n : Z) (k : nat) : Z :=
  let fs := first_from_start rs n k in
  (fs + 1 + Z.of_N (rs (S k)) mod (n - 2 - (fs + 1) + 1))%Z.

(** A stream in which every residue modulo [n] keeps coming back. *)
Definition fair (n : Z) (rs : nat -> N) : Prop :=
  forall (k : nat) (v : Z), (0 <= v < n)%Z ->
    exists m, k <= m /\ (Z.of_N (rs m) mod n)%Z = v.

(** An initial permutation argument whose indices fit [n] classes. *)
Definition valid_perm (n : nat) (perm : option vector) : Prop :=
  match perm with
  | None => True
  | Some p => length p = n /\ Forall (λ i, 0 <= i < Z.of_nat n)%Z p
  end.

(** Matrix and permutation go together, for the current and for the best
    state: the matrix is the original one reordered by the permutation. *)
Definition lockstep (original : matrix) (s : sa_state) : Prop :=
  apply_permutation original (current_perm s) = Some (current_cm s)
  /\ apply_permutation original (best_perm s) = Some (best_cm s).

(** What the loop keeps true on an [n]-class problem: lock-step and a
    permutation of the right length. *)
Definition ready (n : nat) (original : matrix) (s : sa_state) : Prop :=
  lockstep original s /\ length (current_perm s) = n.

(** The temperature [j] iterations after [t]. *)
Definition cooled (deterministic : bool) (j : nat) (t : float) : float :=
  if deterministic then t
  else Nat.iter j (λ x, x * 0x1.fae147ae147aep-1)%float t.

(** ** Notions used in the further properties *)

(** [l[a:b]] *)
Definition slice {A} (a b : nat) (l : list A) : list A :=
  take (b - a) (drop a l).

(** The docstring's "move a block": the elements [l[fs..fe]] taken out and
    put back so that the run between the block and [ip] comes first when
    [ip] lies behind the block, and second when it lies before. *)
Definition block_moved {A} (l : list A) (fs fe ip : nat) : list A :=
  if fe <? ip
  then take fs l ++ slice (S fe) (S ip) l ++ slice fs (S fe) l
       ++ drop (S ip) l
  else take ip l ++ slice fs (S fe) l ++ slice ip fs l ++ drop (S fe) l.


(** The recorded scores are the scores of the recorded matrices. *)
Definition scores_recorded (score : matrix -> wmatrix -> option Z)
    (weights : wmatrix) (s : sa_state) : Prop :=
  score (current_cm s) weights = Some (current_score s)
  /\ score (best_cm s) weights = Some (best_score s).

(** Every entry is a count. *)
Definition nonneg (cm : matrix) : Prop :=
  Forall (Forall (λ x, 0 <= x)%Z) cm.

(** ** Colours of the HTML view *)

Inductive color_exn : Type :=
  | ValueError_white_to_black
  | ZeroDivisionError_max_val
  | Error_int_not_finite.

(** [get_color(white_to_black)]: the three channels of a gray.  [int]
    refuses a float that is not finite. *)
Definition get_color (white_to_black : float) : color_exn + Z * Z * Z :=
  if negb ((0 <=? white_to_black)%float && (white_to_black <=? 1)%float)
  then inl ValueError_white_to_black
  else
    match py_int (255 * white_to_black)%float with
    | None => inl Error_int_not_finite
    | Some t => let index := (255 - t)%Z in inr (index, index, index)
    end.

(** [f"{z:02x}"]: lower-case hexadecimal, filled with zeros to two
    characters, the sign counting as one. *)
Definition format_02x (z : Z) : string :=
  match z with
  | Z0 => "00"
  | Zpos p =>
      let digits := HexString.Raw.of_pos p "" in
      if (String.length digits <? 2)%nat then "0" +:+ digits else digits
  | Zneg p => "-" +:+ HexString.Raw.of_pos p ""
  end.

(** [get_color_code(val, max_val)] *)
Definition get_color_code (val max_val : float) : color_exn + string :=
  if (max_val =? 0)%float then inl ZeroDivisionError_max_val
  else
    let value := py_min 1%float (val / max_val)%float in
    match get_color value with
    | inl e => inl e
    | inr (r, g, b) =>
        inr ("#" +:+ format_02x r +:+ format_02x g +:+ format_02x b)
    end.

(** ** Warnings about the classes *)

(** What [get_cm_problems] logs. *)
Inductive warning : Type :=
  | NotInDataset (label : string)
  | NeverPredicted (labels : list string).

(** [sum(row)] *)
Definition py_sum (row : list Z) : Z := foldl Z.add 0%Z row.

(** The first loop of [get_cm_problems]: the warnings logged, and the
    exception that ended it, if any. *)
Fixpoint not_in_dataset (cm : matrix) (labels : list string)
    (idx : list Z) : list warning * option exn :=
  match idx with
  | [] => ([], None)
  | i :: idx' =>
      match getitem cm i with
      | None => ([], Some IndexError)
      | Some row =>
          if (py_sum row =? 0)%Z
          then match getitem labels i with
               | None => ([], Some IndexError)
               | Some l =>
                   let r := not_in_dataset cm labels idx' in
                   (NotInDataset l :: r.1, r.2)
               end
          else not_in_dataset cm labels idx'
      end
  end.

(** The second loop, on the transposed matrix: the list
    [never_predicted], or [None] for an [IndexError]. *)
Fixpoint never_predicted (cm_t : matrix) (labels : list string)
    (idx : list Z) : option (list string) :=
  match idx with
  | [] => Some []
  | i :: idx' =>
      row ← getitem cm_t i;
      if (py_sum row =? 0)%Z
      then l ← getitem labels i;
           rest ← never_predicted cm_t labels idx';
           Some (l :: rest)
      else never_predicted cm_t labels idx'
  end.

(** [get_cm_problems(cm, labels)]: the warnings in the order they are
    logged, and the exception raised, if any. *)
Definition get_cm_problems (cm : matrix) (labels : list string)
  : list warning * option exn :=
  let n := Z.of_nat (length cm) in
  let r := not_in_dataset cm labels (py_range 0 n) in
  match r.2 with
  | Some e => (r.1, Some e)
  | None =>
      match never_predicted (transpose cm) labels (py_range 0 n) with
      | None => (r.1, Some IndexError)
      | Some [] => (r.1, None)
      | Some (l :: ls) => (r.1 ++ [NeverPredicted (l :: ls)], None)
      end
  end.

(** The labels of the rows of [rows] that hold only zeros. *)
Definition labels_of_zero_rows (labels : list string) (rows : matrix)
  : list string :=
  fst <$> filter (λ lr : string * list Z, Forall (λ x, x = 0%Z) lr.2)
            (zip labels rows).

(** * Properties *)

(** ** The docstring examples *)

Example ex_swap :
  swap [[0;1;2];[3;4;5];[6;7;8]]%Z 2 0 = ([[8;7;6];[5;4;3];[2;1;0]]%Z, None).
Proof. vm_compute. reflexivity. Qed.
Example ex_move :
  move [[0;1;2;3];[4;5;6;7];[8;9;0;1];[2;3;4;5]]%Z 1 2 0
  = ([[5;6;4;7];[9;0;8;1];[1;2;0;3];[3;4;2;5]]%Z, None).
Proof. vm_compute. reflexivity. Qed.
Example ex_swap_1d :
  swap_1d [2;1;2;3;4;5;6]%Z 2 6 = ([2;1;6;3;4;5;2]%Z, None).
Proof. vm_compute. reflexivity. Qed.
Example ex_apply :
  apply_permutation [[0;1;2];[3;4;5];[6;7;8]]%Z [2;0;1]%Z
  = Some [[8;6;7];[2;0;1];[5;3;4]]%Z.
Proof. vm_compute. reflexivity. Qed.
Example ex_score :
  calculate_score [[0;1;2];[3;4;5];[6;7;8]]%Z (calculate_weight_matrix 3)
  = Some 32%Z.
Proof. vm_compute. reflexivity. Qed.

(** ** Reasoning about computations *)

Lemma bind_Ok {A B} (m : M A) (f : A -> M B) k b k' :
  bind m f k = Ok b k' <-> exists a k1, m k = Ok a k1 /\ f a k1 = Ok b k'.
Proof.
  unfold bind. destruct (m k) as [a k1| |]; split.
  - intros H. exists a, k1. auto.
  - intros (a' & k2 & Heq & H). inversion Heq; subst. exact H.
  - discriminate.
  - intros (a' & k2 & Heq & _). discriminate.
  - discriminate.
  - intros (a' & k2 & Heq & _). discriminate.
Qed.

Lemma bind_Raise {A B} (m : M A) (f : A -> M B) k e :
  bind m f k = Raise e <->
  m k = Raise e \/ exists a k1, m k = Ok a k1 /\ f a k1 = Raise e.
Proof.
  unfold bind. destruct (m k) as [a k1| |]; split.
  - intros H. right. exists a, k1. auto.
  - intros [Heq|(a' & k2 & Heq & H)]; [discriminate|].
    inversion Heq; subst. exact H.
  - intros H. left. inversion H. reflexivity.
  - intros [Heq|(a' & k2 & Heq & _)]; [|discriminate].
    inversion Heq. reflexivity.
  - discriminate.
  - intros [Heq|(a' & k2 & Heq & _)]; discriminate.
Qed.

Lemma bind_ret_r {A} (m : M A) k : bind m ret k = m k.
Proof. unfold bind, ret. destruct (m k); reflexivity. Qed.

Lemma bind_assoc {A B C} (m : M A) (f : A -> M B) (g : B -> M C) k :
  bind (bind m f) g k = bind m (λ a, bind (f a) g) k.
Proof. unfold bind. destruct (m k); reflexivity. Qed.

Lemma bind_ext {A B} (m : M A) (f g : A -> M B) k :
  (forall a k1, f a k1 = g a k1) -> bind m f k = bind m g k.
Proof. intros H. unfold bind. destruct (m k); auto. Qed.

Lemma bind_of_Ok {A B} (m : M A) (f : A -> M B) k a k1 :
  m k = Ok a k1 -> bind m f k = f a k1.
Proof. unfold bind. intros ->. reflexivity. Qed.

Lemma bind_of_OutOfFuel {A B} (m : M A) (f : A -> M B) k :
  m k = OutOfFuel -> bind m f k = OutOfFuel.
Proof. unfold bind. intros ->. reflexivity. Qed.

Lemma ret_Ok {A} (a b : A) k k' : ret a k = Ok b k' <-> a = b /\ k = k'.
Proof. unfold ret. split; [intros H; inversion H; auto|intros [-> ->]; auto]. Qed.

Lemma lift_inplace_Ok {A} (r : inplace A) k a k' :
  lift_inplace r k = Ok a k' <-> r = (a, None) /\ k = k'.
Proof.
  destruct r as [x [e|]]; simpl; unfold raise, ret; split.
  - discriminate.
  - intros [H _]. discriminate.
  - intros H. inversion H. auto.
  - intros [H ->]. inversion H. reflexivity.
Qed.

Lemma lift_inplace_Raise {A} (r : inplace A) k e :
  lift_inplace r k = Raise e <-> r.2 = Some e.
Proof.
  destruct r as [x [e'|]]; simpl; unfold raise, ret; split;
    try discriminate; intros H; inversion H; reflexivity.
Qed.

Lemma lift_option_Ok {A} e (r : option A) k a k' :
  lift_option e r k = Ok a k' <-> r = Some a /\ k = k'.
Proof.
  destruct r as [x|]; simpl; unfold raise, ret; split.
  - intros H. inversion H. auto.
  - intros [H ->]. inversion H. reflexivity.
  - discriminate.
  - intros [H _]. discriminate.
Qed.

Lemma randint_Ok rs a b k v k' :
  randint rs a b k = Ok v k' ->
  (a <= v <= b)%Z /\ k' = S k /\ v = (a + Z.of_N (rs k) mod (b - a + 1))%Z.
Proof.
  unfold randint. destruct (a >? b)%Z eqn:E; [discriminate|].
  intros H. inversion H; subst. split; [|auto].
  assert (0 <= Z.of_N (rs k) mod (b - a + 1) < b - a + 1)%Z
    by (apply Z.mod_pos_bound; lia).
  lia.
Qed.

Lemma randint_not_insert_pos rs a b k x y z :
  randint rs a b k <> Raise (ValueError_insert_pos x y z).
Proof. unfold randint. destruct (a >? b)%Z; discriminate. Qed.

(** What a [while] loop returns violates its condition. *)
Lemma while_Ok_cond {St} fuel (cond : St -> bool) body s it k r it' k' :
  while fuel cond body s it k = Ok (r, it') k' -> cond r = false.
Proof.
  revert s it k. induction fuel as [|fuel IH]; intros s it k; simpl.
  - destruct (cond s) eqn:E; [discriminate|].
    intros H. apply ret_Ok in H as [H _]. inversion H; subst. exact E.
  - destruct (cond s) eqn:E.
    + intros H. apply bind_Ok in H as (s1 & k1 & _ & H). eauto.
    + intros H. apply ret_Ok in H as [H _]. inversion H; subst. exact E.
Qed.

(** An invariant of the body holds of the result of the loop. *)
Lemma while_Ok_inv {St} (P : St -> Prop) fuel (cond : St -> bool) body
    s it k r it' k' :
  (forall s k s' k', body s k = Ok s' k' -> P s') ->
  while fuel cond body s it k = Ok (r, it') k' ->
  r = s /\ it' = it \/ P r.
Proof.
  intros Hbody. revert s it k.
  induction fuel as [|fuel IH]; intros s it k; simpl.
  - destruct (cond s); [discriminate|].
    intros H. apply ret_Ok in H as [H _]. inversion H; auto.
  - destruct (cond s).
    + intros H. apply bind_Ok in H as (s1 & k1 & Hb & H).
      apply IH in H as [[-> _]|H]; eauto.
    + intros H. apply ret_Ok in H as [H _]. inversion H; auto.
Qed.

(** A loop whose body cannot raise [e] cannot raise [e]. *)
Lemma while_not_Raise {St} e fuel (cond : St -> bool) body s it k :
  (forall s k, body s k <> Raise e) ->
  while fuel cond body s it k <> Raise e.
Proof.
  intros Hbody. revert s it k.
  induction fuel as [|fuel IH]; intros s it k; simpl.
  - destruct (cond s); discriminate.
  - destruct (cond s); [|discriminate].
    intros H. apply bind_Raise in H as [H|(s1 & k1 & _ & H)].
    + eapply Hbody, H.
    + eapply IH, H.
Qed.

Lemma while_false {St} fuel (cond : St -> bool) body s it k :
  cond s = false -> while fuel cond body s it k = Ok (s, it) k.
Proof. intros E. destruct fuel; simpl; rewrite E; reflexivity. Qed.

(** ** The transforms' guard *)

Lemma move_guard_spec (from_start from_end insert_pos : Z) :
  negb ((insert_pos <? from_start)%Z || (insert_pos >? from_end)%Z) = true
  <-> (from_start <= insert_pos <= from_end)%Z.
Proof.
  rewrite negb_true_iff, orb_false_iff, Z.ltb_ge, Z.gtb_ltb, Z.ltb_ge. lia.
Qed.

Lemma move_raises (cm : matrix) fs fe ip e :
  (move cm fs fe ip).2 = Some e ->
  e = IndexError
  \/ e = ValueError_insert_pos ip fs fe /\ (fs <= ip <= fe)%Z
     /\ (move cm fs fe ip).1 = cm.
Proof.
  unfold move.
  destruct (negb ((ip <? fs)%Z || (ip >? fe)%Z)) eqn:G.
  - simpl. intros H. inversion H; subst. right.
    apply move_guard_spec in G. auto.
  - destruct (mapM _ cm) as [cm1|]; simpl.
    + destruct (reindex cm1 _ _); simpl; intros H; inversion H; auto.
    + intros H; inversion H; auto.
Qed.

Lemma move_1d_raises (perm : vector) fs fe ip e :
  (move_1d perm fs fe ip).2 = Some e ->
  e = IndexError
  \/ e = ValueError_insert_pos ip fs fe /\ (fs <= ip <= fe)%Z
     /\ (move_1d perm fs fe ip).1 = perm.
Proof.
  unfold move_1d.
  destruct (negb ((ip <? fs)%Z || (ip >? fe)%Z)) eqn:G.
  - simpl. intros H. inversion H; subst. right.
    apply move_guard_spec in G. auto.
  - destruct (reindex perm _ _); simpl; intros H; inversion H; auto.
Qed.

Lemma move_inside (cm : matrix) fs fe ip :
  (fs <= ip <= fe)%Z ->
  move cm fs fe ip = (cm, Some (ValueError_insert_pos ip fs fe)).
Proof.
  intros H. apply move_guard_spec in H. unfold move. rewrite H. reflexivity.
Qed.

Lemma move_1d_inside (perm : vector) fs fe ip :
  (fs <= ip <= fe)%Z ->
  move_1d perm fs fe ip = (perm, Some (ValueError_insert_pos ip fs fe)).
Proof.
  intros H. apply move_guard_spec in H. unfold move_1d. rewrite H.
  reflexivity.
Qed.

(** C7.  For [from_start <= from_end], [move] and [move_1d] raise the
    insert-position [ValueError] exactly when
    [from_start <= insert_pos <= from_end], and then the array they were
    given is unchanged. *)
Theorem move_value_error_iff (cm : matrix) (perm : vector)
    (from_start from_end insert_pos : Z) :
  (from_start <= from_end)%Z ->
  ((exists a b c, (move cm from_start from_end insert_pos).2
                  = Some (ValueError_insert_pos a b c))
   <-> (from_start <= insert_pos <= from_end)%Z)
  /\ ((exists a b c, (move_1d perm from_start from_end insert_pos).2
                     = Some (ValueError_insert_pos a b c))
      <-> (from_start <= insert_pos <= from_end)%Z)
  /\ ((from_start <= insert_pos <= from_end)%Z ->
      move cm from_start from_end insert_pos
      = (cm, Some (ValueError_insert_pos insert_pos from_start from_end))
      /\ move_1d perm from_start from_end insert_pos
         = (perm, Some (ValueError_insert_pos insert_pos from_start from_end))).
Proof.
  intros _. split; [|split].
  - split.
    + intros (a & b & c & H). apply move_raises in H as [H|(_ & H & _)].
      * discriminate.
      * exact H.
    + intros H. rewrite (move_inside _ _ _ _ H). simpl. eauto.
  - split.
    + intros (a & b & c & H). apply move_1d_raises in H as [H|(_ & H & _)].
      * discriminate.
      * exact H.
    + intros H. rewrite (move_1d_inside _ _ _ _ H). simpl. eauto.
  - intros H. split; [apply move_inside|apply move_1d_inside]; exact H.
Qed.

Lemma move_value_error_iff_witness :
  (1 <= 2)%Z
  /\ move cm4 1 2 2 = (cm4, Some (ValueError_insert_pos 2 1 2))
  /\ move_1d [0; 1; 2; 3]%Z 1 2 2
     = ([0; 1; 2; 3]%Z, Some (ValueError_insert_pos 2 1 2)).
Proof.
  split; [lia|].
  apply (move_value_error_iff cm4 [0; 1; 2; 3]%Z 1 2 2); lia.
Defined.

(** ** The neighbour generator *)

Lemma draw_block_first_pair (rs : nat -> N) (fuel : nat) (n : Z) (k : nat) :
  (3 <= n)%Z ->
  let fs := first_from_start rs n k in
  let fe := first_from_end rs n k in
  randint rs 0 (n - 3) k = Ok fs (S k)
  /\ randint rs (fs + 1) (n - 2) (S k) = Ok fe (S (S k))
  /\ (0 <= fs < fe)%Z /\ (fe <= n - 2)%Z
  /\ draw_block rs (S fuel) n k
     = Ok ((fs - fe)%Z, Some (fs, fe), 1) (S (S k)).
Proof.
  intros Hn fs fe.
  assert (E1 : randint rs 0 (n - 3) k = Ok fs (S k)).
  { unfold randint. destruct (0 >? n - 3)%Z eqn:E; [lia|reflexivity]. }
  pose proof (randint_Ok _ _ _ _ _ _ E1) as (Hfs & _ & _).
  assert (E2 : randint rs (fs + 1) (n - 2) (S k) = Ok fe (S (S k))).
  { unfold randint. destruct (fs + 1 >? n - 2)%Z eqn:E; [lia|reflexivity]. }
  pose proof (randint_Ok _ _ _ _ _ _ E2) as (Hfe & _ & _).
  split; [exact E1|]. split; [exact E2|].
  split; [lia|]. split; [lia|].
  unfold draw_block. simpl.
  replace (n >=? n - 1)%Z with true by lia.
  rewrite (bind_of_Ok _ _ _ (fs - fe, Some (fs, fe))%Z (S (S k))).
  - apply while_false. simpl. lia.
  - rewrite (bind_of_Ok _ _ _ _ _ E1). rewrite (bind_of_Ok _ _ _ _ _ E2).
    reflexivity.
Qed.

(** C10.  For [n >= 3] the block-length loop runs its body exactly once:
    the first pair drawn has [from_start - from_end < 0 < n - 1], and that
    pair is the one returned. *)
Theorem block_loop_runs_once (rs : nat -> N) (fuel : nat) (n : Z) (k : nat) :
  (3 <= n)%Z ->
  exists from_start from_end : Z,
    randint rs 0 (n - 3) k = Ok from_start (S k)
    /\ randint rs (from_start + 1) (n - 2) (S k) = Ok from_end (S (S k))
    /\ (from_start - from_end < 0)%Z
    /\ draw_block rs (S fuel) n k
       = Ok ((from_start - from_end)%Z, Some (from_start, from_end), 1)
            (S (S k)).
Proof.
  intros Hn.
  destruct (draw_block_first_pair rs fuel n k Hn)
    as (E1 & E2 & Hfs & Hfe & Hb).
  exists (first_from_start rs n k), (first_from_end rs n k).
  split; [exact E1|]. split; [exact E2|]. split; [lia|exact Hb].
Qed.

Lemma block_loop_runs_once_witness :
  exists from_start from_end : Z,
    randint rs_lcg 0 (4 - 3) 1 = Ok from_start 2
    /\ randint rs_lcg (from_start + 1) (4 - 2) 2 = Ok from_end 3
    /\ (from_start - from_end < 0)%Z
    /\ draw_block rs_lcg 1 4 1
       = Ok ((from_start - from_end)%Z, Some (from_start, from_end), 1) 3.
Proof. apply (block_loop_runs_once rs_lcg 0 4 1). lia. Defined.

Lemma draw_other_Ok rs fuel n i j it k k' :
  draw_other rs fuel n i k = Ok (j, it) k' ->
  (0 <= j <= n - 1)%Z /\ j <> i.
Proof.
  unfold draw_other. intros H.
  pose proof (while_Ok_cond _ _ _ _ _ _ _ _ _ H) as Hc. simpl in Hc.
  apply Z.eqb_neq in Hc.
  apply (while_Ok_inv (λ j, 0 <= j <= n - 1)%Z) in H as [[-> _]|H].
  - congruence.
  - auto.
  - intros _ k0 s' k0' Hr. apply randint_Ok in Hr as (Hr & _). lia.
Qed.

Lemma draw_block_Ok rs fuel n bl blk it k k' :
  draw_block rs fuel n k = Ok (bl, blk, it) k' ->
  exists fs fe, blk = Some (fs, fe) /\ (0 <= fs < fe)%Z /\ (fe <= n - 2)%Z.
Proof.
  unfold draw_block. intros H.
  pose proof (while_Ok_cond _ _ _ _ _ _ _ _ _ H) as Hc. simpl in Hc.
  apply (while_Ok_inv
           (λ st, exists fs fe, st.2 = Some (fs, fe)
                                /\ (0 <= fs < fe)%Z /\ (fe <= n - 2)%Z))
    in H as [[Heq _]|H].
  - inversion Heq; subst. lia.
  - exact H.
  - intros _ k0 s' k0' Hb.
    apply bind_Ok in Hb as (fs & k1 & Hfs & Hb).
    apply bind_Ok in Hb as (fe & k2 & Hfe & Hb).
    apply ret_Ok in Hb as [<- _].
    apply randint_Ok in Hfs as (Hfs & _). apply randint_Ok in Hfe as (Hfe & _).
    exists fs, fe. simpl. split; [reflexivity|lia].
Qed.

Lemma draw_insert_pos_Ok rs fuel n fs fe ip it k k' :
  draw_insert_pos rs fuel n fs fe k = Ok (ip, it) k' ->
  (fs <= fe)%Z ->
  (ip < fs \/ ip > fe)%Z /\ (0 <= ip <= n - 1)%Z.
Proof.
  unfold draw_insert_pos. intros H Hle.
  pose proof (while_Ok_cond _ _ _ _ _ _ _ _ _ H) as Hc. simpl in Hc.
  assert (Hout : (ip < fs \/ ip > fe)%Z).
  { destruct (negb ((ip <? fs)%Z || (ip >? fe)%Z)) eqn:G; [discriminate|].
    apply not_true_iff_false in G. rewrite move_guard_spec in G. lia. }
  split; [exact Hout|].
  apply (while_Ok_inv (λ j, 0 <= j <= n - 1)%Z) in H as [[-> _]|H].
  - lia.
  - exact H.
  - intros _ k0 s' k0' Hr. apply randint_Ok in Hr as (Hr & _). lia.
Qed.

Lemma random_Ok rs k : exists r, random rs k = Ok r (S k).
Proof. unfold random. eauto. Qed.

(** What a successful call of the generator did. *)
Lemma generate_permutation_Ok rs fuel n perm cm k p mk c k' :
  generate_permutation rs fuel n perm cm k = Ok (p, mk, c) k' ->
  (mk = true
   /\ exists i j, (0 <= i <= n - 1)%Z /\ (0 <= j <= n - 1)%Z /\ i <> j
        /\ swap_1d perm i j = (p, None) /\ swap cm i j = (c, None))
  \/ (mk = false /\ (3 <= n)%Z
      /\ exists fs fe ip, (0 <= fs < fe)%Z /\ (fe <= n - 2)%Z
           /\ (ip < fs \/ ip > fe)%Z /\ (0 <= ip <= n - 1)%Z
           /\ move_1d perm fs fe ip = (p, None)
           /\ move cm fs fe ip = (c, None)).
Proof.
  unfold generate_permutation. intros H.
  apply bind_Ok in H as (r & k1 & _ & H).
  destruct (choose_make_swap n r) eqn:Hmk.
  - left.
    apply bind_Ok in H as (i & k2 & Hi & H).
    apply bind_Ok in H as ([j it] & k3 & Hj & H).
    apply bind_Ok in H as (p' & k4 & Hp & H).
    apply bind_Ok in H as (c' & k5 & Hc & H).
    apply ret_Ok in H as [H _]. inversion H; subst.
    apply lift_inplace_Ok in Hp as [Hp _].
    apply lift_inplace_Ok in Hc as [Hc _].
    apply randint_Ok in Hi as (Hi & _).
    apply draw_other_Ok in Hj as [Hj Hne].
    split; [reflexivity|]. exists i, j. repeat split; auto; lia.
  - right.
    assert (3 <= n)%Z as Hn.
    { unfold choose_make_swap in Hmk.
      destruct (n <? 3)%Z eqn:E; [discriminate|lia]. }
    apply bind_Ok in H as ([[bl blk] it] & k2 & Hb & H).
    apply draw_block_Ok in Hb as (fs & fe & -> & Hfs & Hfe).
    apply bind_Ok in H as ([ip it'] & k3 & Hip & H).
    apply bind_Ok in H as (p' & k4 & Hp & H).
    apply bind_Ok in H as (c' & k5 & Hc & H).
    apply ret_Ok in H as [H _]. inversion H; subst.
    apply lift_inplace_Ok in Hp as [Hp _].
    apply lift_inplace_Ok in Hc as [Hc _].
    apply draw_insert_pos_Ok in Hip as [Hout Hip]; [|lia].
    split; [reflexivity|]. split; [exact Hn|].
    exists fs, fe, ip. repeat split; auto; lia.
Qed.

Lemma swap_raises (cm : matrix) i j e :
  (swap cm i j).2 = Some e -> e = IndexError.
Proof.
  unfold swap. destruct (swap_columns cm i j) as [cm1|]; simpl.
  - destruct (swap_rows cm1 i j); simpl; intros H; inversion H; auto.
  - intros H; inversion H; auto.
Qed.

Lemma swap_1d_raises (perm : vector) i j e :
  (swap_1d perm i j).2 = Some e -> e = IndexError.
Proof.
  unfold swap_1d. destruct (swap_items perm i j); simpl;
    intros H; inversion H; auto.
Qed.

(** The generator never raises the transforms' [ValueError]. *)
Lemma generate_permutation_no_value_error rs fuel n perm cm k a b c :
  generate_permutation rs fuel n perm cm k
  <> Raise (ValueError_insert_pos a b c).
Proof.
  unfold generate_permutation. intros H.
  apply bind_Raise in H as [H|(r & k1 & _ & H)]; [discriminate|].
  destruct (choose_make_swap n r).
  - apply bind_Raise in H as [H|(i & k2 & _ & H)].
    { eapply randint_not_insert_pos, H. }
    apply bind_Raise in H as [H|([j it] & k3 & _ & H)].
    { revert H. apply while_not_Raise.
      intros ? ?. apply randint_not_insert_pos. }
    apply bind_Raise in H as [H|(p' & k4 & _ & H)].
    { apply lift_inplace_Raise, swap_1d_raises in H. discriminate. }
    apply bind_Raise in H as [H|(c' & k5 & _ & H)].
    { apply lift_inplace_Raise, swap_raises in H. discriminate. }
    discriminate.
  - apply bind_Raise in H as [H|([[bl blk] it] & k2 & Hb & H)].
    { revert H. apply while_not_Raise. intros ? ? H.
      apply bind_Raise in H as [H|(fs & k3 & _ & H)].
      { eapply randint_not_insert_pos, H. }
      apply bind_Raise in H as [H|(fe & k4 & _ & H)]; [|discriminate].
      eapply randint_not_insert_pos, H. }
    apply draw_block_Ok in Hb as (fs & fe & -> & Hfs & Hfe).
    apply bind_Raise in H as [H|([ip it'] & k3 & Hip & H)].
    { revert H. apply while_not_Raise.
      intros ? ?. apply randint_not_insert_pos. }
    apply draw_insert_pos_Ok in Hip as [Hout Hip]; [|lia].
    apply bind_Raise in H as [H|(p' & k4 & _ & H)].
    { apply lift_inplace_Raise, move_1d_raises in H as [H|(_ & H & _)];
        [discriminate|lia]. }
    apply bind_Raise in H as [H|(c' & k5 & _ & H)].
    { apply lift_inplace_Raise, move_raises in H as [H|(_ & H & _)];
        [discriminate|lia]. }
    discriminate.
Qed.

(** C9.  The block-move parameters the generator draws satisfy
    [0 <= from_start < from_end <= n - 2] with [insert_pos] outside
    [from_start, from_end]: a call that returns having moved a block called
    [move_1d] and [move] with such parameters, no call raises the
    transforms' [ValueError], and for [n < 3] the move is always a swap. *)
Theorem generator_parameters_valid (rs : nat -> N) (fuel : nat) (n : Z)
    (perm : vector) (cm : matrix) (k : nat) :
  (forall bl fs fe it k1 ip it' k2,
     draw_block rs fuel n k = Ok (bl, Some (fs, fe), it) k1 ->
     draw_insert_pos rs fuel n fs fe k1 = Ok (ip, it') k2 ->
     (0 <= fs < fe)%Z /\ (fe <= n - 2)%Z /\ (ip < fs \/ ip > fe)%Z)
  /\ (forall p c k',
        generate_permutation rs fuel n perm cm k = Ok (p, false, c) k' ->
        exists fs fe ip,
          (0 <= fs < fe)%Z /\ (fe <= n - 2)%Z /\ (ip < fs \/ ip > fe)%Z
          /\ move_1d perm fs fe ip = (p, None)
          /\ move cm fs fe ip = (c, None))
  /\ (forall a b c,
        generate_permutation rs fuel n perm cm k
        <> Raise (ValueError_insert_pos a b c))
  /\ ((n < 3)%Z ->
      (forall r, choose_make_swap n r = true)
      /\ forall p mk c k',
           generate_permutation rs fuel n perm cm k = Ok (p, mk, c) k' ->
           mk = true).
Proof.
  split; [|split; [|split]].
  - intros bl fs fe it k1 ip it' k2 Hb Hip.
    apply draw_block_Ok in Hb as (fs' & fe' & Heq & Hfs & Hfe).
    inversion Heq; subst.
    apply draw_insert_pos_Ok in Hip as [Hout _]; [|lia]. auto.
  - intros p c k' H.
    apply generate_permutation_Ok in H as [[H _]|(_ & _ & H)];
      [discriminate|].
    destruct H as (fs & fe & ip & H1 & H2 & H3 & _ & H5 & H6).
    exists fs, fe, ip. auto.
  - intros a b c. apply generate_permutation_no_value_error.
  - intros Hn. split.
    + intros r. unfold choose_make_swap.
      destruct (n <? 3)%Z eqn:E; [reflexivity|lia].
    + intros p mk c k' H.
      apply generate_permutation_Ok in H as [[H _]|(_ & H & _)];
        [exact H|lia].
Qed.

Lemma generator_parameters_valid_witness :
  exists fs fe ip,
    (0 <= fs < fe)%Z /\ (fe <= 4 - 2)%Z /\ (ip < fs \/ ip > fe)%Z
    /\ move_1d [0; 1; 2; 3]%Z fs fe ip = ([0; 3; 1; 2]%Z, None)
    /\ move cm4 fs fe ip
       = ([[0; 3; 1; 2]; [2; 5; 3; 4]; [4; 7; 5; 6]; [8; 1; 9; 0]]%Z, None).
Proof.
  eapply (generator_parameters_valid rs_lcg 10 4 [0; 1; 2; 3]%Z cm4 1).
  vm_compute. reflexivity.
Defined.

(** ** binary64 arithmetic *)

(** *** Comparisons *)

Lemma SFcompare_antisym (x y : spec_float) (c : comparison) :
  SFcompare x y = Some c -> SFcompare y x = Some (CompOpp c).
Proof.
  destruct x as [sx|sx| |sx mx ex], y as [sy|sy| |sy my ey]; cbn;
    try discriminate;
    try (intros H; inversion H; subst; clear H;
         repeat match goal with s : bool |- _ => destruct s end;
         reflexivity).
  intros H. inversion H; subst; clear H. f_equal.
  assert (Hm : Pos.compare_cont Eq my mx
               = CompOpp (Pos.compare_cont Eq mx my))
    by (rewrite Pos.compare_cont_antisym; reflexivity).
  assert (He : (ey ?= ex)%Z = CompOpp (ex ?= ey)%Z)
    by apply Z.compare_antisym.
  rewrite He, Hm.
  destruct sx, sy, (ex ?= ey)%Z, (Pos.compare_cont Eq mx my); reflexivity.
Qed.

Lemma ltb_leb_false (a b : float) :
  (a <? b)%float = true -> (b <=? a)%float = false.
Proof.
  rewrite ltb_spec, leb_spec. unfold SFltb, SFleb.
  destruct (SFcompare (Prim2SF a) (Prim2SF b)) as [c|] eqn:E;
    [|discriminate].
  destruct c; try discriminate. intros _.
  rewrite (SFcompare_antisym _ _ _ E). reflexivity.
Qed.

Lemma leb_ltb_false (a b : float) :
  (a <=? b)%float = true -> (b <? a)%float = false.
Proof.
  rewrite ltb_spec, leb_spec. unfold SFltb, SFleb.
  destruct (SFcompare (Prim2SF a) (Prim2SF b)) as [c|] eqn:E;
    [|discriminate].
  rewrite (SFcompare_antisym _ _ _ E).
  destruct c; try discriminate; reflexivity.
Qed.

Lemma eqb_leb (a b : float) :
  (a =? b)%float = true -> (a <=? b)%float = true.
Proof.
  rewrite FloatAxioms.eqb_spec, leb_spec. unfold SFeqb, SFleb.
  destruct (SFcompare (Prim2SF a) (Prim2SF b)) as [[]|]; auto.
Qed.

Lemma leb_false_eqb_false (a b : float) :
  (a <=? b)%float = false -> (a =? b)%float = false.
Proof.
  intros H. destruct (a =? b)%float eqn:E; [|reflexivity].
  apply eqb_leb in E. congruence.
Qed.

(** *** Signs *)

Lemma binary_round_aux_sign (sx : bool) (m e : Z) (l : location) :
  match binary_round_aux prec emax sx m e l with
  | S754_zero s | S754_infinity s | S754_finite s _ _ => s = sx
  | S754_nan => True
  end.
Proof.
  unfold binary_round_aux.
  destruct (shr_fexp prec emax m e l) as [mrs' e'].
  destruct (shr_fexp prec emax _ e' loc_Exact) as [mrs'' e''].
  destruct (shr_m mrs''); [reflexivity| |exact I].
  destruct (e'' <=? emax - prec)%Z; reflexivity.
Qed.

Lemma binary_normalize_not_negative (z e : Z) :
  (0 <= z)%Z -> SFnot_negative (binary_normalize prec emax z e false).
Proof.
  intros Hz. destruct z as [|p|p]; [reflexivity| |lia].
  unfold binary_normalize, binary_round.
  destruct (shl_align _ _ _) as [mz ez].
  pose proof (binary_round_aux_sign false (Zpos mz) ez loc_Exact) as H.
  unfold SFnot_negative. destruct (binary_round_aux _ _ _ _ _ _); exact H.
Qed.

Lemma SFldexp_not_negative (x : spec_float) (e : Z) :
  SFnot_negative x -> SFnot_negative (SFldexp prec emax x e).
Proof.
  destruct x as [s|s| |s m ex]; cbn; try (intros H; exact H).
  intros ->. unfold binary_round.
  destruct (shl_align _ _ _) as [mz ez].
  pose proof (binary_round_aux_sign false (Zpos mz) ez loc_Exact) as H.
  destruct (binary_round_aux _ _ _ _ _ _); exact H.
Qed.

Lemma to_Z_of_Z_nonneg (z : Z) : (0 <= Uint63.to_Z (Uint63.of_Z z))%Z.
Proof. rewrite Uint63.of_Z_spec. apply Z.mod_pos_bound. reflexivity. Qed.

Lemma float_of_Z_not_negative (z : Z) :
  (0 <= z)%Z -> SFnot_negative (Prim2SF (float_of_Z z)).
Proof.
  intros Hz. unfold float_of_Z.
  pose proof (binary_normalize_not_negative z 0 Hz) as H.
  destruct (binary_normalize prec emax z 0 false) as [s|s| |s m e];
    cbn in H; subst; try reflexivity.
  cbn [SF2Prim]. rewrite Z_ldexp_spec, of_uint63_spec.
  apply SFldexp_not_negative, binary_normalize_not_negative.
  apply to_Z_of_Z_nonneg.
Qed.

(** A temperature that passes [temp <= 0.0] is positive or [nan]; the
    quotient of a count by it is not below zero. *)
Lemma quotient_not_below_zero (d : Z) (t : float) :
  (0 <= d)%Z -> (t <=? 0)%float = false ->
  (float_of_Z d / t <? 0)%float = false.
Proof.
  intros Hd Ht. pose proof (float_of_Z_not_negative d Hd) as Hx.
  rewrite leb_spec in Ht. rewrite ltb_spec, div_spec.
  change (Prim2SF 0) with (S754_zero false) in *.
  destruct (Prim2SF (float_of_Z d)) as [sx|sx| |sx mx ex],
    (Prim2SF t) as [sy|sy| |sy my ey];
    cbn in Hx; subst; try reflexivity; try discriminate Ht;
    try (destruct sy; try discriminate Ht; reflexivity).
  destruct sy; [discriminate Ht|]. unfold SF64div, SFdiv.
  destruct (SFdiv_core_binary _ _ _ _ _ _) as [[mz ez] lz].
  pose proof (binary_round_aux_sign (xorb false false) mz ez lz) as H.
  destruct (binary_round_aux _ _ _ _ _ _); cbn in H; subst; reflexivity.
Qed.

(** *** The cast of an [int64] is finite *)

Lemma digits2_pos_size (p : positive) : digits2_pos p = Pos.size p.
Proof. induction p as [p IH|p IH|]; cbn; rewrite ?IH; reflexivity. Qed.

Lemma Zdigits2_log2 (m : Z) :
  (0 < m)%Z -> Zdigits2 m = (Z.log2 m + 1)%Z.
Proof.
  destruct m as [|p|p]; try lia. intros _. cbn [Zdigits2].
  rewrite digits2_pos_size. destruct p as [p|p|]; cbn; lia.
Qed.

Lemma Zdigits2_nonneg (m : Z) : (0 <= Zdigits2 m)%Z.
Proof. destruct m; cbn; lia. Qed.

Lemma Zdigits2_le (a b : Z) :
  (0 <= a <= b)%Z -> (Zdigits2 a <= Zdigits2 b)%Z.
Proof.
  intros [Ha Hab]. destruct (Z.eq_dec a 0%Z) as [->|Hne].
  - apply Zdigits2_nonneg.
  - rewrite !Zdigits2_log2 by lia.
    pose proof (Z.log2_le_mono a b Hab). lia.
Qed.

Lemma Zdigits2_succ (a : Z) :
  (0 <= a)%Z -> (Zdigits2 (a + 1) <= Zdigits2 a + 1)%Z.
Proof.
  intros Ha. destruct (Z.eq_dec a 0%Z) as [->|Hne];
    [vm_compute; discriminate|].
  rewrite !Zdigits2_log2 by lia.
  pose proof (Z.log2_succ_le a) as H. rewrite <- !Z.add_1_r in H. lia.
Qed.

Lemma shr_1_bounds (r : shr_record) :
  (0 <= shr_m r)%Z -> (0 <= shr_m (shr_1 r) <= shr_m r)%Z.
Proof.
  destruct r as [m b s]. cbn [shr_m]. intros Hm.
  destruct m as [|[p|p|]|p]; cbn; lia.
Qed.

Lemma iter_shr_1_bounds (p : positive) (r : shr_record) :
  (0 <= shr_m r)%Z -> (0 <= shr_m (SpecFloat.iter_pos shr_1 p r) <= shr_m r)%Z.
Proof.
  revert r. induction p as [p IH|p IH|]; intros r Hr; cbn [SpecFloat.iter_pos].
  - pose proof (shr_1_bounds r Hr) as H1.
    pose proof (IH (shr_1 r) ltac:(lia)) as H2.
    pose proof (IH (SpecFloat.iter_pos shr_1 p (shr_1 r)) ltac:(lia)). lia.
  - pose proof (IH r Hr) as H1.
    pose proof (IH (SpecFloat.iter_pos shr_1 p r) ltac:(lia)). lia.
  - apply shr_1_bounds, Hr.
Qed.

Lemma shr_record_of_loc_m (m : Z) (l : location) :
  shr_m (shr_record_of_loc m l) = m.
Proof. destruct l as [|[]]; reflexivity. Qed.

(** Shifting to the exponent [fexp] asks for: the mantissa shrinks and
    the exponent is the larger of the two. *)
Lemma shr_fexp_bounds (m e : Z) (l : location) :
  (0 <= m)%Z ->
  let r := shr_fexp prec emax m e l in
  (0 <= shr_m r.1 <= m)%Z
  /\ (r.2 = e \/ r.2 = fexp prec emax (Zdigits2 m + e))%Z.
Proof.
  intros Hm. unfold shr_fexp, shr.
  destruct (fexp prec emax (Zdigits2 m + e) - e)%Z as [|p|p] eqn:E;
    cbn [fst snd]; rewrite ?shr_record_of_loc_m.
  - split; [lia|]. left. reflexivity.
  - split.
    + pose proof (iter_shr_1_bounds p (shr_record_of_loc m l)) as H.
      rewrite shr_record_of_loc_m in H. apply H, Hm.
    + right. lia.
  - split; [lia|]. left. reflexivity.
Qed.

Lemma round_nearest_even_bounds (m : Z) (l : location) :
  (0 <= m)%Z -> (m <= round_nearest_even m l <= m + 1)%Z.
Proof.
  intros Hm. unfold round_nearest_even.
  destruct l as [|[]]; try lia. destruct (Z.even m); lia.
Qed.

(** Rounding a mantissa of moderate size at a moderate exponent gives a
    finite float. *)
Lemma binary_round_aux_finite (sx : bool) (m e : Z) (l : location) :
  (0 <= m)%Z -> (Zdigits2 m <= 200)%Z -> (e <= 500)%Z ->
  SFfinite (binary_round_aux prec emax sx m e l).
Proof.
  intros Hm Hd He. unfold binary_round_aux.
  pose proof (shr_fexp_bounds m e l Hm) as H1. cbv zeta in H1.
  destruct (shr_fexp prec emax m e l) as [mrs' e']. cbn [fst snd] in H1.
  destruct H1 as [Hm' He'].
  set (mr := round_nearest_even (shr_m mrs') (loc_of_shr_record mrs')).
  pose proof (round_nearest_even_bounds (shr_m mrs')
                (loc_of_shr_record mrs') ltac:(lia)) as Hr.
  fold mr in Hr.
  pose proof (shr_fexp_bounds mr e' loc_Exact ltac:(lia)) as H2.
  cbv zeta in H2.
  destruct (shr_fexp prec emax mr e' loc_Exact) as [mrs'' e''].
  cbn [fst snd] in H2. destruct H2 as [Hm'' He''].
  pose proof (Zdigits2_nonneg m) as Hd0.
  pose proof (Zdigits2_le (shr_m mrs') m ltac:(lia)) as Hd1.
  pose proof (Zdigits2_succ (shr_m mrs') ltac:(lia)) as Hd2.
  pose proof (Zdigits2_le mr (shr_m mrs' + 1) ltac:(lia)) as Hd3.
  pose proof (Zdigits2_nonneg mr) as Hd4.
  assert (Hb : (e'' <= emax - prec)%Z).
  { unfold fexp, SpecFloat.emin, emax, prec in *. lia. }
  destruct (shr_m mrs'') as [|p|p]; [exact I| |lia].
  apply Z.leb_le in Hb. rewrite Hb. exact I.
Qed.

Lemma Zdigits2_iter_xO (p d : positive) :
  Zdigits2 (Zpos (Pos.iter xO p d)) = (Zdigits2 (Zpos p) + Zpos d)%Z.
Proof.
  induction d as [|d IH] using Pos.peano_ind.
  - cbn. lia.
  - rewrite Pos.iter_succ. cbn [Zdigits2 digits2_pos] in *.
    rewrite Pos2Z.inj_succ, IH. lia.
Qed.

Lemma binary_normalize_finite (z : Z) :
  (0 <= z < 2 ^ 63)%Z -> SFfinite (binary_normalize prec emax z 0 false).
Proof.
  intros Hz. destruct z as [|p|p]; [exact I| |lia].
  assert (Hd : (Zdigits2 (Zpos p) <= 64)%Z).
  { pose proof (Zdigits2_le (Zpos p) (2 ^ 63) ltac:(lia)) as H.
    change (Zdigits2 (2 ^ 63)) with 64%Z in H. exact H. }
  pose proof (Zdigits2_nonneg (Zpos p)) as Hd0.
  unfold binary_normalize, binary_round, shl_align.
  change (Zpos (digits2_pos p)) with (Zdigits2 (Zpos p)).
  destruct (fexp prec emax (Zdigits2 (Zpos p) + 0) - 0)%Z as [|q|q] eqn:E;
    try (apply binary_round_aux_finite; lia).
  rewrite <- Pos2Z.opp_pos in E.
  unfold fexp, SpecFloat.emin, emax, prec in E |- *.
  apply binary_round_aux_finite; [lia| |lia].
  rewrite Zdigits2_iter_xO. lia.
Qed.

Lemma SFopp_finite (x : spec_float) : SFfinite x -> SFfinite (SFopp x).
Proof. destruct x; cbn; auto. Qed.

Lemma int64_range (z : Z) : (- 2 ^ 63 <= int64 z < 2 ^ 63)%Z.
Proof.
  unfold int64.
  pose proof (Z.mod_pos_bound (z + 2 ^ 63) (2 ^ 64) ltac:(lia)). lia.
Qed.

Lemma np_float64_finite (z : Z) : SFfinite (Prim2SF (np_float64 z)).
Proof.
  unfold np_float64. cbv zeta. pose proof (int64_range z) as Hr.
  destruct (Z.eqb_spec (int64 z) (- 2 ^ 63)) as [_|Hne]; [exact I|].
  assert (Hx : SFfinite
                 (Prim2SF (of_uint63 (Uint63.of_Z (Z.abs (int64 z)))))).
  { rewrite of_uint63_spec, Uint63.of_Z_spec.
    apply binary_normalize_finite.
    change Uint63Axioms.wB with (2 ^ 63)%Z.
    apply Z.mod_pos_bound. lia. }
  destruct (int64 z <? 0)%Z; [|exact Hx].
  rewrite opp_spec. apply SFopp_finite, Hx.
Qed.

(** *** [int(x)] *)

Lemma truncates_pos (num : Z) (den : positive) (a : Z) :
  (0 < num)%Z -> (a * Zpos den <= num < (a + 1) * Zpos den)%Z ->
  truncates (Qmake num den) a /\ truncates (Qopp (Qmake num den)) (- a).
Proof.
  intros Hn Ha. unfold truncates, Qle, Qlt, Qopp, inject_Z. cbn.
  repeat split; intros; nia.
Qed.

Lemma py_int_truncates (x : float) (r : Z) :
  py_int x = Some r ->
  exists q, float_value x = Some q /\ truncates q r.
Proof.
  unfold py_int, float_value.
  destruct (Prim2SF x) as [s|s| |s m e]; try discriminate.
  - intros H. inversion H; subst. exists 0%Q. split; [reflexivity|].
    unfold truncates, Qle, Qlt, inject_Z. cbn. lia.
  - intros H. inversion H; subst. clear H. eexists. split; [reflexivity|].
    destruct e as [|k|k].
    + destruct (truncates_pos (Zpos m * 2 ^ 0) 1 (Z.shiftl (Zpos m) 0))
        as [Hp Hn]; [lia|rewrite Z.shiftl_0_r; lia|].
      destruct s; assumption.
    + destruct (truncates_pos (Zpos m * 2 ^ Zpos k) 1
                  (Z.shiftl (Zpos m) (Zpos k))) as [Hp Hn];
        [lia|rewrite Z.shiftl_mul_pow2 by lia; lia|].
      destruct s; assumption.
    + destruct (truncates_pos (Zpos m) (2 ^ k)
                  (Z.shiftl (Zpos m) (Zneg k))) as [Hp Hn]; [lia| |].
      * change (Z.shiftl (Zpos m) (Zneg k))
          with (Z.shiftr (Zpos m) (Zpos k)).
        rewrite Z.shiftr_div_pow2 by lia. rewrite Pos2Z.inj_pow.
        pose proof (Z.pow_pos_nonneg 2 (Zpos k) ltac:(lia) ltac:(lia)).
        pose proof (Z.div_mod (Zpos m) (2 ^ Zpos k) ltac:(lia)).
        pose proof (Z.mod_pos_bound (Zpos m) (2 ^ Zpos k) ltac:(lia)).
        nia.
      * destruct s; assumption.
Qed.

Lemma py_int_None (x : float) : py_int x = None <-> float_value x = None.
Proof.
  unfold py_int, float_value.
  destruct (Prim2SF x); split; intros H; try discriminate; reflexivity.
Qed.

(** A finite float times zero, added to zero, is zero. *)
Lemma zero_plus_finite_times_zero (x : float) :
  SFfinite (Prim2SF x) -> Prim2SF (0 + x * 0)%float = S754_zero false.
Proof.
  intros Hx. rewrite add_spec, mul_spec.
  change (Prim2SF 0) with (S754_zero false).
  destruct (Prim2SF x) as [s|s| |s m e]; cbn in Hx; try contradiction;
    destruct s; reflexivity.
Qed.

(** ** The annealing loop *)

Section LoopFacts.
Variable rs : nat -> N.
Variable np_exp : float -> float.
Variable fuel : nat.
Variable score : matrix -> wmatrix -> option Z.
Variable n : Z.
Variable weights : wmatrix.

Lemma draw_chance_Ok det t k chance t' k' :
  draw_chance rs det t k = Ok (chance, t') k' ->
  if det then chance = 1%float /\ t' = t /\ k' = k
  else t' = (t * 0x1.fae147ae147aep-1)%float /\ k' = S k.
Proof.
  unfold draw_chance. destruct det.
  - intros H. apply ret_Ok in H as [H ->]. inversion H. auto.
  - intros H. apply bind_Ok in H as (c & k1 & Hc & H).
    apply ret_Ok in H as [H ->]. inversion H; subst.
    unfold random in Hc. inversion Hc. auto.
Qed.

(** One iteration, taken apart. *)
Lemma sa_iter_Ok det s k s' k' :
  sa_iter rs np_exp fuel score n weights det s k = Ok s' k' ->
  exists perm mk tmp_cm k1 tmp_score chance t,
    generate_permutation rs fuel n (current_perm s) (current_cm s) k
    = Ok (perm, mk, tmp_cm) k1
    /\ score tmp_cm weights = Some tmp_score
    /\ draw_chance rs det (temp s) k1 = Ok (chance, t) k'
    /\ (is_infinity (float_of_Z (- (tmp_score - current_score s))) = false
        /\ (t =? 0)%float = false)
    /\ s' = if (chance
                <=? py_min 1
                      (np_exp
                         (float_of_Z (- (tmp_score - current_score s))
                          / t)))%float
            then accepted s tmp_cm perm tmp_score t
            else rejected s t.
Proof.
  unfold sa_iter. intros H.
  apply bind_Ok in H as ([[perm mk] tmp_cm] & k1 & Hg & H).
  apply bind_Ok in H as (tmp_score & k2 & Hs & H).
  apply lift_option_Ok in Hs as [Hs <-].
  apply bind_Ok in H as ([chance t] & k3 & Hc & H).
  apply bind_Ok in H as (thresh & k4 & Ht & H).
  unfold hot_prob_thresh in Ht.
  apply bind_Ok in Ht as (d & k5 & Hd & Ht).
  apply lift_option_Ok in Hd as [Hd <-]. unfold py_float in Hd.
  destruct (is_infinity _) eqn:Ei; [discriminate|].
  inversion Hd; subst d. clear Hd.
  destruct (t =? 0)%float eqn:Et; [discriminate|].
  apply ret_Ok in Ht as [<- ->].
  exists perm, mk, tmp_cm, k1, tmp_score, chance, t.
  split; [exact Hg|]. split; [exact Hs|].
  destruct (chance <=? _)%float eqn:Ea;
    apply ret_Ok in H as [<- <-]; auto.
Qed.

(** The loop, unrolled at its last iteration. *)
Lemma sa_loop_snoc det m s k :
  sa_loop rs np_exp fuel score n weights det (S m) s k
  = bind (sa_loop rs np_exp fuel score n weights det m s)
         (sa_iter rs np_exp fuel score n weights det) k.
Proof.
  revert s k. induction m as [|m IH]; intros s k.
  - cbn [sa_loop]. rewrite bind_ret_r. reflexivity.
  - change (sa_loop rs np_exp fuel score n weights det (S (S m)) s k)
      with (bind (sa_iter rs np_exp fuel score n weights det s)
              (sa_loop rs np_exp fuel score n weights det (S m)) k).
    change (sa_loop rs np_exp fuel score n weights det (S m) s)
      with (bind (sa_iter rs np_exp fuel score n weights det s)
              (sa_loop rs np_exp fuel score n weights det m)).
    rewrite bind_assoc. apply bind_ext. intros s1 k1. apply IH.
Qed.

Lemma sa_loop_S_Ok det m s k s2 k2 :
  sa_loop rs np_exp fuel score n weights det (S m) s k = Ok s2 k2 ->
  exists s1 k1,
    sa_loop rs np_exp fuel score n weights det m s k = Ok s1 k1
    /\ sa_iter rs np_exp fuel score n weights det s1 k1 = Ok s2 k2.
Proof. rewrite sa_loop_snoc. apply bind_Ok. Qed.

(** An invariant of the iteration holds after every number of steps. *)
Lemma sa_loop_invariant (P : sa_state -> Prop) det :
  (forall s k s' k',
     P s -> sa_iter rs np_exp fuel score n weights det s k = Ok s' k' ->
     P s') ->
  forall m s k s' k',
    P s ->
    sa_loop rs np_exp fuel score n weights det m s k = Ok s' k' -> P s'.
Proof.
  intros Hstep m. induction m as [|m IH]; intros s k s' k' HP H.
  - apply ret_Ok in H as [<- _]. exact HP.
  - simpl in H. apply bind_Ok in H as (s1 & k1 & H1 & H). eauto.
Qed.

(** The best score after an iteration. *)
Lemma sa_iter_best det s k s' k' :
  sa_iter rs np_exp fuel score n weights det s k = Ok s' k' ->
  (best_score s' = best_score s /\ best_cm s' = best_cm s
   /\ best_perm s' = best_perm s)
  \/ ((best_score s' < best_score s)%Z
      /\ best_score s' = current_score s'
      /\ best_cm s' = current_cm s' /\ best_perm s' = current_perm s').
Proof.
  intros H. apply sa_iter_Ok in H
    as (perm & mk & tmp_cm & k1 & ts & chance & t & _ & _ & _ & _ & ->).
  destruct (chance <=? _)%float.
  - unfold accepted; simpl.
    destruct (best_score s >? ts)%Z eqn:E; [right|left]; auto.
    repeat split; auto. lia.
  - left. simpl. auto.
Qed.

Lemma sa_iter_best_le_current det s k s' k' :
  sa_iter rs np_exp fuel score n weights det s k = Ok s' k' ->
  (best_score s <= current_score s)%Z ->
  (best_score s' <= current_score s')%Z.
Proof.
  intros H Hle. apply sa_iter_Ok in H
    as (perm & mk & tmp_cm & k1 & ts & chance & t & _ & _ & _ & _ & ->).
  destruct (chance <=? _)%float.
  - unfold accepted; simpl. destruct (best_score s >? ts)%Z eqn:E; lia.
  - simpl. exact Hle.
Qed.

Lemma sa_iter_temp det s k s' k' :
  sa_iter rs np_exp fuel score n weights det s k = Ok s' k' ->
  temp s' = if det then temp s
            else (temp s * 0x1.fae147ae147aep-1)%float.
Proof.
  intros H. apply sa_iter_Ok in H
    as (perm & mk & tmp_cm & k1 & ts & chance & t & _ & _ & Hc & _ & ->).
  apply draw_chance_Ok in Hc.
  assert (Ht : t = if det then temp s
                   else (temp s * 0x1.fae147ae147aep-1)%float).
  { destruct det; [destruct Hc as (_ & -> & _)|destruct Hc as (-> & _)];
      reflexivity. }
  destruct (chance <=? _)%float; simpl; exact Ht.
Qed.
End LoopFacts.

Lemma sa_init_Ok score cm perm t k s0 k0 :
  sa_init score cm perm t k = Ok s0 k0 ->
  let perm0 := default (py_range 0 (Z.of_nat (length cm))) perm in
  exists cm' sc,
    apply_permutation cm perm0 = Some cm'
    /\ score cm' (calculate_weight_matrix (Z.of_nat (length cm))) = Some sc
    /\ k0 = k
    /\ s0 = {| current_cm := cm'; current_perm := perm0;
               current_score := sc;
               best_cm := cm'; best_perm := perm0; best_score := sc;
               temp := t |}.
Proof.
  unfold sa_init. intros H.
  apply bind_Ok in H as (p0 & k0' & Hp & H).
  assert (p0 = default (py_range 0 (Z.of_nat (length cm))) perm /\ k0' = k)
    as [-> ->].
  { unfold default_perm in Hp. destruct perm as [p|]; cbn.
    - apply ret_Ok in Hp as [<- <-]. auto.
    - destruct (Z.of_nat (length cm) =? 0)%Z; [discriminate|].
      apply ret_Ok in Hp as [<- <-]. auto. }
  apply bind_Ok in H as (cm' & k1 & Hc & H).
  apply lift_option_Ok in Hc as [Hc ->].
  apply bind_Ok in H as (sc & k2 & Hs & H).
  apply lift_option_Ok in Hs as [Hs ->].
  apply ret_Ok in H as [<- <-].
  exists cm', sc. auto.
Qed.

(** What [simulated_annealing] returns comes from the state after
    [steps] iterations. *)
Lemma simulated_annealing_Ok rs np_exp fuel cm perm score steps t cf det
    k res k' :
  simulated_annealing rs np_exp fuel cm perm score steps t cf det k
  = Ok res k' ->
  (t <=? 0)%float = false
  /\ ((cf <=? 0)%float || (1 <=? cf)%float) = false
  /\ exists s0 s,
       sa_init score cm perm t k = Ok s0 k
       /\ sa_loop rs np_exp fuel score (Z.of_nat (length cm))
            (calculate_weight_matrix (Z.of_nat (length cm))) det
            (Z.to_nat steps) s0 k = Ok s k'
       /\ res = (best_cm s, best_perm s).
Proof.
  unfold simulated_annealing. intros H.
  destruct (t <=? 0)%float; [discriminate|].
  destruct ((cf <=? 0)%float || (1 <=? cf)%float); [discriminate|].
  split; [reflexivity|]. split; [reflexivity|].
  apply bind_Ok in H as (s0 & k1 & H0 & H).
  apply bind_Ok in H as (s & k2 & Hl & H).
  apply ret_Ok in H as [<- <-].
  pose proof (sa_init_Ok _ _ _ _ _ _ _ H0) as (? & ? & _ & _ & -> & _).
  exists s0, s. auto.
Qed.

(** The stand-in is below 1 only at negative arguments. *)
Lemma exp_bound_below_1 (x : float) :
  (exp_bound x <? 1)%float = true -> (x <? 0)%float = true.
Proof.
  unfold exp_bound. destruct (x <? 0)%float; [reflexivity|].
  cbv zeta. destruct (1 <=? 1 + x)%float eqn:E; intros H.
  - apply leb_ltb_false in E. congruence.
  - vm_compute in H. discriminate H.
Qed.

(** [min(1, e)] is 1 unless [e < 1]. *)
Lemma one_le_py_min (e : float) :
  (1 <=? py_min 1 e)%float = negb (e <? 1)%float.
Proof.
  unfold py_min. destruct (e <? 1)%float eqn:E; simpl.
  - apply ltb_leb_false, E.
  - reflexivity.
Qed.

(** The threshold, and one deterministic iteration, computed. *)
Lemma hot_prob_thresh_Ok (np_exp : float -> float) (tmp_score cur_score : Z)
    (t d : float) (k : nat) :
  (t <=? 0)%float = false ->
  py_float (- (tmp_score - cur_score)) = Some d ->
  hot_prob_thresh np_exp tmp_score cur_score t k
  = Ok (py_min 1 (np_exp (d / t)%float)) k.
Proof.
  intros Ht Hd. unfold hot_prob_thresh. rewrite Hd. simpl lift_option.
  unfold bind at 1. unfold ret at 1.
  rewrite (leb_false_eqb_false _ _ Ht). reflexivity.
Qed.

Lemma sa_iter_deterministic (rs : nat -> N) (np_exp : float -> float)
    (fuel : nat) (score : matrix -> wmatrix -> option Z) (n : Z)
    (weights : wmatrix) (s : sa_state) (k : nat)
    (perm : vector) (mk : bool) (tmp_cm : matrix) (k' : nat)
    (tmp_score : Z) (d : float) :
  (temp s <=? 0)%float = false ->
  generate_permutation rs fuel n (current_perm s) (current_cm s) k
  = Ok (perm, mk, tmp_cm) k' ->
  score tmp_cm weights = Some tmp_score ->
  py_float (- (tmp_score - current_score s)) = Some d ->
  sa_iter rs np_exp fuel score n weights true s k
  = Ok (if (np_exp (d / temp s) <? 1)%float then s
        else {| current_cm := tmp_cm; current_perm := perm;
                current_score := tmp_score;
                best_cm := if (best_score s >? tmp_score)%Z
                           then tmp_cm else best_cm s;
                best_perm := if (best_score s >? tmp_score)%Z
                             then perm else best_perm s;
                best_score := if (best_score s >? tmp_score)%Z
                              then tmp_score else best_score s;
                temp := temp s |}) k'.
Proof.
  intros Ht Hg Hs Hd.
  unfold sa_iter. rewrite (bind_of_Ok _ _ _ _ _ Hg). rewrite Hs.
  simpl lift_option. unfold bind at 1. unfold ret at 1.
  unfold bind at 1. unfold draw_chance, ret at 1.
  rewrite (bind_of_Ok _ _ _ _ _ (hot_prob_thresh_Ok np_exp _ _ _ _ k' Ht Hd)).
  rewrite one_le_py_min. unfold ret.
  destruct (np_exp (d / temp s) <? 1)%float; simpl.
  - destruct s; reflexivity.
  - unfold accepted.
    destruct (best_score s >? tmp_score)%Z; reflexivity.
Qed.

(** C3 (amended).  With [deterministic = True] the draw is 1.0 and the
    threshold is [min(1, e)] for
    [e = np.exp(-(tmp_score - current_score) / temp)]: the candidate
    becomes the current state (and the best one when it beats the best
    score) exactly when [e] is not below 1; otherwise the state stays as it
    is.  A candidate with [tmp_score <= current_score] is never refused by
    an exponential that is below 1 only at negative arguments.  A worse
    candidate is refused only when [e] rounds below 1. *)
Theorem deterministic_accepts_at_threshold_one (rs : nat -> N)
    (np_exp : float -> float) (fuel : nat)
    (score : matrix -> wmatrix -> option Z) (n : Z) (weights : wmatrix)
    (s : sa_state) (k : nat)
    (perm : vector) (mk : bool) (tmp_cm : matrix) (k' : nat)
    (tmp_score : Z) (d : float) :
  (temp s <=? 0)%float = false ->
  generate_permutation rs fuel n (current_perm s) (current_cm s) k
  = Ok (perm, mk, tmp_cm) k' ->
  score tmp_cm weights = Some tmp_score ->
  py_float (- (tmp_score - current_score s)) = Some d ->
  let e := np_exp (d / temp s)%float in
  draw_chance rs true (temp s) k' = Ok (1%float, temp s) k'
  /\ hot_prob_thresh np_exp tmp_score (current_score s) (temp s) k'
     = Ok (py_min 1 e) k'
  /\ (1 <=? py_min 1 e)%float = negb (e <? 1)%float
  /\ sa_iter rs np_exp fuel score n weights true s k
     = Ok (if (e <? 1)%float then s
           else {| current_cm := tmp_cm; current_perm := perm;
                   current_score := tmp_score;
                   best_cm := if (best_score s >? tmp_score)%Z
                              then tmp_cm else best_cm s;
                   best_perm := if (best_score s >? tmp_score)%Z
                                then perm else best_perm s;
                   best_score := if (best_score s >? tmp_score)%Z
                                 then tmp_score else best_score s;
                   temp := temp s |}) k'
  /\ ((tmp_score <= current_score s)%Z ->
      (forall x, (np_exp x <? 1)%float = true -> (x <? 0)%float = true) ->
      (e <? 1)%float = false).
Proof.
  intros Ht Hg Hs Hd e.
  split; [reflexivity|].
  split; [apply hot_prob_thresh_Ok; assumption|].
  split; [apply one_le_py_min|]. split.
  - apply (sa_iter_deterministic _ _ _ _ _ _ _ _ _ mk); assumption.
  - intros Hle Hexp.
    destruct (e <? 1)%float eqn:E; [|reflexivity].
    apply Hexp in E.
    unfold py_float in Hd.
    destruct (is_infinity _); [discriminate|]. inversion Hd; subst d.
    rewrite quotient_not_below_zero in E by (assumption || lia).
    discriminate E.
Qed.

Lemma deterministic_accepts_at_threshold_one_witness :
  (temp s0_cm3 <=? 0)%float = false
  /\ sa_iter rs_lcg exp_bound 10 calculate_score 3
       (calculate_weight_matrix 3) true s0_cm3 4
     = Ok {| current_cm := [[0; 2; 1]; [6; 8; 7]; [3; 5; 4]]%Z;
             current_perm := [0; 2; 1]%Z;
             current_score := 28;
             best_cm := [[0; 2; 1]; [6; 8; 7]; [3; 5; 4]]%Z;
             best_perm := [0; 2; 1]%Z;
             best_score := 28;
             temp := 100%float |} 7
  /\ (exp_bound (4 / 100) <? 1)%float = false.
Proof.
  split; [reflexivity|].
  destruct (deterministic_accepts_at_threshold_one rs_lcg exp_bound 10
              calculate_score 3 (calculate_weight_matrix 3) s0_cm3 4
              [0; 2; 1]%Z true [[0; 2; 1]; [6; 8; 7]; [3; 5; 4]]%Z 7 28%Z
              4%float eq_refl eq_refl eq_refl eq_refl)
    as (_ & _ & _ & Hstep & Hle).
  split; [exact Hstep|].
  apply Hle; [cbn; lia|exact exp_bound_below_1].
Defined.

(** At 100 degrees a worse candidate is turned down: 36 against the
    current 32. *)
Example deterministic_rejects_worse :
  sa_iter rs_lcg exp_bound 10 calculate_score 3
    (calculate_weight_matrix 3) true s0_cm3 1
  = Ok s0_cm3 6.
Proof. vm_compute. reflexivity. Qed.

(** The quotient [-4 / 1e17] as a float: a negative number [q] above
    [-2^-54].  Everything from [1 + q] up to 1, the exponential of [q]
    included, is nearer to 1.0 than to the float below 1.0, which is
    [1 - 2^-53]. *)
Example tiny_quotient :
  float_value (float_of_Z (- 4) / 1e17)%float
  = Some (- (6490371073168535 # 162259276829213363391578010288128))%Q
  /\ (- (1 # 18014398509481984)
      < - (6490371073168535 # 162259276829213363391578010288128))%Q
  /\ (1 + float_of_Z (- 4) / 1e17 = 1)%float.
Proof. split; [|split]; vm_compute; reflexivity. Qed.

(** The same candidate at [temp = 1e17], for any exponential that gives
    1.0 at [-4 / 1e17]. *)
Lemma worse_candidate_taken (np_exp : float -> float) :
  np_exp (float_of_Z (- 4) / 1e17)%float = 1%float ->
  sa_iter rs_lcg np_exp 10 calculate_score 3 (calculate_weight_matrix 3)
    true
    {| current_cm := cm3; current_perm := [0; 1; 2]%Z; current_score := 32;
       best_cm := cm3; best_perm := [0; 1; 2]%Z; best_score := 32;
       temp := 1e17%float |} 1
  = Ok {| current_cm := [[8; 6; 7]; [2; 0; 1]; [5; 3; 4]]%Z;
          current_perm := [2; 0; 1]%Z; current_score := 36;
          best_cm := cm3; best_perm := [0; 1; 2]%Z; best_score := 32;
          temp := 1e17%float |} 6.
Proof.
  intros H.
  rewrite (sa_iter_deterministic rs_lcg np_exp 10 calculate_score 3
             (calculate_weight_matrix 3) _ 1 [2; 0; 1]%Z false
             [[8; 6; 7]; [2; 0; 1]; [5; 3; 4]]%Z 6 36 (float_of_Z (- 4)));
    [|reflexivity|vm_compute; reflexivity|vm_compute; reflexivity
     |vm_compute; reflexivity].
  cbn [temp]. rewrite H. reflexivity.
Qed.

(** At [temp = 1e17] the same candidate is taken: [-4 / 1e17] is
    [-4.0000000000000003e-17], where the exponential rounds to 1.0 (and so
    does the stand-in), the threshold is 1 and the draw 1.0 passes.  The
    current score goes up from 32 to 36 with [deterministic = True]. *)
Lemma deterministic_accepts_worse :
  exp_bound (float_of_Z (- 4) / 1e17)%float = 1%float
  /\ generate_permutation rs_lcg 10 3 [0; 1; 2]%Z cm3 1
     = Ok ([2; 0; 1]%Z, false, [[8; 6; 7]; [2; 0; 1]; [5; 3; 4]]%Z) 6
  /\ calculate_score [[8; 6; 7]; [2; 0; 1]; [5; 3; 4]]%Z
       (calculate_weight_matrix 3) = Some 36%Z
  /\ sa_iter rs_lcg exp_bound 10 calculate_score 3
       (calculate_weight_matrix 3) true
       {| current_cm := cm3; current_perm := [0; 1; 2]%Z;
          current_score := 32;
          best_cm := cm3; best_perm := [0; 1; 2]%Z; best_score := 32;
          temp := 1e17%float |} 1
     = Ok {| current_cm := [[8; 6; 7]; [2; 0; 1]; [5; 3; 4]]%Z;
             current_perm := [2; 0; 1]%Z; current_score := 36;
             best_cm := cm3; best_perm := [0; 1; 2]%Z; best_score := 32;
             temp := 1e17%float |} 6
  /\ ~ (36 <= 32)%Z.
Proof.
  split; [vm_compute; reflexivity|]. split; [vm_compute; reflexivity|].
  split; [vm_compute; reflexivity|].
  split; [apply worse_candidate_taken; vm_compute; reflexivity|lia].
Qed.

(** C4.  With [deterministic = True] the best score never goes up: the
    best score after [j] iterations is at most the one after [i <= j]
    iterations, whatever the random stream and the number of steps. *)
Theorem best_score_never_increases (rs : nat -> N) (np_exp : float -> float)
    (fuel : nat) (score : matrix -> wmatrix -> option Z) (n : Z)
    (weights : wmatrix) (s0 : sa_state) (k : nat)
    (i j : nat) (si sj : sa_state) (ki kj : nat) :
  i <= j ->
  sa_loop rs np_exp fuel score n weights true i s0 k = Ok si ki ->
  sa_loop rs np_exp fuel score n weights true j s0 k = Ok sj kj ->
  (best_score sj <= best_score si)%Z.
Proof.
  intros Hij Hi. revert sj kj.
  induction Hij as [|j Hij IH]; intros sj kj Hj.
  - rewrite Hi in Hj. inversion Hj. lia.
  - apply sa_loop_S_Ok in Hj as (s1 & k1 & Hj & Hstep).
    specialize (IH _ _ Hj).
    apply sa_iter_best in Hstep as [(-> & _)|(Hlt & _)]; lia.
Qed.

Lemma best_score_never_increases_witness :
  0 <= 1
  /\ sa_loop rs_lcg exp_bound 10 calculate_score 3
       (calculate_weight_matrix 3) true 0 s0_cm3 4 = Ok s0_cm3 4
  /\ sa_loop rs_lcg exp_bound 10 calculate_score 3
       (calculate_weight_matrix 3) true 1 s0_cm3 4
     = Ok (accepted s0_cm3 [[0; 2; 1]; [6; 8; 7]; [3; 5; 4]]%Z [0; 2; 1]%Z
             28 100%float) 7
  /\ (28 <= 32)%Z.
Proof.
  split; [lia|]. split; [reflexivity|]. split; [vm_compute; reflexivity|].
  exact (best_score_never_increases rs_lcg exp_bound 10 calculate_score 3
           (calculate_weight_matrix 3) s0_cm3 4 0 1 s0_cm3
           (accepted s0_cm3 [[0; 2; 1]; [6; 8; 7]; [3; 5; 4]]%Z [0; 2; 1]%Z
              28 100%float)
           4 7 ltac:(lia) eq_refl eq_refl).
Defined.

(** C5.  [best_score <= current_score] throughout: best and current are
    the same state on entry to the loop; an iteration, deterministic or
    not, keeps the inequality and replaces the best state only by a
    strictly better one; hence it holds after any number of iterations. *)
Theorem best_le_current_invariant (rs : nat -> N) (np_exp : float -> float)
    (fuel : nat) (score : matrix -> wmatrix -> option Z)
    (deterministic : bool) :
  (forall cm perm t k s0 k0,
     sa_init score cm perm t k = Ok s0 k0 ->
     best_score s0 = current_score s0
     /\ best_cm s0 = current_cm s0 /\ best_perm s0 = current_perm s0)
  /\ (forall n weights s k s' k',
        (best_score s <= current_score s)%Z ->
        sa_iter rs np_exp fuel score n weights deterministic s k
        = Ok s' k' ->
        (best_score s' <= current_score s')%Z
        /\ ((best_score s' = best_score s /\ best_cm s' = best_cm s
             /\ best_perm s' = best_perm s)
            \/ ((best_score s' < best_score s)%Z
                /\ best_score s' = current_score s'
                /\ best_cm s' = current_cm s'
                /\ best_perm s' = current_perm s')))
  /\ (forall cm perm t k s0 k0 n weights m s k',
        sa_init score cm perm t k = Ok s0 k0 ->
        sa_loop rs np_exp fuel score n weights deterministic m s0 k0
        = Ok s k' ->
        (best_score s <= current_score s)%Z).
Proof.
  split; [|split].
  - intros cm perm t k s0 k0 H.
    apply sa_init_Ok in H as (cm' & sc & _ & _ & _ & ->). simpl. auto.
  - intros n weights s k s' k' Hle H. split.
    + eapply sa_iter_best_le_current; eauto.
    + eapply sa_iter_best; eauto.
  - intros cm perm t k s0 k0 n weights m s k' H0 Hl.
    eapply (sa_loop_invariant rs np_exp fuel score n weights
              (λ s, (best_score s <= current_score s)%Z));
      [| |exact Hl].
    + intros s1 k1 s2 k2 Hle H. eapply sa_iter_best_le_current; eauto.
    + apply sa_init_Ok in H0 as (cm' & sc & _ & _ & _ & ->). simpl. lia.
Qed.

Lemma best_le_current_invariant_witness :
  (best_score (accepted s0_cm3 [[0; 2; 1]; [6; 8; 7]; [3; 5; 4]]%Z
                 [0; 2; 1]%Z 28 100%float)
   <= current_score (accepted s0_cm3 [[0; 2; 1]; [6; 8; 7]; [3; 5; 4]]%Z
                       [0; 2; 1]%Z 28 100%float))%Z.
Proof.
  refine (proj2 (proj2
    (best_le_current_invariant rs_lcg exp_bound 10 calculate_score true))
    cm3 None 100%float 4 s0_cm3 4 3%Z (calculate_weight_matrix 3) 1 _ 7 _ _).
  - vm_compute. reflexivity.
  - vm_compute. reflexivity.
Defined.



(** The float the literal [0.99] denotes: the binary64 nearest to 99/100,
    which lies a little below it. *)
Example literal_0_99 :
  (0x1.fae147ae147aep-1 =? 99 / 100)%float = true
  /\ float_value 0x1.fae147ae147aep-1
     = Some (8917127262193582 # 9007199254740992)%Q
  /\ ((8917127262193582 # 9007199254740992) < 99 # 100)%Q.
Proof. split; [reflexivity|]. split; reflexivity. Qed.

(** Two non-deterministic iterations from 100 degrees: each product is
    rounded, and the result is not [100 * 0.9801]. *)
Example temperature_after_two_steps :
  match sa_loop rs_lcg exp_bound 10 calculate_score 3
          (calculate_weight_matrix 3) false 2 s0_cm3 0 with
  | Ok s _ =>
      temp s = (100 * 0x1.fae147ae147aep-1 * 0x1.fae147ae147aep-1)%float
      /\ float_value (temp s)
         = Some (6896840616852849 # 70368744177664)%Q
      /\ (temp s =? 100 * 0x1.f5cfaacd9e83ep-1)%float = false
  | _ => False
  end.
Proof. vm_compute. split; [|split]; reflexivity. Qed.

(** The decay stops above zero: the product of [49 * 2^-1074] (about
    2.42e-322) with 0.99 rounds back to itself.  From 100 degrees that
    value is reached within 74,500 iterations and kept from then on. *)
Example temperature_stops_cooling :
  (0x31p-1074 * 0x1.fae147ae147aep-1 = 0x31p-1074)%float
  /\ N.iter 74500 (λ t, t * 0x1.fae147ae147aep-1)%float 100%float
     = 0x31p-1074%float
  /\ N.iter 200000 (λ t, t * 0x1.fae147ae147aep-1)%float 100%float
     = 0x31p-1074%float.
Proof. split; [|split]; vm_compute; reflexivity. Qed.

(** ** Score *)

Lemma zip_fmap_seq {A B C} `{!Inhabited A, !Inhabited B}
    (f : A * B -> C) (l1 : list A) (l2 : list B) (n : nat) :
  length l1 = n -> length l2 = n ->
  f <$> zip l1 l2 = (λ i, f (l1 !!! i, l2 !!! i)) <$> seq 0 n.
Proof.
  revert l2 n. induction l1 as [|a l1 IH]; intros [|b l2] [|n] H1 H2;
    simpl in *; try discriminate; [reflexivity|].
  f_equal. rewrite <- fmap_S_seq, <- list_fmap_compose.
  apply IH; congruence.
Qed.

Lemma square_lookup {A} `{!Inhabited A} n (cm : list (list A)) i :
  square n cm -> i < n -> length (cm !!! i) = n.
Proof.
  intros [Hl Hr] Hi.
  rewrite Forall_lookup in Hr. apply (Hr i).
  apply list_lookup_lookup_total_lt. lia.
Qed.

Lemma foldl_ext_in {A B} (f g : B -> A -> B) (l : list A) (b : B) :
  (forall a x, x ∈ l -> f a x = g a x) -> foldl f b l = foldl g b l.
Proof.
  revert b. induction l as [|x l IH]; intros b H; [reflexivity|].
  simpl. rewrite (H b x) by left. apply IH.
  intros a y Hy. apply H. right. exact Hy.
Qed.

Lemma foldl_over_fmap {A B C} (f : C -> B -> C) (g : A -> B) (l : list A)
    (c : C) :
  foldl f c (g <$> l) = foldl (λ a x, f a (g x)) c l.
Proof. revert c. induction l as [|x l IH]; intros c; simpl; auto. Qed.

Lemma foldl_zip_seq {A B C} `{!Inhabited A, !Inhabited B}
    (f : C -> A * B -> C) (l1 : list A) (l2 : list B) (n : nat) (c : C) :
  length l1 = n -> length l2 = n ->
  foldl f c (zip l1 l2)
  = foldl (λ a i, f a (l1 !!! i, l2 !!! i)) c (seq 0 n).
Proof.
  intros H1 H2. rewrite <- (list_fmap_id (zip l1 l2)).
  rewrite (zip_fmap_seq id l1 l2 n H1 H2). apply foldl_over_fmap.
Qed.

(** On [n] by [n] arrays the flattened sum is the sum by indices. *)
Lemma tensordot_square n (cm : matrix) (weights : wmatrix) :
  square n cm -> square n weights ->
  tensordot cm weights = Some (product_sum n cm weights).
Proof.
  intros Hc Hw. unfold tensordot.
  rewrite bool_decide_eq_true_2.
  - f_equal. unfold product_sum.
    rewrite (foldl_zip_seq _ cm weights n) by (apply Hc || apply Hw).
    apply foldl_ext_in. intros acc i Hi. apply elem_of_seq in Hi.
    cbn [fst snd].
    rewrite (foldl_zip_seq _ (cm !!! i) (weights !!! i) n)
      by (apply square_lookup; (assumption || lia)).
    reflexivity.
  - destruct Hc as [Hc1 Hc2], Hw as [Hw1 Hw2]. split; [congruence|].
    apply Forall2_same_length_lookup_2; [congruence|].
    intros i r w Hr Hw.
    rewrite Forall_lookup in Hc2. rewrite Forall_lookup in Hw2.
    rewrite (Hc2 _ _ Hr), (Hw2 _ _ Hw). reflexivity.
Qed.

Lemma weight_entry (n i j : Z) :
  (0 <= i < n)%Z -> (0 <= j < n)%Z ->
  calculate_weight_matrix n !! Z.to_nat i ≫= (λ r, r !! Z.to_nat j)
  = Some (if (i =? j)%Z then 0%float
          else (np_float64 (Z.abs (i - j))
                + float_of_Z (i + j) * 0x1.47ae147ae147bp-7)%float).
Proof.
  intros Hi Hj. unfold calculate_weight_matrix, py_range.
  rewrite list_lookup_fmap, lookup_seqZ_lt by lia. simpl.
  rewrite list_lookup_fmap, lookup_seqZ_lt by lia. simpl.
  rewrite !Z.add_0_l, !Z2Nat.id by lia.
  destruct (i =? j)%Z eqn:E.
  - apply Z.eqb_eq in E. subst. rewrite Z.sub_diag. reflexivity.
  - replace (Z.abs (j - i)) with (Z.abs (i - j)) by lia. reflexivity.
Qed.



(** The weights and the sum behind the value 32: the sum is the float
    [32.560000000000002], a little above 32.56. *)
Example score_cm3_sum :
  calculate_weight_matrix 3
  = [[0; 0x1.028f5c28f5c29p+0; 0x1.028f5c28f5c29p+1];
     [0x1.028f5c28f5c29p+0; 0; 0x1.07ae147ae147bp+0];
     [0x1.028f5c28f5c29p+1; 0x1.07ae147ae147bp+0; 0]]%float
  /\ tensordot cm3 (calculate_weight_matrix 3)
     = Some 0x1.047ae147ae148p+5%float.
Proof. split; vm_compute; reflexivity. Qed.

(** Rounding shows in the score: with 300 in the corner of a 4 by 4
    matrix the weight [3 + 3 * 0.01] is the float [3.0299999999999998],
    the product is [908.99999999999989], and the score is 908, not 909. *)
Example score_rounds_down :
  calculate_weight_matrix 4 !! 0%nat ≫= (λ r, r !! 3%nat)
  = Some 0x1.83d70a3d70a3dp+1%float
  /\ tensordot [[0; 0; 0; 300]; [0; 0; 0; 0]; [0; 0; 0; 0]; [0; 0; 0; 0]]%Z
       (calculate_weight_matrix 4)
     = Some 0x1.c67ffffffffffp+9%float
  /\ calculate_score
       [[0; 0; 0; 300]; [0; 0; 0; 0]; [0; 0; 0; 0]; [0; 0; 0; 0]]%Z
       (calculate_weight_matrix 4)
     = Some 908%Z.
Proof. split; [|split]; vm_compute; reflexivity. Qed.

(** ** A single class *)

Lemma randint_0_0 rs k : randint rs 0 0 k = Ok 0%Z (S k).
Proof. unfold randint. simpl. rewrite Z.mod_1_r. reflexivity. Qed.

(** With [n = 1] the only index is 0, so [while j == i] never ends. *)
Lemma draw_other_one_class rs fuel k : draw_other rs fuel 1 0 k = OutOfFuel.
Proof.
  unfold draw_other. generalize 0%nat as it. revert k.
  induction fuel as [|fuel IH]; intros k it; simpl; [reflexivity|].
  rewrite (bind_of_Ok _ _ _ _ _ (randint_0_0 rs k)). apply IH.
Qed.

Lemma generate_permutation_one_class rs fuel perm cm k :
  generate_permutation rs fuel 1 perm cm k = OutOfFuel.
Proof.
  unfold generate_permutation.
  destruct (random_Ok rs k) as [r Hr]. rewrite (bind_of_Ok _ _ _ _ _ Hr).
  change (choose_make_swap 1 r) with true. cbv iota.
  change (1 - 1)%Z with 0%Z.
  rewrite (bind_of_Ok _ _ _ _ _ (randint_0_0 rs (S k))).
  apply bind_of_OutOfFuel, draw_other_one_class.
Qed.

Lemma sa_iter_one_class rs np_exp fuel score weights det s k :
  sa_iter rs np_exp fuel score 1 weights det s k = OutOfFuel.
Proof.
  unfold sa_iter. apply bind_of_OutOfFuel, generate_permutation_one_class.
Qed.

(** The score of a 1 by 1 matrix is 0: the only weight is 0. *)
Lemma calculate_score_one_class (v : Z) :
  calculate_score [[v]] (calculate_weight_matrix 1) = Some 0%Z.
Proof.
  change (calculate_weight_matrix 1) with [[0%float]].
  unfold calculate_score, tensordot.
  rewrite bool_decide_eq_true_2 by (split; [reflexivity|repeat constructor]).
  change (py_int (0 + np_float64 v * 0)%float = Some 0%Z). unfold py_int.
  rewrite (zero_plus_finite_times_zero _ (np_float64_finite v)).
  reflexivity.
Qed.

Lemma sa_init_one_class v t k :
  exists s0, sa_init calculate_score [[v]] None t k = Ok s0 k.
Proof.
  unfold sa_init. simpl length. change (Z.of_nat 1) with 1%Z.
  change (default_perm 1 None) with (ret (A:=list Z) (py_range 0 1)).
  unfold bind at 1. unfold ret at 1.
  change (apply_permutation [[v]] (py_range 0 1)) with (Some [[v]]).
  simpl lift_option. unfold bind at 1. unfold ret at 1.
  rewrite calculate_score_one_class.
  eexists. reflexivity.
Qed.

(** C2, at a 1 by 1 matrix.  Whatever the random stream and however much
    fuel the inner loops get, [simulated_annealing] with a temperature and
    a cooling factor that pass the checks on entry and a positive step
    budget does not return: the first iteration is stuck drawing
    [j != i] from the single index. *)
Theorem one_class_never_returns (rs : nat -> N) (np_exp : float -> float)
    (fuel : nat) (v steps : Z) (t cf : float) (deterministic : bool)
    (k : nat) :
  (t <=? 0)%float = false ->
  (cf <=? 0)%float = false -> (1 <=? cf)%float = false -> (0 < steps)%Z ->
  simulated_annealing rs np_exp fuel [[v]] None calculate_score steps t cf
    deterministic k
  = OutOfFuel.
Proof.
  intros Ht Hcf0 Hcf1 Hsteps. unfold simulated_annealing.
  rewrite Ht, Hcf0, Hcf1. cbn [orb].
  destruct (Z.to_nat steps) as [|m] eqn:Em; [lia|].
  destruct (sa_init_one_class v t k) as [s0 H0].
  change (Z.of_nat (length [[v]])) with 1%Z.
  rewrite (bind_of_Ok _ _ _ _ _ H0).
  apply bind_of_OutOfFuel. cbn [sa_loop].
  apply bind_of_OutOfFuel, sa_iter_one_class.
Qed.

Lemma one_class_never_returns_witness :
  (100 <=? 0)%float = false
  /\ (0x1.fae147ae147aep-1 <=? 0)%float = false
  /\ (1 <=? 0x1.fae147ae147aep-1)%float = false /\ (0 < 1)%Z
  /\ simulated_annealing rs_lcg exp_bound 1000 [[5]]%Z None calculate_score
       1 100%float 0x1.fae147ae147aep-1%float true 0
     = OutOfFuel.
Proof.
  repeat (split; [reflexivity|]).
  apply (one_class_never_returns rs_lcg exp_bound 1000 5 1 100%float
           0x1.fae147ae147aep-1%float true 0); reflexivity.
Defined.

(** ** Arrays: the index operations are natural in the elements *)

Lemma norm_index_lt len i k : norm_index len i = Some k -> k < len.
Proof.
  unfold norm_index. repeat case_bool_decide; intros Heq; inversion Heq; lia.
Qed.

Section ArrayFacts.
Context {A B : Type} (f : A -> B).

Lemma getitem_fmap (l : list A) i :
  getitem (f <$> l) i = f <$> getitem l i.
Proof.
  unfold getitem. rewrite length_fmap.
  destruct (norm_index (length l) i); simpl;
    [apply list_lookup_fmap|reflexivity].
Qed.

Lemma setitem_fmap (l : list A) i v :
  setitem (f <$> l) i (f v) = fmap (M:=list) f <$> setitem l i v.
Proof.
  unfold setitem. rewrite length_fmap.
  destruct (norm_index (length l) i); simpl;
    [rewrite list_fmap_insert|]; reflexivity.
Qed.

Lemma take_idx_fmap (l : list A) idx :
  take_idx (f <$> l) idx = fmap (M:=list) f <$> take_idx l idx.
Proof.
  unfold take_idx. induction idx as [|i idx IH]; [reflexivity|].
  cbn [mapM]. rewrite getitem_fmap.
  destruct (getitem l i) as [x|]; [|reflexivity]. cbn.
  rewrite IH. destruct (mapM (getitem l) idx); reflexivity.
Qed.

Lemma foldl_insert_fmap (ks : list nat) (vals : list A) (l : list A) :
  foldl (λ acc kv, <[kv.1:=kv.2]> acc) (f <$> l) (zip ks (f <$> vals))
  = f <$> foldl (λ acc kv, <[kv.1:=kv.2]> acc) l (zip ks vals).
Proof.
  revert vals l. induction ks as [|k ks IH]; intros [|v vals] l;
    try reflexivity.
  cbn. rewrite <- list_fmap_insert. apply IH.
Qed.

Lemma put_idx_fmap (l : list A) idx vals :
  put_idx (f <$> l) idx (f <$> vals) = fmap (M:=list) f <$> put_idx l idx vals.
Proof.
  unfold put_idx. rewrite length_fmap.
  destruct (mapM (norm_index (length l)) idx) as [ks|]; [|reflexivity].
  cbn. rewrite foldl_insert_fmap. reflexivity.
Qed.

Lemma reindex_fmap (l : list A) p_old p_new :
  reindex (f <$> l) p_old p_new = fmap (M:=list) f <$> reindex l p_old p_new.
Proof.
  unfold reindex. rewrite take_idx_fmap.
  destruct (take_idx l p_new) as [vals|]; [|reflexivity].
  cbn. apply put_idx_fmap.
Qed.

Lemma swap_items_fmap (l : list A) i j :
  swap_items (f <$> l) i j = fmap (M:=list) f <$> swap_items l i j.
Proof.
  unfold swap_items. rewrite !getitem_fmap.
  destruct (getitem l j) as [a|]; [|reflexivity]. cbn.
  destruct (getitem l i) as [b|]; [|reflexivity]. cbn.
  rewrite setitem_fmap.
  destruct (setitem l i a) as [l1|]; [|reflexivity]. cbn.
  apply setitem_fmap.
Qed.
End ArrayFacts.

Section ArrayForall.
Context {A : Type} (P : A -> Prop).

Lemma getitem_Forall (l : list A) i x :
  Forall P l -> getitem l i = Some x -> P x.
Proof.
  unfold getitem. intros Hl H.
  destruct (norm_index (length l) i) as [k|]; [|discriminate].
  cbn in H. eapply Forall_lookup_1; eauto.
Qed.

Lemma setitem_Forall (l : list A) i v l' :
  Forall P l -> P v -> setitem l i v = Some l' -> Forall P l'.
Proof.
  unfold setitem. intros Hl Hv H.
  destruct (norm_index (length l) i) as [k|]; [|discriminate].
  cbn in H. inversion H; subst. apply Forall_insert; assumption.
Qed.

Lemma take_idx_Forall (l : list A) idx vals :
  Forall P l -> take_idx l idx = Some vals -> Forall P vals.
Proof.
  unfold take_idx. intros Hl H. apply mapM_Some_1 in H.
  induction H as [|i x idx vals Hx _ IH]; constructor; [|exact IH].
  exact (getitem_Forall l i x Hl Hx).
Qed.

Lemma foldl_insert_Forall (ks : list nat) (vals l : list A) :
  Forall P l -> Forall P vals ->
  Forall P (foldl (λ acc kv, <[kv.1:=kv.2]> acc) l (zip ks vals)).
Proof.
  revert vals l. induction ks as [|k ks IH]; intros [|v vals] l Hl Hv;
    try exact Hl.
  cbn. inversion Hv; subst. apply IH; [|assumption].
  apply Forall_insert; assumption.
Qed.

Lemma put_idx_Forall (l : list A) idx vals l' :
  Forall P l -> Forall P vals -> put_idx l idx vals = Some l' ->
  Forall P l'.
Proof.
  unfold put_idx. intros Hl Hv H.
  destruct (mapM (norm_index (length l)) idx) as [ks|]; [|discriminate].
  cbn in H. inversion H; subst. apply foldl_insert_Forall; assumption.
Qed.

Lemma reindex_Forall (l : list A) p_old p_new l' :
  Forall P l -> reindex l p_old p_new = Some l' -> Forall P l'.
Proof.
  unfold reindex. intros Hl H.
  destruct (take_idx l p_new) as [vals|] eqn:E; [|discriminate].
  cbn in H.
  exact (put_idx_Forall l p_old vals l' Hl
           (take_idx_Forall l p_new vals Hl E) H).
Qed.

Lemma swap_items_Forall (l : list A) i j l' :
  Forall P l -> swap_items l i j = Some l' -> Forall P l'.
Proof.
  unfold swap_items. intros Hl H.
  destruct (getitem l j) as [a|] eqn:Ea; [|discriminate]. cbn in H.
  destruct (getitem l i) as [b|] eqn:Eb; [|discriminate]. cbn in H.
  destruct (setitem l i a) as [l1|] eqn:E1; [|discriminate]. cbn in H.
  refine (setitem_Forall l1 j b l' _ (getitem_Forall l i b Hl Eb) H).
  exact (setitem_Forall l i a l1 Hl (getitem_Forall l j a Hl Ea) E1).
Qed.
End ArrayForall.

Section ArrayLength.
Context {A : Type}.

Lemma setitem_length (l : list A) i v l' :
  setitem l i v = Some l' -> length l' = length l.
Proof.
  unfold setitem.
  destruct (norm_index (length l) i) as [k|]; [|discriminate].
  cbn. intros H. inversion H. apply length_insert.
Qed.

Lemma foldl_insert_length (kvs : list (nat * A)) (l : list A) :
  length (foldl (λ acc kv, <[kv.1:=kv.2]> acc) l kvs) = length l.
Proof.
  revert l. induction kvs as [|kv kvs IH]; intros l; [reflexivity|].
  cbn. rewrite IH. apply length_insert.
Qed.

Lemma reindex_length (l : list A) p_old p_new l' :
  reindex l p_old p_new = Some l' -> length l' = length l.
Proof.
  unfold reindex, put_idx.
  destruct (take_idx l p_new) as [vals|]; [|discriminate]. cbn.
  destruct (mapM (norm_index (length l)) p_old) as [ks|]; [|discriminate].
  cbn. intros H. inversion H. apply foldl_insert_length.
Qed.

Lemma swap_items_length (l : list A) i j l' :
  swap_items l i j = Some l' -> length l' = length l.
Proof.
  unfold swap_items. intros H.
  destruct (getitem l j) as [a|]; [|discriminate]. cbn in H.
  destruct (getitem l i) as [b|]; [|discriminate]. cbn in H.
  destruct (setitem l i a) as [l1|] eqn:E1; [|discriminate]. cbn in H.
  apply setitem_length in H. apply setitem_length in E1. congruence.
Qed.
End ArrayLength.

(** ** Selections *)

Section Sel.
Context {A : Type} `{!Inhabited A}.

Lemma sel_seq_id (l : list A) : sel (seq 0 (length l)) l = l.
Proof.
  unfold sel. apply list_eq. intros i. rewrite list_lookup_fmap.
  destruct (decide (i < length l)) as [Hi|Hi].
  - rewrite lookup_seq_lt by exact Hi. cbn.
    symmetry. apply list_lookup_lookup_total_lt. exact Hi.
  - rewrite lookup_seq_ge by lia.
    rewrite lookup_ge_None_2 by lia. reflexivity.
Qed.

Lemma length_sel sigma (l : list A) : length (sel sigma l) = length sigma.
Proof. apply length_fmap. Qed.

Lemma sel_lookup_total sigma (l : list A) k :
  k < length sigma -> sel sigma l !!! k = l !!! (sigma !!! k).
Proof.
  intros Hk. unfold sel.
  rewrite (list_lookup_total_fmap (λ k, l !!! k) sigma k Hk).
  reflexivity.
Qed.

Lemma sel_fmap {B} `{!Inhabited B} (f : A -> B) sigma (l : list A) :
  Forall (λ k, k < length l) sigma ->
  sel sigma (f <$> l) = f <$> sel sigma l.
Proof.
  intros Hs. unfold sel. rewrite <- list_fmap_compose.
  apply list_fmap_ext. intros i k Hk. cbn.
  rewrite Forall_lookup in Hs.
  rewrite (list_lookup_total_fmap f l k (Hs i k Hk)). reflexivity.
Qed.

Lemma mapM_sel {B} `{!Inhabited B} (g : A -> option B) sigma
    (l : list A) (l2 : list B) :
  mapM g l = Some l2 ->
  Forall (λ k, k < length l) sigma ->
  mapM g (sel sigma l) = Some (sel sigma l2).
Proof.
  intros H Hs. apply mapM_Some_1 in H. apply mapM_Some_2.
  unfold sel. apply Forall2_fmap. apply Forall_Forall2_diag.
  eapply Forall_impl; [exact Hs|]. intros k Hk. cbn.
  pose proof (list_lookup_lookup_total_lt l k Hk) as Hx.
  destruct (Forall2_lookup_l _ _ _ _ _ H Hx) as (y & Hy & Hg).
  rewrite (list_lookup_total_correct _ _ _ Hy). exact Hg.
Qed.
End Sel.

Lemma getitem_total {A} `{!Inhabited A} (l : list A) i :
  getitem l i = (λ k, l !!! k) <$> norm_index (length l) i.
Proof.
  unfold getitem.
  destruct (norm_index (length l) i) as [k|] eqn:E; [|reflexivity]. cbn.
  apply list_lookup_lookup_total_lt. eapply norm_index_lt, E.
Qed.

Lemma take_idx_sel {A} `{!Inhabited A} (l : list A) idx :
  take_idx l idx = (λ ks, sel ks l) <$> mapM (norm_index (length l)) idx.
Proof.
  unfold take_idx. induction idx as [|i idx IH]; [reflexivity|].
  cbn [mapM]. rewrite getitem_total, IH.
  destruct (norm_index (length l) i) as [k|]; [|reflexivity]. cbn.
  destruct (mapM (norm_index (length l)) idx); reflexivity.
Qed.

Lemma mapM_norm_index_lt len idx ks :
  mapM (norm_index len) idx = Some ks -> Forall (λ k, k < len) ks.
Proof.
  intros H. apply mapM_Some_1 in H.
  induction H as [|i k idx ks Hk _ IH]; constructor; [|exact IH].
  eapply norm_index_lt, Hk.
Qed.

(** ** [apply_permutation] by entries *)

Lemma ncols_sel (cm : matrix) n k ks :
  square n cm -> k < n -> ncols (sel (k :: ks) cm) = n.
Proof. intros Hc Hk. cbn. apply (square_lookup n); assumption. Qed.

Lemma transpose_lookup_total (cm : matrix) j :
  j < ncols cm -> transpose cm !!! j = (λ r : list Z, r !!! j) <$> cm.
Proof.
  intros Hj. unfold transpose.
  rewrite (list_lookup_total_fmap _ (seq 0 (ncols cm)) j)
    by (rewrite length_seq; exact Hj).
  rewrite lookup_total_seq_lt by exact Hj. reflexivity.
Qed.

Lemma length_transpose (cm : matrix) : length (transpose cm) = ncols cm.
Proof. unfold transpose. rewrite length_fmap. apply length_seq. Qed.

(** [apply_permutation(cm, perm)[a][b] = cm[perm[a]][perm[b]]]. *)
Lemma apply_permutation_spec (n : nat) (cm : matrix) (perm : vector) :
  square n cm ->
  apply_permutation cm perm = gather cm <$> mapM (norm_index n) perm.
Proof.
  intros Hc. pose proof Hc as [Hlen Hrows].
  unfold apply_permutation. rewrite take_idx_sel, Hlen.
  destruct (mapM (norm_index n) perm) as [ks|] eqn:E; [|reflexivity].
  cbn.
  pose proof (mapM_norm_index_lt _ _ _ E) as Hks.
  destruct ks as [|k0 ks'].
  { apply length_mapM in E. destruct perm; [reflexivity|discriminate]. }
  set (ks := k0 :: ks') in *.
  assert (Hk0 : k0 < n) by (inversion Hks; assumption).
  rewrite take_idx_sel, length_transpose.
  assert (Hnc : ncols (sel ks cm) = n) by (apply ncols_sel; assumption).
  rewrite Hnc, E.
  cbn [fmap option_fmap option_map mbind option_bind]. f_equal.
  assert (Hlks : length (sel ks cm) = length ks) by apply length_sel.
  unfold transpose at 1.
  assert (Hnc2 : ncols (sel ks (transpose (sel ks cm))) = length ks).
  { unfold ks at 1. cbn [sel fmap list_fmap ncols].
    rewrite transpose_lookup_total by (rewrite Hnc; exact Hk0).
    rewrite length_fmap. exact Hlks. }
  rewrite Hnc2. unfold gather.
  transitivity ((λ a, (λ b, (cm !!! a) !!! b) <$> ks)
                  <$> sel (seq 0 (length ks)) ks);
    [|rewrite sel_seq_id; reflexivity].
  unfold sel at 3. rewrite <- list_fmap_compose.
  apply list_fmap_ext. intros i0 j Hj. apply lookup_seq in Hj as [-> Hj].
  change (0 + i0) with i0. unfold compose.
  unfold sel at 1. rewrite <- list_fmap_compose.
  apply list_fmap_ext. intros i1 k Hk. unfold compose.
  assert (Hkn : k < n) by (rewrite Forall_lookup in Hks; eapply Hks, Hk).
  rewrite transpose_lookup_total by (rewrite Hnc; exact Hkn).
  rewrite (list_lookup_total_fmap _ (sel ks cm) i0)
    by (rewrite Hlks; exact Hj).
  rewrite sel_lookup_total by exact Hj. reflexivity.
Qed.

Lemma length_gather (cm : matrix) ks : length (gather cm ks) = length ks.
Proof. apply length_fmap. Qed.

Lemma gather_rows (cm : matrix) ks :
  Forall (λ r, length r = length ks) (gather cm ks).
Proof.
  unfold gather. apply Forall_fmap, Forall_true. intros a. cbn.
  apply length_fmap.
Qed.

(** Selecting the indices first is selecting rows and columns after. *)
Lemma gather_sel (cm : matrix) ks sigma :
  Forall (λ k, k < length ks) sigma ->
  gather cm (sel sigma ks) = sel sigma (sel sigma <$> gather cm ks).
Proof.
  intros Hs. unfold gather.
  transitivity (sel sigma ((λ a, (λ b, (cm !!! a) !!! b) <$> sel sigma ks)
                           <$> ks)).
  - rewrite sel_fmap by exact Hs. reflexivity.
  - f_equal. rewrite <- list_fmap_compose. apply list_fmap_ext.
    intros i a _. unfold compose. symmetry. apply sel_fmap. exact Hs.
Qed.

(** ** Rearrangements keep matrix and permutation together *)

Section Shuffle.
(** An operation on arrays that only moves elements around. *)
Variable op : forall A : Type, list A -> option (list A).
Hypothesis op_fmap : forall (A B : Type) (f : A -> B) (l : list A),
  op B (f <$> l) = fmap (M:=list) f <$> op A l.
Hypothesis op_Forall : forall (A : Type) (P : A -> Prop) (l l' : list A),
  Forall P l -> op A l = Some l' -> Forall P l'.

Lemma op_sel {A} `{!Inhabited A} (l l' : list A) :
  op A l = Some l' ->
  exists sigma,
    op nat (seq 0 (length l)) = Some sigma
    /\ l' = sel sigma l
    /\ Forall (λ k, k < length l) sigma.
Proof.
  intros H. rewrite <- (sel_seq_id l) in H at 1. unfold sel in H.
  rewrite op_fmap in H.
  destruct (op nat (seq 0 (length l))) as [sigma|] eqn:E; [|discriminate].
  cbn in H. inversion H; subst. exists sigma.
  split; [reflexivity|]. split; [reflexivity|].
  eapply op_Forall; [|exact E].
  apply Forall_seq. intros k Hk. lia.
Qed.

Lemma op_rows (cm cm1 : matrix) p sigma :
  op nat (seq 0 p) = Some sigma ->
  Forall (λ r, length r = p) cm ->
  mapM (op Z) cm = Some cm1 ->
  cm1 = sel sigma <$> cm.
Proof.
  intros Hs Hrows H. apply mapM_Some_1 in H.
  induction H as [|r r1 cm cm1 Hr _ IH]; [reflexivity|].
  inversion Hrows as [|? ? Hlen Hrows']; subst.
  cbn. f_equal; [|apply IH; exact Hrows'].
  apply op_sel in Hr as (sigma' & Hs' & -> & _).
  rewrite Hs in Hs'. inversion Hs'. reflexivity.
Qed.

Lemma op_lockstep (n : nat) (original : matrix) (perm perm' : vector)
    (cm cm1 cm' : matrix) :
  square n original ->
  apply_permutation original perm = Some cm ->
  op Z perm = Some perm' ->
  mapM (op Z) cm = Some cm1 ->
  op (list Z) cm1 = Some cm' ->
  apply_permutation original perm' = Some cm'.
Proof.
  intros Ho Hcm Hp Hcols Hrows.
  rewrite (apply_permutation_spec n) in Hcm |- * by exact Ho.
  destruct (mapM (norm_index n) perm) as [ks|] eqn:E; [|discriminate].
  cbn in Hcm. inversion Hcm; subst cm. clear Hcm.
  pose proof (length_mapM _ _ _ E) as Hlen.
  apply op_sel in Hp as (sigma & Hs & -> & Hsigma).
  rewrite (mapM_sel _ _ _ _ E Hsigma). cbn. f_equal.
  rewrite gather_sel by (rewrite <- Hlen; exact Hsigma).
  pose proof (op_rows _ _ _ _ Hs
                (eq_rect_r (λ p, Forall (λ r, length r = p) _)
                   (gather_rows original ks) Hlen) Hcols) as ->.
  apply op_sel in Hrows as (sigma' & Hs' & -> & _).
  rewrite length_fmap, length_gather, <- Hlen, Hs in Hs'.
  inversion Hs'. reflexivity.
Qed.
End Shuffle.

(** The column swap of [swap] is the element swap done in every row. *)
Lemma swap_columns_cons (r : list Z) (cm : matrix) i j :
  swap_columns (r :: cm) i j
  = r' ← swap_items r i j; cm' ← swap_columns cm i j; Some (r' :: cm').
Proof.
  unfold swap_columns, swap_items, get_col, set_col. cbn [mapM].
  destruct (getitem r i) as [b|]; cbn;
    destruct (getitem r j) as [a|]; cbn; try reflexivity.
  - destruct (mapM (λ row, getitem row i) cm) as [ci|]; cbn.
    + destruct (mapM (λ row, getitem row j) cm) as [cj|]; cbn.
      * destruct (setitem r i a) as [r1|]; cbn; [|reflexivity].
        destruct (mapM _ (zip cm cj)) as [cm1|]; cbn.
        -- destruct (setitem r1 j b) as [r2|]; cbn; [|reflexivity].
           destruct (mapM _ (zip cm1 ci)); reflexivity.
        -- destruct (setitem r1 j b); reflexivity.
      * destruct (setitem r i a) as [r1|]; cbn; [|reflexivity].
        destruct (setitem r1 j b); reflexivity.
    + destruct (setitem r i a) as [r1|]; cbn; [|reflexivity].
      destruct (setitem r1 j b); reflexivity.
  - destruct (mapM (λ row, getitem row i) cm); reflexivity.
Qed.

Lemma swap_columns_rows (cm : matrix) i j :
  swap_columns cm i j = mapM (λ row : list Z, swap_items row i j) cm.
Proof.
  induction cm as [|r cm IH]; [reflexivity|].
  rewrite swap_columns_cons, IH. reflexivity.
Qed.

Lemma swap_rows_items (cm : matrix) i j :
  swap_rows cm i j = swap_items cm i j.
Proof.
  unfold swap_rows, swap_items.
  destruct (getitem cm i), (getitem cm j); reflexivity.
Qed.

Lemma swap_lockstep (n : nat) (original : matrix) (perm perm' : vector)
    (cm cm' : matrix) i j :
  square n original ->
  apply_permutation original perm = Some cm ->
  swap_1d perm i j = (perm', None) ->
  swap cm i j = (cm', None) ->
  apply_permutation original perm' = Some cm'.
Proof.
  intros Ho Hcm Hp Hc.
  unfold swap_1d in Hp.
  destruct (swap_items perm i j) as [p1|] eqn:Ep; [|discriminate].
  inversion Hp; subst p1.
  unfold swap in Hc. rewrite swap_columns_rows in Hc.
  destruct (mapM _ cm) as [cm1|] eqn:E1; [|discriminate].
  rewrite swap_rows_items in Hc.
  destruct (swap_items cm1 i j) as [cm2|] eqn:E2; [|discriminate].
  inversion Hc; subst cm2.
  eapply (op_lockstep (λ A l, @swap_items A l i j)); eauto.
  - intros A B f l. apply swap_items_fmap.
  - intros A P l l'. apply swap_items_Forall.
Qed.

Lemma move_lockstep (n : nat) (original : matrix) (perm perm' : vector)
    (cm cm' : matrix) fs fe ip :
  square n original ->
  apply_permutation original perm = Some cm ->
  move_1d perm fs fe ip = (perm', None) ->
  move cm fs fe ip = (cm', None) ->
  apply_permutation original perm' = Some cm'.
Proof.
  intros Ho Hcm Hp Hc.
  unfold move_1d in Hp. unfold move in Hc.
  destruct (negb ((ip <? fs)%Z || (ip >? fe)%Z)); [discriminate|].
  cbv zeta in Hp, Hc.
  set (p_new := move_p_new fs fe ip) in *.
  set (p_old := sorted p_new) in *.
  destruct (reindex perm p_old p_new) as [p1|] eqn:Ep; [|discriminate].
  inversion Hp; subst p1.
  destruct (mapM _ cm) as [cm1|] eqn:E1; [|discriminate].
  destruct (reindex cm1 p_old p_new) as [cm2|] eqn:E2; [|discriminate].
  inversion Hc; subst cm2.
  eapply (op_lockstep (λ A l, @reindex A l p_old p_new)); eauto.
  - intros A B f l. apply reindex_fmap.
  - intros A P l l'. apply reindex_Forall.
Qed.

Lemma generate_permutation_lockstep rs fuel nn (n : nat) (original : matrix)
    (perm : vector) (cm : matrix) k perm' mk cm' k' :
  square n original ->
  apply_permutation original perm = Some cm ->
  generate_permutation rs fuel nn perm cm k = Ok (perm', mk, cm') k' ->
  apply_permutation original perm' = Some cm'.
Proof.
  intros Ho Hcm Hg.
  apply generate_permutation_Ok in Hg
    as [(_ & i & j & _ & _ & _ & Hp & Hm)
       |(_ & _ & fs & fe & ip & _ & _ & _ & _ & Hp & Hm)].
  - eapply swap_lockstep; eauto.
  - eapply move_lockstep; eauto.
Qed.

Lemma sa_iter_lockstep rs np_exp fuel score nn weights det (n : nat)
    (original : matrix) s k s' k' :
  square n original ->
  lockstep original s ->
  sa_iter rs np_exp fuel score nn weights det s k = Ok s' k' ->
  lockstep original s'.
Proof.
  intros Ho [Hc Hb] H.
  apply sa_iter_Ok in H
    as (perm & mk & tmp_cm & k1 & ts & chance & t & Hg & _ & _ & _ & ->).
  pose proof (generate_permutation_lockstep _ _ _ _ _ _ _ _ _ _ _ _
                Ho Hc Hg) as Hcand.
  destruct (chance <=? _)%float; unfold lockstep, accepted, rejected; simpl.
  - split; [exact Hcand|].
    destruct (best_score s >? ts)%Z; assumption.
  - auto.
Qed.

Lemma sa_init_lockstep score (original : matrix) perm t k s0 k0 :
  sa_init score original perm t k = Ok s0 k0 -> lockstep original s0.
Proof.
  intros H. apply sa_init_Ok in H as (cm' & sc & Hcm & _ & _ & ->).
  split; exact Hcm.
Qed.

(** C1.  For a square input matrix, whatever the initial permutation and
    the random stream: on entry to the loop, after every iteration and at
    return, the current and the best matrix are the original matrix
    reordered by the current, resp. best, permutation; in particular
    [result["cm"] = apply_permutation(original, result["perm"])]. *)
Theorem lockstep_invariant (rs : nat -> N) (np_exp : float -> float)
    (fuel : nat)
    (score : matrix -> wmatrix -> option Z) (n : nat)
    (original : matrix) (perm : option vector) (t : float)
    (deterministic : bool) :
  square n original ->
  (forall k s0 k0,
     sa_init score original perm t k = Ok s0 k0 -> lockstep original s0)
  /\ (forall nn weights s k s' k',
        lockstep original s ->
        sa_iter rs np_exp fuel score nn weights deterministic s k
        = Ok s' k' ->
        lockstep original s')
  /\ (forall nn weights k s0 k0 m s k',
        sa_init score original perm t k = Ok s0 k0 ->
        sa_loop rs np_exp fuel score nn weights deterministic m s0 k0
        = Ok s k' ->
        lockstep original s)
  /\ (forall steps cooling_factor k best_cm best_perm k',
        simulated_annealing rs np_exp fuel original perm score steps t
          cooling_factor deterministic k
        = Ok (best_cm, best_perm) k' ->
        apply_permutation original best_perm = Some best_cm).
Proof.
  intros Ho.
  assert (Hloop : forall nn weights k s0 k0 m s k',
            sa_init score original perm t k = Ok s0 k0 ->
            sa_loop rs np_exp fuel score nn weights deterministic m s0 k0
            = Ok s k' ->
            lockstep original s).
  { intros nn weights k s0 k0 m s k' H0 Hl.
    eapply (sa_loop_invariant rs np_exp fuel score nn weights
              (lockstep original)); [| |exact Hl].
    - intros s1 k1 s2 k2 Hs H. eapply sa_iter_lockstep; eauto.
    - eapply sa_init_lockstep, H0. }
  split; [|split; [|split]].
  - intros k s0 k0. apply sa_init_lockstep.
  - intros nn weights s k s' k' Hs H. eapply sa_iter_lockstep; eauto.
  - exact Hloop.
  - intros steps cf k bcm bperm k' H.
    apply simulated_annealing_Ok in H as (_ & _ & s0 & s & H0 & Hl & Heq).
    inversion Heq; subst.
    eapply Hloop in Hl; [|exact H0]. apply Hl.
Qed.

Lemma lockstep_invariant_witness :
  square 4 cm4
  /\ simulated_annealing rs_lcg exp_bound 10 cm4 (Some [3; 1; 0; 2]%Z)
       calculate_score 15 100%float 0x1.fae147ae147aep-1%float true 2
     = Ok ([[5; 3; 4; 2]; [7; 5; 6; 4]; [1; 9; 0; 8]; [3; 1; 2; 0]]%Z,
           [3; 1; 2; 0]%Z) 60
  /\ apply_permutation cm4 [3; 1; 2; 0]%Z
     = Some [[5; 3; 4; 2]; [7; 5; 6; 4]; [1; 9; 0; 8]; [3; 1; 2; 0]]%Z.
Proof.
  assert (Hsq : square 4 cm4) by (split; [reflexivity|repeat constructor]).
  assert (Hrun :
    simulated_annealing rs_lcg exp_bound 10 cm4 (Some [3; 1; 0; 2]%Z)
      calculate_score 15 100%float 0x1.fae147ae147aep-1%float true 2
    = Ok ([[5; 3; 4; 2]; [7; 5; 6; 4]; [1; 9; 0; 8]; [3; 1; 2; 0]]%Z,
          [3; 1; 2; 0]%Z) 60) by (vm_compute; reflexivity).
  split; [exact Hsq|]. split; [exact Hrun|].
  exact (proj2 (proj2 (proj2
    (lockstep_invariant rs_lcg exp_bound 10 calculate_score 4 cm4
       (Some [3; 1; 0; 2]%Z) 100%float true Hsq)))
    15%Z 0x1.fae147ae147aep-1%float 2 _ _ 60 Hrun).
Defined.

(** ** Two classes or more: the run returns on a fair stream *)

Lemma randint_0_n rs (n : Z) k :
  (1 <= n)%Z -> randint rs 0 (n - 1) k = Ok (Z.of_N (rs k) mod n)%Z (S k).
Proof.
  intros Hn. unfold randint.
  destruct (0 >? n - 1)%Z eqn:E; [lia|].
  replace (n - 1 - 0 + 1)%Z with n by lia. reflexivity.
Qed.

(** A rejection loop over [randint(0, n - 1)] ends once a draw passes. *)
Lemma while_randint_terminates (rs : nat -> N) (n : Z) (cond : Z -> bool) :
  (1 <= n)%Z ->
  forall (d k : nat) (s : Z) (it : nat),
    cond (Z.of_N (rs (k + d)%nat) mod n)%Z = false ->
    exists r it' k',
      forall fuel, d < fuel ->
        while fuel cond (λ _, randint rs 0 (n - 1)) s it k = Ok (r, it') k'.
Proof.
  intros Hn. induction d as [|d IH]; intros k s it Hd.
  - destruct (cond s) eqn:E.
    + rewrite Nat.add_0_r in Hd.
      exists (Z.of_N (rs k) mod n)%Z, (S it), (S k). intros fuel Hf.
      destruct fuel as [|fuel]; [lia|]. simpl. rewrite E.
      rewrite (bind_of_Ok _ _ _ _ _ (randint_0_n rs n k Hn)).
      apply while_false. exact Hd.
    + exists s, it, k. intros fuel _. apply while_false. exact E.
  - destruct (cond s) eqn:E.
    + rewrite <- Nat.add_succ_comm in Hd.
      destruct (IH (S k) (Z.of_N (rs k) mod n)%Z (S it) Hd)
        as (r & it' & k' & Hr).
      exists r, it', k'. intros fuel Hf.
      destruct fuel as [|fuel]; [lia|]. simpl. rewrite E.
      rewrite (bind_of_Ok _ _ _ _ _ (randint_0_n rs n k Hn)).
      apply Hr. lia.
    + exists s, it, k. intros fuel _. apply while_false. exact E.
Qed.

Lemma norm_index_in_range len (i : Z) :
  (0 <= i < Z.of_nat len)%Z -> norm_index len i = Some (Z.to_nat i).
Proof.
  intros Hi. unfold norm_index. rewrite bool_decide_eq_true_2 by exact Hi.
  reflexivity.
Qed.

Section InRange.
Context {A : Type}.

Lemma getitem_is_Some (l : list A) i :
  (0 <= i < Z.of_nat (length l))%Z -> is_Some (getitem l i).
Proof.
  intros Hi. unfold getitem. rewrite norm_index_in_range by exact Hi. cbn.
  apply lookup_lt_is_Some_2. lia.
Qed.

Lemma setitem_is_Some (l : list A) i v :
  (0 <= i < Z.of_nat (length l))%Z -> is_Some (setitem l i v).
Proof.
  intros Hi. unfold setitem. rewrite norm_index_in_range by exact Hi. cbn.
  eauto.
Qed.

Lemma swap_items_is_Some (l : list A) i j :
  (0 <= i < Z.of_nat (length l))%Z -> (0 <= j < Z.of_nat (length l))%Z ->
  is_Some (swap_items l i j).
Proof.
  intros Hi Hj. unfold swap_items.
  destruct (getitem_is_Some l j Hj) as [a ->]. cbn.
  destruct (getitem_is_Some l i Hi) as [b ->]. cbn.
  destruct (setitem_is_Some l i a Hi) as [l1 Hl1]. rewrite Hl1. cbn.
  apply setitem_is_Some. rewrite (setitem_length _ _ _ _ Hl1). exact Hj.
Qed.

Lemma reindex_is_Some (l : list A) p_old p_new :
  Forall (λ i, 0 <= i < Z.of_nat (length l))%Z p_old ->
  Forall (λ i, 0 <= i < Z.of_nat (length l))%Z p_new ->
  is_Some (reindex l p_old p_new).
Proof.
  intros Ho Hn. unfold reindex, take_idx, put_idx.
  assert (H1 : is_Some (mapM (getitem l) p_new)).
  { apply mapM_is_Some_2. eapply Forall_impl; [exact Hn|].
    intros i Hi. apply getitem_is_Some, Hi. }
  destruct H1 as [vals ->]. cbn.
  assert (H2 : is_Some (mapM (norm_index (length l)) p_old)).
  { apply mapM_is_Some_2. eapply Forall_impl; [exact Ho|].
    intros i Hi. cbn. rewrite norm_index_in_range by exact Hi. eauto. }
  destruct H2 as [ks ->]. cbn. eauto.
Qed.
End InRange.

Lemma move_p_new_in_range (n fs fe ip : Z) :
  (0 <= fs)%Z -> (fs <= fe)%Z -> (fe <= n - 2)%Z -> (0 <= ip <= n - 1)%Z ->
  Forall (λ i, 0 <= i < n)%Z (move_p_new fs fe ip).
Proof.
  intros H1 H2 H3 H4. unfold move_p_new, py_range.
  destruct (ip >? fe)%Z; apply Forall_app; split; apply Forall_forall;
    intros x Hx; apply elem_of_seqZ in Hx; lia.
Qed.

Lemma sorted_in_range (P : Z -> Prop) l : Forall P l -> Forall P (sorted l).
Proof.
  intros H. unfold sorted. rewrite merge_sort_Permutation. exact H.
Qed.

Lemma swap_1d_returns (perm : vector) i j :
  (0 <= i < Z.of_nat (length perm))%Z ->
  (0 <= j < Z.of_nat (length perm))%Z ->
  exists perm', swap_1d perm i j = (perm', None)
                /\ length perm' = length perm.
Proof.
  intros Hi Hj. unfold swap_1d.
  destruct (swap_items_is_Some perm i j Hi Hj) as [p' Hp]. rewrite Hp.
  exists p'. split; [reflexivity|]. eapply swap_items_length, Hp.
Qed.

Lemma swap_returns (n : nat) (cm : matrix) i j :
  square n cm ->
  (0 <= i < Z.of_nat n)%Z -> (0 <= j < Z.of_nat n)%Z ->
  exists cm', swap cm i j = (cm', None).
Proof.
  intros [Hlen Hrows] Hi Hj. unfold swap.
  rewrite swap_columns_rows.
  assert (H1 : is_Some (mapM (λ row : list Z, swap_items row i j) cm)).
  { apply mapM_is_Some_2. eapply Forall_impl; [exact Hrows|].
    intros r Hr. cbn. apply swap_items_is_Some; rewrite Hr; assumption. }
  destruct H1 as [cm1 H1]. rewrite H1.
  rewrite swap_rows_items.
  apply length_mapM in H1.
  destruct (swap_items_is_Some cm1 i j) as [cm2 ->];
    [rewrite <- H1, Hlen; assumption..|].
  eauto.
Qed.

Lemma move_1d_returns (perm : vector) fs fe ip :
  (0 <= fs)%Z -> (fs <= fe)%Z -> (fe <= Z.of_nat (length perm) - 2)%Z ->
  (0 <= ip <= Z.of_nat (length perm) - 1)%Z -> (ip < fs \/ ip > fe)%Z ->
  exists perm', move_1d perm fs fe ip = (perm', None)
                /\ length perm' = length perm.
Proof.
  intros H1 H2 H3 H4 Hout. unfold move_1d.
  destruct (negb ((ip <? fs)%Z || (ip >? fe)%Z)) eqn:G.
  { apply move_guard_spec in G. lia. }
  cbv zeta.
  pose proof (move_p_new_in_range _ _ _ _ H1 H2 H3 H4) as Hnew.
  destruct (reindex_is_Some perm _ _ (sorted_in_range _ _ Hnew) Hnew)
    as [p' Hp].
  rewrite Hp. exists p'. split; [reflexivity|]. eapply reindex_length, Hp.
Qed.

Lemma move_returns (n : nat) (cm : matrix) fs fe ip :
  square n cm ->
  (0 <= fs)%Z -> (fs <= fe)%Z -> (fe <= Z.of_nat n - 2)%Z ->
  (0 <= ip <= Z.of_nat n - 1)%Z -> (ip < fs \/ ip > fe)%Z ->
  exists cm', move cm fs fe ip = (cm', None).
Proof.
  intros [Hlen Hrows] H1 H2 H3 H4 Hout. unfold move.
  destruct (negb ((ip <? fs)%Z || (ip >? fe)%Z)) eqn:G.
  { apply move_guard_spec in G. lia. }
  cbv zeta.
  pose proof (move_p_new_in_range _ _ _ _ H1 H2 H3 H4) as Hnew.
  pose proof (sorted_in_range _ _ Hnew) as Hold.
  assert (Hc : is_Some (mapM (λ row : list Z,
                  reindex row (sorted (move_p_new fs fe ip))
                    (move_p_new fs fe ip)) cm)).
  { apply mapM_is_Some_2. eapply Forall_impl; [exact Hrows|].
    intros r Hr. cbn. apply reindex_is_Some; rewrite Hr; assumption. }
  destruct Hc as [cm1 Hc]. rewrite Hc.
  apply length_mapM in Hc.
  destruct (reindex_is_Some cm1 (sorted (move_p_new fs fe ip))
              (move_p_new fs fe ip)) as [cm2 ->];
    [rewrite <- Hc, Hlen; assumption..|].
  eauto.
Qed.

Lemma generate_permutation_length rs fuel n perm cm k p mk c k' :
  generate_permutation rs fuel n perm cm k = Ok (p, mk, c) k' ->
  length p = length perm.
Proof.
  intros H. apply generate_permutation_Ok in H
    as [(_ & i & j & _ & _ & _ & Hp & _)
       |(_ & _ & fs & fe & ip & _ & _ & _ & _ & Hp & _)].
  - unfold swap_1d in Hp.
    destruct (swap_items perm i j) as [p'|] eqn:E; [|discriminate].
    inversion Hp; subst. eapply swap_items_length, E.
  - unfold move_1d in Hp.
    destruct (negb _); [discriminate|]. cbv zeta in Hp.
    destruct (reindex perm _ _) as [p'|] eqn:E; [|discriminate].
    inversion Hp; subst. eapply reindex_length, E.
Qed.

(** With two classes or more and a fair stream the generator returns,
    given enough fuel. *)
Lemma generate_permutation_returns (rs : nat -> N) (n : nat)
    (perm : vector) (cm : matrix) (k : nat) :
  2 <= n -> fair (Z.of_nat n) rs -> length perm = n -> square n cm ->
  exists F res k',
    forall fuel, F <= fuel ->
      generate_permutation rs fuel (Z.of_nat n) perm cm k = Ok res k'.
Proof.
  intros Hn Hfair Hlen Hsq.
  assert (HN : (1 <= Z.of_nat n)%Z) by lia.
  destruct (random_Ok rs k) as [r Hr].
  unfold generate_permutation.
  destruct (choose_make_swap (Z.of_nat n) r) eqn:Hmk.
  - (* swap *)
    set (i := (Z.of_N (rs (S k)) mod Z.of_nat n)%Z).
    assert (Hi : (0 <= i < Z.of_nat n)%Z) by (apply Z.mod_pos_bound; lia).
    set (v := if (i =? 0)%Z then 1%Z else 0%Z).
    assert (Hv : (0 <= v < Z.of_nat n)%Z /\ v <> i).
    { unfold v. destruct (i =? 0)%Z eqn:E; lia. }
    destruct (Hfair (S (S k)) v (proj1 Hv)) as (m & Hm & Hmv).
    destruct (while_randint_terminates rs (Z.of_nat n) (λ j, (j =? i)%Z) HN
                (m - S (S k)) (S (S k)) i 0) as (j & it & k3 & Hj).
    { replace (S (S k) + (m - S (S k))) with m by lia.
      rewrite Hmv. apply Z.eqb_neq. apply Hv. }
    assert (Hj' : (0 <= j <= Z.of_nat n - 1)%Z /\ j <> i).
    { eapply (draw_other_Ok rs (S (m - S (S k)))). apply Hj. lia. }
    destruct (swap_1d_returns perm i j) as (p' & Hp & _); [lia..|].
    destruct (swap_returns n cm i j Hsq) as (c' & Hc); [lia..|].
    exists (S (m - S (S k))), (p', true, c'), k3. intros fuel Hf.
    rewrite (bind_of_Ok _ _ _ _ _ Hr). cbv zeta. rewrite Hmk.
    rewrite (bind_of_Ok _ _ _ _ _ (randint_0_n rs _ (S k) HN)). fold i.
    unfold draw_other. rewrite (bind_of_Ok _ _ _ _ _ (Hj fuel Hf)).
    cbv beta iota. rewrite Hp, Hc. reflexivity.
  - (* block move *)
    assert (H3 : (3 <= Z.of_nat n)%Z).
    { unfold choose_make_swap in Hmk.
      destruct (Z.of_nat n <? 3)%Z eqn:E; [discriminate|lia]. }
    set (fs := first_from_start rs (Z.of_nat n) (S k)).
    set (fe := first_from_end rs (Z.of_nat n) (S k)).
    destruct (draw_block_first_pair rs 0 (Z.of_nat n) (S k) H3)
      as (_ & _ & Hfs & Hfe & _). fold fs fe in Hfs, Hfe.
    assert (Hv : (0 <= Z.of_nat n - 1 < Z.of_nat n)%Z) by lia.
    destruct (Hfair (S (S (S k))) _ Hv) as (m & Hm & Hmv).
    destruct (while_randint_terminates rs (Z.of_nat n)
                (λ ip, negb ((ip <? fs)%Z || (ip >? fe)%Z)) HN
                (m - S (S (S k))) (S (S (S k))) fs 0)
      as (ip & it & k3 & Hip).
    { replace (S (S (S k)) + (m - S (S (S k)))) with m by lia.
      rewrite Hmv. apply not_true_iff_false. rewrite move_guard_spec. lia. }
    assert (Hip' : (ip < fs \/ ip > fe)%Z /\ (0 <= ip <= Z.of_nat n - 1)%Z).
    { eapply (draw_insert_pos_Ok rs (S (m - S (S (S k))))); [|lia].
      apply Hip. lia. }
    destruct (move_1d_returns perm fs fe ip) as (p' & Hp & _);
      [rewrite ?Hlen; lia..|].
    destruct (move_returns n cm fs fe ip Hsq) as (c' & Hc); [lia..|].
    exists (S (m - S (S (S k)))), (p', false, c'), k3. intros fuel Hf.
    rewrite (bind_of_Ok _ _ _ _ _ Hr). cbv zeta. rewrite Hmk.
    destruct fuel as [|fuel]; [lia|].
    destruct (draw_block_first_pair rs fuel (Z.of_nat n) (S k) H3)
      as (_ & _ & _ & _ & Hb). fold fs fe in Hb.
    rewrite (bind_of_Ok _ _ _ _ _ Hb). cbv beta iota.
    unfold draw_insert_pos.
    rewrite (bind_of_Ok _ _ _ _ _ (Hip (S fuel) Hf)).
    cbv beta iota. rewrite Hp, Hc. reflexivity.
Qed.

Lemma calculate_weight_matrix_square (n : nat) :
  square n (calculate_weight_matrix (Z.of_nat n)).
Proof.
  assert (Hl : length (py_range 0 (Z.of_nat n)) = n).
  { unfold py_range. rewrite length_seqZ. lia. }
  unfold calculate_weight_matrix. split.
  - rewrite length_fmap. exact Hl.
  - apply Forall_fmap, Forall_true. intros i. cbn.
    rewrite length_fmap. exact Hl.
Qed.

Lemma apply_permutation_square (n : nat) (original : matrix)
    (perm : vector) (cm : matrix) :
  square n original ->
  apply_permutation original perm = Some cm ->
  square (length perm) cm.
Proof.
  intros Ho H. rewrite (apply_permutation_spec n) in H by exact Ho.
  destruct (mapM (norm_index n) perm) as [ks|] eqn:E; [|discriminate].
  cbn in H. inversion H; subst. apply length_mapM in E. rewrite E. split.
  - apply length_gather.
  - apply gather_rows.
Qed.

Lemma cooled_cooled (deterministic : bool) (j : nat) (t : float) :
  cooled deterministic j (cooled deterministic 1 t)
  = cooled deterministic (S j) t.
Proof.
  unfold cooled. destruct deterministic; [reflexivity|].
  exact (eq_sym (Nat.iter_succ_r j _ t)).
Qed.

Section Returns.
Variable rs : nat -> N.
Variable np_exp : float -> float.
Variable n : nat.
Variable original : matrix.
Variable deterministic : bool.
Variable score : matrix -> wmatrix -> option Z.
Hypothesis two_classes : 2 <= n.
Hypothesis rs_fair : fair (Z.of_nat n) rs.
Hypothesis original_square : square n original.
(** The score of an [n] by [n] matrix is computed without an exception,
    and the difference of two scores converts to a float. *)
Hypothesis score_returns :
  forall cm, square n cm ->
    is_Some (score cm (calculate_weight_matrix (Z.of_nat n))).
Hypothesis score_gap_converts :
  forall cm1 cm2 a b,
    score cm1 (calculate_weight_matrix (Z.of_nat n)) = Some a ->
    score cm2 (calculate_weight_matrix (Z.of_nat n)) = Some b ->
    is_Some (py_float (- (a - b))).

Lemma sa_iter_returns (s : sa_state) (k : nat) :
  ready n original s ->
  score (current_cm s) (calculate_weight_matrix (Z.of_nat n))
  = Some (current_score s) ->
  (cooled deterministic 1 (temp s) =? 0)%float = false ->
  exists F s' k',
    (forall fuel, F <= fuel ->
       sa_iter rs np_exp fuel score (Z.of_nat n)
         (calculate_weight_matrix (Z.of_nat n)) deterministic s k
       = Ok s' k')
    /\ ready n original s'
    /\ score (current_cm s') (calculate_weight_matrix (Z.of_nat n))
       = Some (current_score s')
    /\ temp s' = cooled deterministic 1 (temp s).
Proof.
  intros ([Hc Hb] & Hlen) Hcur Ht.
  assert (Hsq : square n (current_cm s)).
  { rewrite <- Hlen.
    exact (apply_permutation_square n original _ _ original_square Hc). }
  destruct (generate_permutation_returns rs n (current_perm s)
              (current_cm s) k two_classes rs_fair Hlen Hsq)
    as (F & [[p mk] c] & k1 & Hg).
  pose proof (Hg F (Nat.le_refl F)) as HgF.
  pose proof (generate_permutation_lockstep _ _ _ _ _ _ _ _ _ _ _ _
                original_square Hc HgF) as Hcand.
  pose proof (generate_permutation_length _ _ _ _ _ _ _ _ _ _ HgF) as Hplen.
  assert (Hcsq : square n c).
  { rewrite <- Hlen, <- Hplen.
    exact (apply_permutation_square n original p c original_square Hcand). }
  destruct (score_returns c Hcsq) as [ts Hts].
  destruct (score_gap_converts _ _ _ _ Hts Hcur) as [d Hd].
  assert (Hchance : exists chance k',
            draw_chance rs deterministic (temp s) k1
            = Ok (chance, cooled deterministic 1 (temp s)) k').
  { unfold draw_chance, cooled. destruct deterministic.
    - exists 1%float, k1. reflexivity.
    - destruct (random_Ok rs k1) as [ch Hch]. exists ch, (S k1).
      rewrite (bind_of_Ok _ _ _ _ _ Hch). reflexivity. }
  destruct Hchance as (chance & k' & Hch).
  set (t' := cooled deterministic 1 (temp s)) in *.
  set (thresh := py_min 1%float (np_exp (d / t')%float)).
  exists F, (if (chance <=? thresh)%float then accepted s c p ts t'
             else rejected s t'), k'.
  split.
  - intros fuel Hf. unfold sa_iter.
    rewrite (bind_of_Ok _ _ _ _ _ (Hg fuel Hf)). cbv beta iota.
    rewrite Hts. simpl lift_option. unfold bind at 1. unfold ret at 1.
    rewrite (bind_of_Ok _ _ _ _ _ Hch). cbv beta iota.
    unfold hot_prob_thresh. rewrite Hd. simpl lift_option.
    unfold bind at 2. unfold ret at 1. rewrite Ht.
    unfold bind at 1. unfold ret at 1. fold thresh.
    destruct (chance <=? thresh)%float; reflexivity.
  - destruct (chance <=? thresh)%float;
      unfold ready, lockstep; simpl.
    + split; [|split; [exact Hts|reflexivity]].
      split; [|congruence]. split; [exact Hcand|].
      destruct (best_score s >? ts)%Z; assumption.
    + split; [|split; [exact Hcur|reflexivity]].
      split; [split; assumption|exact Hlen].
Qed.

Lemma sa_loop_returns (m : nat) :
  forall (s : sa_state) (k : nat),
    ready n original s ->
    score (current_cm s) (calculate_weight_matrix (Z.of_nat n))
    = Some (current_score s) ->
    (forall j, 1 <= j <= m ->
       (cooled deterministic j (temp s) =? 0)%float = false) ->
    exists F s' k',
      forall fuel, F <= fuel ->
        sa_loop rs np_exp fuel score (Z.of_nat n)
          (calculate_weight_matrix (Z.of_nat n)) deterministic m s k
        = Ok s' k'.
Proof.
  induction m as [|m IH]; intros s k Hs Hcur Ht.
  - exists 0, s, k. intros fuel _. reflexivity.
  - destruct (sa_iter_returns s k Hs Hcur (Ht 1 ltac:(lia)))
      as (F1 & s1 & k1 & H1 & Hs1 & Hcur1 & Ht1).
    destruct (IH s1 k1 Hs1 Hcur1) as (F2 & s2 & k2 & H2).
    { intros j Hj. rewrite Ht1, cooled_cooled. apply Ht. lia. }
    exists (Nat.max F1 F2), s2, k2. intros fuel Hf. cbn [sa_loop].
    rewrite (bind_of_Ok _ _ _ _ _ (H1 fuel ltac:(lia))).
    apply H2. lia.
Qed.

(** For a square matrix of two classes or more, a permutation argument
    that fits and a fair stream, [simulated_annealing] returns (given
    enough fuel for the rejection loops), provided the float arithmetic
    raises nothing: the scores are computed, their differences convert,
    and the temperature the threshold divides by is not zero. *)
Lemma simulated_annealing_returns (perm : option vector) (steps : Z)
    (t cf : float) (k : nat) :
  valid_perm n perm ->
  (t <=? 0)%float = false ->
  (cf <=? 0)%float = false -> (1 <=? cf)%float = false ->
  (forall j, 1 <= j <= Z.to_nat steps ->
     (cooled deterministic j t =? 0)%float = false) ->
  exists F res k',
    forall fuel, F <= fuel ->
      simulated_annealing rs np_exp fuel original perm score
        steps t cf deterministic k
      = Ok res k'.
Proof.
  intros Hperm Ht Hcf0 Hcf1 Hcool.
  destruct original_square as [Holen Horows].
  set (p0 := default (py_range 0 (Z.of_nat n)) perm).
  assert (Hp0 : default_perm (Z.of_nat (length original)) perm k = Ok p0 k).
  { rewrite Holen. unfold default_perm, p0. destruct perm; [reflexivity|].
    destruct (Z.of_nat n =? 0)%Z eqn:E; [lia|reflexivity]. }
  assert (Hp0v : length p0 = n /\ Forall (λ i, 0 <= i < Z.of_nat n)%Z p0).
  { unfold p0. destruct perm as [p|]; [exact Hperm|]. cbn. split.
    - unfold py_range. rewrite length_seqZ. lia.
    - apply Forall_forall. intros x Hx. unfold py_range in Hx.
      apply elem_of_seqZ in Hx. lia. }
  destruct Hp0v as [Hp0len Hp0rng].
  assert (Hap : is_Some (apply_permutation original p0)).
  { rewrite (apply_permutation_spec n) by exact original_square.
    assert (H : is_Some (mapM (norm_index n) p0)).
    { apply mapM_is_Some_2. eapply Forall_impl; [exact Hp0rng|].
      intros i Hi. cbn. rewrite norm_index_in_range by exact Hi. eauto. }
    destruct H as [ks ->]. cbn. eauto. }
  destruct Hap as [cm0 Hcm0].
  assert (Hsq0 : square n cm0).
  { rewrite <- Hp0len.
    exact (apply_permutation_square n original _ _ original_square Hcm0). }
  destruct (score_returns cm0 Hsq0) as [sc Hsc].
  set (s0 := {| current_cm := cm0; current_perm := p0; current_score := sc;
                best_cm := cm0; best_perm := p0; best_score := sc;
                temp := t |}).
  assert (H0 : sa_init score original perm t k = Ok s0 k).
  { unfold sa_init. rewrite (bind_of_Ok _ _ _ _ _ Hp0). rewrite Hcm0.
    simpl lift_option. unfold bind at 1. unfold ret at 1.
    rewrite Holen, Hsc. reflexivity. }
  assert (Hready : ready n original s0).
  { split; [split; exact Hcm0|exact Hp0len]. }
  destruct (sa_loop_returns (Z.to_nat steps) s0 k Hready Hsc Hcool)
    as (F & s & k' & Hl).
  exists F, (best_cm s, best_perm s), k'. intros fuel Hf.
  unfold simulated_annealing.
  rewrite Ht, Hcf0, Hcf1. cbn [orb].
  rewrite (bind_of_Ok _ _ _ _ _ H0). rewrite Holen.
  rewrite (bind_of_Ok _ _ _ _ _ (Hl fuel Hf)). reflexivity.
Qed.
End Returns.

Lemma rs_count_fair (n : Z) : (1 <= n)%Z -> fair n rs_count.
Proof.
  intros Hn k v Hv. exists (Z.to_nat (v + n * Z.of_nat k)). split.
  - nia.
  - unfold rs_count. rewrite nat_N_Z, Z2Nat.id by nia.
    rewrite (Z.mul_comm n), Z.mod_add by lia.
    apply Z.mod_small. exact Hv.
Qed.

(** The docstring matrix, 100 deterministic steps, the counting stream:
    the run returns with the last two classes exchanged (score 28). *)
Example cm3_run_returns :
  simulated_annealing rs_count exp_bound 10 cm3 None calculate_score
    100 100%float 0x1.fae147ae147aep-1%float true 0
  = Ok ([[0; 2; 1]; [6; 8; 7]; [3; 5; 4]]%Z, [0; 2; 1]%Z) 300.
Proof. vm_compute. reflexivity. Qed.

(** * Further properties of the transforms *)

(** ** Index normalisation *)

Lemma norm_index_is_Some len (i : Z) :
  is_Some (norm_index len i) <-> (- Z.of_nat len <= i < Z.of_nat len)%Z.
Proof.
  unfold norm_index. repeat case_bool_decide; split; intros Hi;
    try (destruct Hi as [? Hi]; discriminate); eauto; lia.
Qed.

Lemma norm_index_None len (i : Z) :
  norm_index len i = None <-> ~ (- Z.of_nat len <= i < Z.of_nat len)%Z.
Proof.
  rewrite <- norm_index_is_Some, eq_None_not_Some. reflexivity.
Qed.

Lemma norm_index_wrap len (i : Z) :
  (0 <= i < Z.of_nat len)%Z ->
  norm_index len (i - Z.of_nat len) = norm_index len i.
Proof.
  intros Hi. unfold norm_index.
  rewrite (bool_decide_eq_false_2 (0 ≤ i - Z.of_nat len < Z.of_nat len)%Z)
    by lia.
  rewrite (bool_decide_eq_true_2 (- Z.of_nat len ≤ i - Z.of_nat len < 0)%Z)
    by lia.
  rewrite (bool_decide_eq_true_2 (0 ≤ i < Z.of_nat len)%Z) by lia.
  f_equal. lia.
Qed.

Section ItemFacts.
Context {A : Type}.

Lemma getitem_Some (l : list A) i x :
  getitem l i = Some x <->
  exists k, norm_index (length l) i = Some k /\ l !! k = Some x.
Proof.
  unfold getitem. destruct (norm_index (length l) i) as [k|]; cbn.
  - split; [eauto|]. intros (k' & Hk & Hx). inversion Hk; subst. exact Hx.
  - split; [discriminate|]. intros (k' & Hk & _). discriminate.
Qed.

Lemma getitem_is_Some_iff (l : list A) i :
  is_Some (getitem l i)
  <-> (- Z.of_nat (length l) <= i < Z.of_nat (length l))%Z.
Proof.
  rewrite <- norm_index_is_Some. unfold getitem. split.
  - intros [x Hx]. destruct (norm_index (length l) i); [eauto|discriminate].
  - intros [k Hk]. rewrite Hk. cbn. apply lookup_lt_is_Some_2.
    eapply norm_index_lt, Hk.
Qed.

Lemma setitem_Some (l : list A) i v l' :
  setitem l i v = Some l' <->
  exists k, norm_index (length l) i = Some k /\ l' = <[k:=v]> l.
Proof.
  unfold setitem. destruct (norm_index (length l) i) as [k|]; cbn.
  - split.
    + intros H. inversion H. eauto.
    + intros (k' & Hk & ->). inversion Hk. reflexivity.
  - split; [discriminate|]. intros (k' & Hk & _). discriminate.
Qed.

(** What [l[i], l[j] = l[j], l[i]] does, with the indices in range. *)
Lemma swap_items_Some (l l' : list A) i j :
  swap_items l i j = Some l' <->
  exists ki kj a b,
    norm_index (length l) i = Some ki /\ norm_index (length l) j = Some kj
    /\ l !! ki = Some b /\ l !! kj = Some a
    /\ l' = <[kj:=b]> (<[ki:=a]> l).
Proof.
  unfold swap_items. split.
  - intros H.
    destruct (getitem l j) as [a|] eqn:Ea; [|discriminate]. cbn in H.
    destruct (getitem l i) as [b|] eqn:Eb; [|discriminate]. cbn in H.
    destruct (setitem l i a) as [l1|] eqn:E1; [|discriminate]. cbn in H.
    apply getitem_Some in Ea as (kj & Hkj & Ha).
    apply getitem_Some in Eb as (ki & Hki & Hb).
    apply setitem_Some in E1 as (ki' & Hki' & ->).
    apply setitem_Some in H as (kj' & Hkj' & ->).
    rewrite length_insert in Hkj'.
    exists ki, kj, a, b. repeat split; try assumption. congruence.
  - intros (ki & kj & a & b & Hki & Hkj & Hb & Ha & ->).
    rewrite (proj2 (getitem_Some l j a)) by eauto. cbn.
    rewrite (proj2 (getitem_Some l i b)) by eauto. cbn.
    rewrite (proj2 (setitem_Some l i a _)) by eauto. cbn.
    apply setitem_Some. rewrite length_insert. eauto.
Qed.

Lemma swap_items_is_Some_iff (l : list A) i j :
  is_Some (swap_items l i j)
  <-> (- Z.of_nat (length l) <= i < Z.of_nat (length l))%Z
      /\ (- Z.of_nat (length l) <= j < Z.of_nat (length l))%Z.
Proof.
  rewrite <- !norm_index_is_Some. split.
  - intros [l' H]. apply swap_items_Some in H
      as (ki & kj & a & b & Hki & Hkj & _). split; eauto.
  - intros [[ki Hki] [kj Hkj]].
    destruct (lookup_lt_is_Some_2 l ki) as [b Hb];
      [eapply norm_index_lt, Hki|].
    destruct (lookup_lt_is_Some_2 l kj) as [a Ha];
      [eapply norm_index_lt, Hkj|].
    eexists. apply swap_items_Some. exists ki, kj, a, b. eauto 10.
Qed.

(** Swapping twice gives the list back. *)
Lemma swap_items_involutive (l l' : list A) i j :
  swap_items l i j = Some l' -> swap_items l' i j = Some l.
Proof.
  intros H. apply swap_items_Some in H
    as (ki & kj & a & b & Hki & Hkj & Hb & Ha & ->).
  pose proof (norm_index_lt _ _ _ Hki) as Hlti.
  pose proof (norm_index_lt _ _ _ Hkj) as Hltj.
  apply swap_items_Some. rewrite !length_insert.
  destruct (decide (ki = kj)) as [->|Hne].
  - assert (a = b) by congruence. subst b.
    exists kj, kj, a, a. repeat split; try assumption.
    + rewrite list_lookup_insert_eq by (rewrite length_insert; lia).
      reflexivity.
    + rewrite list_lookup_insert_eq by (rewrite length_insert; lia).
      reflexivity.
    + rewrite !list_insert_insert_eq. symmetry. apply list_insert_id, Ha.
  - exists ki, kj, b, a. repeat split; try assumption.
    + rewrite list_lookup_insert_ne by congruence.
      rewrite list_lookup_insert_eq by lia. reflexivity.
    + rewrite list_lookup_insert_eq by (rewrite length_insert; lia).
      reflexivity.
    + apply list_eq. intros k.
      destruct (decide (k = kj)) as [->|Hkj'].
      * rewrite list_lookup_insert_eq by (rewrite !length_insert; lia).
        exact Ha.
      * rewrite list_lookup_insert_ne by congruence.
        destruct (decide (k = ki)) as [->|Hki'].
        -- rewrite list_lookup_insert_eq by (rewrite !length_insert; lia).
           exact Hb.
        -- rewrite !list_lookup_insert_ne by congruence. reflexivity.
Qed.

(** The order of the two indices does not matter. *)
Lemma swap_items_comm (l : list A) i j :
  swap_items l i j = swap_items l j i.
Proof.
  destruct (swap_items l i j) as [l1|] eqn:E1;
    destruct (swap_items l j i) as [l2|] eqn:E2; try reflexivity.
  - apply swap_items_Some in E1
      as (ki & kj & a & b & Hki & Hkj & Hb & Ha & ->).
    apply swap_items_Some in E2
      as (kj' & ki' & b' & a' & Hkj' & Hki' & Ha' & Hb' & ->).
    assert (ki' = ki) by congruence. assert (kj' = kj) by congruence.
    subst. assert (a' = a) by congruence. assert (b' = b) by congruence.
    subst. f_equal.
    destruct (decide (ki = kj)) as [->|Hne].
    + assert (a = b) by congruence. subst. reflexivity.
    + apply list_insert_insert_ne. congruence.
  - assert (H : is_Some (swap_items l j i)).
    { apply swap_items_is_Some_iff.
      assert (H : is_Some (swap_items l i j)) by eauto.
      apply swap_items_is_Some_iff in H. tauto. }
    rewrite E2 in H. destruct H; discriminate.
  - assert (H : is_Some (swap_items l i j)).
    { apply swap_items_is_Some_iff.
      assert (H : is_Some (swap_items l j i)) by eauto.
      apply swap_items_is_Some_iff in H. tauto. }
    rewrite E1 in H. destruct H; discriminate.
Qed.
End ItemFacts.

(** A selection of [l] through the natural-number version of the swap. *)
Lemma swap_items_sel {A} `{!Inhabited A} (l : list A) i j :
  swap_items l i j
  = (λ sigma, sel sigma l) <$> swap_items (seq 0 (length l)) i j.
Proof.
  rewrite <- (sel_seq_id l) at 1. unfold sel at 1.
  rewrite swap_items_fmap. reflexivity.
Qed.

Lemma swap_items_seq_lt n i j sigma :
  swap_items (seq 0 n) i j = Some sigma -> Forall (λ k, k < n) sigma.
Proof.
  intros H. eapply swap_items_Forall; [|exact H].
  apply Forall_seq. intros k Hk. lia.
Qed.

(** ** [swap] and [swap_1d] *)

Lemma mapM_involutive {A} (f : A -> option A) (l l' : list A) :
  (forall x y, f x = Some y -> f y = Some x) ->
  mapM f l = Some l' -> mapM f l' = Some l.
Proof.
  intros Hf H. apply mapM_Some_1 in H. apply mapM_Some_2.
  induction H as [|x y l l' Hxy _ IH]; constructor; [|exact IH].
  apply Hf, Hxy.
Qed.

Lemma mapM_rows_length {A} (f : list A -> option (list A))
    (n : nat) (cm cm1 : list (list A)) :
  (forall r r', f r = Some r' -> length r' = length r) ->
  mapM f cm = Some cm1 ->
  Forall (λ r, length r = n) cm -> Forall (λ r, length r = n) cm1.
Proof.
  intros Hf H Hrows. apply mapM_Some_1 in H.
  induction H as [|r r1 cm cm1 Hr _ IH]; [constructor|].
  inversion Hrows; subst. constructor; [|apply IH; assumption].
  apply Hf, Hr.
Qed.

Lemma mapM_keeps_square {A} (f : list A -> option (list A))
    (n : nat) (cm cm1 : list (list A)) :
  (forall r r', f r = Some r' -> length r' = length r) ->
  mapM f cm = Some cm1 ->
  square n cm -> square n cm1.
Proof.
  intros Hf H [Hlen Hrows]. split.
  - rewrite <- (length_mapM _ _ _ H). exact Hlen.
  - eapply mapM_rows_length; eauto.
Qed.

Lemma mapM_ext_eq {A B} (f g : A -> option B) (l : list A) :
  (forall x, f x = g x) -> mapM f l = mapM g l.
Proof.
  intros H. induction l as [|x l IH]; [reflexivity|].
  cbn [mapM]. rewrite H, IH. reflexivity.
Qed.

Lemma swap_None_inv (cm cm' : matrix) i j :
  swap cm i j = (cm', None) <->
  exists cm1, mapM (λ row : list Z, swap_items row i j) cm = Some cm1
              /\ swap_items cm1 i j = Some cm'.
Proof.
  unfold swap. rewrite swap_columns_rows.
  destruct (mapM _ cm) as [cm1|]; [rewrite swap_rows_items|].
  - destruct (swap_items cm1 i j) as [cm2|] eqn:E; cbn; split.
    + intros H. inversion H; subst. eauto.
    + intros (c & Hc & H). inversion Hc; subst. congruence.
    + discriminate.
    + intros (c & Hc & H). inversion Hc; subst. congruence.
  - split; [discriminate|]. intros (c & Hc & _). discriminate.
Qed.

Lemma swap_1d_None_inv (perm perm' : vector) i j :
  swap_1d perm i j = (perm', None) <-> swap_items perm i j = Some perm'.
Proof.
  unfold swap_1d. destruct (swap_items perm i j); cbn; split;
    intros H; inversion H; reflexivity.
Qed.

Lemma swap_involutive (cm cm' : matrix) i j :
  swap cm i j = (cm', None) -> swap cm' i j = (cm, None).
Proof.
  intros H. apply swap_None_inv in H as (cm1 & Hc & Hr).
  apply swap_None_inv.
  pose proof (length_mapM _ _ _ Hc) as Hlen.
  pose proof (mapM_involutive _ _ _
                (λ x y, swap_items_involutive x y i j) Hc) as Hc'.
  rewrite swap_items_sel in Hr.
  destruct (swap_items (seq 0 (length cm1)) i j) as [sigma|] eqn:Es;
    [|discriminate].
  cbn in Hr. inversion Hr; subst cm'. clear Hr.
  pose proof (swap_items_seq_lt _ _ _ _ Es) as Hsig.
  exists (sel sigma cm). split.
  - apply mapM_sel; assumption.
  - apply swap_items_involutive.
    rewrite swap_items_sel, Hlen, Es. reflexivity.
Qed.

(** X1.  Swapping the same pair twice restores the permutation and the
    matrix. *)
Theorem swap_twice_restores (perm perm' : vector) (cm cm' : matrix)
    (i j : Z) :
  swap_1d perm i j = (perm', None) ->
  swap cm i j = (cm', None) ->
  swap_1d perm' i j = (perm, None) /\ swap cm' i j = (cm, None).
Proof.
  intros Hp Hc. split.
  - apply swap_1d_None_inv. apply swap_items_involutive.
    apply swap_1d_None_inv. exact Hp.
  - apply swap_involutive. exact Hc.
Qed.

Lemma swap_twice_restores_witness :
  swap_1d [0; 1; 2]%Z 2 0 = ([2; 1; 0]%Z, None)
  /\ swap cm3 2 0 = ([[8; 7; 6]; [5; 4; 3]; [2; 1; 0]]%Z, None)
  /\ swap_1d [2; 1; 0]%Z 2 0 = ([0; 1; 2]%Z, None)
  /\ swap [[8; 7; 6]; [5; 4; 3]; [2; 1; 0]]%Z 2 0 = (cm3, None).
Proof.
  split; [reflexivity|]. split; [vm_compute; reflexivity|].
  apply (swap_twice_restores [0; 1; 2]%Z [2; 1; 0]%Z cm3
           [[8; 7; 6]; [5; 4; 3]; [2; 1; 0]]%Z 2 0);
    vm_compute; reflexivity.
Defined.

Lemma swap_comm (cm : matrix) i j : swap cm i j = swap cm j i.
Proof.
  unfold swap. rewrite !swap_columns_rows.
  assert (E : mapM (λ row : list Z, swap_items row i j) cm
              = mapM (λ row : list Z, swap_items row j i) cm).
  { apply mapM_ext_eq. intros row. apply swap_items_comm. }
  rewrite E.
  destruct (mapM (λ row : list Z, swap_items row j i) cm) as [cm1|];
    [|reflexivity].
  rewrite !swap_rows_items, swap_items_comm. reflexivity.
Qed.

(** X2.  The order of the two indices of [swap] and [swap_1d] does not
    matter. *)
Theorem swap_order_irrelevant (cm : matrix) (perm : vector) (i j : Z) :
  swap cm i j = swap cm j i /\ swap_1d perm i j = swap_1d perm j i.
Proof.
  split; [apply swap_comm|].
  unfold swap_1d. rewrite swap_items_comm. reflexivity.
Qed.

Lemma swap_items_wrap {A} (l : list A) i j :
  (0 <= i < Z.of_nat (length l))%Z ->
  swap_items l (i - Z.of_nat (length l)) j = swap_items l i j.
Proof.
  intros Hi. unfold swap_items, getitem, setitem.
  rewrite (norm_index_wrap _ _ Hi). reflexivity.
Qed.

Lemma mapM_ext_Forall {A B} (f g : A -> option B) (l : list A) :
  Forall (λ x, f x = g x) l -> mapM f l = mapM g l.
Proof.
  intros H. induction H as [|x l Hx _ IH]; [reflexivity|].
  cbn [mapM]. rewrite Hx, IH. reflexivity.
Qed.

Lemma swap_wrap (n : nat) (cm : matrix) i j :
  square n cm -> (0 <= i < Z.of_nat n)%Z ->
  swap cm (i - Z.of_nat n) j = swap cm i j.
Proof.
  intros [Hlen Hrows] Hi. unfold swap. rewrite !swap_columns_rows.
  assert (E : mapM (λ row : list Z, swap_items row (i - Z.of_nat n) j) cm
              = mapM (λ row : list Z, swap_items row i j) cm).
  { apply mapM_ext_Forall. eapply Forall_impl; [exact Hrows|].
    intros r Hr. cbn.
    replace (Z.of_nat n) with (Z.of_nat (length r)) by (f_equal; exact Hr).
    apply swap_items_wrap. rewrite Hr. exact Hi. }
  rewrite E.
  destruct (mapM (λ row : list Z, swap_items row i j) cm) as [cm1|] eqn:E1;
    [|reflexivity].
  rewrite !swap_rows_items.
  replace (Z.of_nat n) with (Z.of_nat (length cm1))
    by (f_equal; rewrite <- (length_mapM _ _ _ E1); exact Hlen).
  rewrite swap_items_wrap; [reflexivity|].
  rewrite <- (length_mapM _ _ _ E1), Hlen. exact Hi.
Qed.

Lemma swap_in_range (n : nat) (cm : matrix) i j :
  square n cm ->
  (- Z.of_nat n <= i < Z.of_nat n)%Z -> (- Z.of_nat n <= j < Z.of_nat n)%Z ->
  exists cm', swap cm i j = (cm', None).
Proof.
  intros [Hlen Hrows] Hi Hj.
  assert (H1 : is_Some (mapM (λ row : list Z, swap_items row i j) cm)).
  { apply mapM_is_Some_2. eapply Forall_impl; [exact Hrows|].
    intros r Hr. cbn. apply swap_items_is_Some_iff. rewrite Hr. auto. }
  destruct H1 as [cm1 H1].
  destruct (proj2 (swap_items_is_Some_iff cm1 i j)) as [cm2 H2].
  { rewrite <- (length_mapM _ _ _ H1), Hlen. auto. }
  exists cm2. apply swap_None_inv. eauto.
Qed.

Lemma swap_out_of_range (n : nat) (cm : matrix) i j :
  square n cm ->
  ~ ((- Z.of_nat n <= i < Z.of_nat n)%Z
     /\ (- Z.of_nat n <= j < Z.of_nat n)%Z) ->
  swap cm i j = (cm, Some IndexError).
Proof.
  intros [Hlen Hrows] Hout. unfold swap. rewrite swap_columns_rows.
  destruct (mapM (λ row : list Z, swap_items row i j) cm) as [cm1|] eqn:E1;
    [|reflexivity].
  rewrite swap_rows_items.
  destruct (swap_items cm1 i j) as [cm2|] eqn:E2.
  - exfalso. apply Hout.
    assert (H : is_Some (swap_items cm1 i j)) by eauto.
    apply swap_items_is_Some_iff in H.
    rewrite <- (length_mapM _ _ _ E1), Hlen in H. exact H.
  - cbn. destruct cm as [|r cm].
    + cbn in E1. inversion E1. reflexivity.
    + exfalso. apply Hout.
      assert (H : is_Some (swap_items r i j)).
      { assert (HF : Forall (is_Some ∘ (λ row : list Z, swap_items row i j))
                       (r :: cm)) by (apply mapM_is_Some_1; eauto).
        inversion HF; subst. assumption. }
      apply swap_items_is_Some_iff in H.
      inversion Hrows; subst. rewrite H2 in H. exact H.
Qed.

(** X3.  On an [n] by [n] matrix and a permutation of length [n], [swap]
    and [swap_1d] accept exactly the indices of [-n, n): inside they
    return, a negative index meaning the same as the index plus [n];
    outside they raise [IndexError] and leave the array unchanged. *)
Theorem swap_index_range (n : nat) (cm : matrix) (perm : vector) (i j : Z) :
  square n cm -> length perm = n ->
  let inside := ((- Z.of_nat n <= i < Z.of_nat n)%Z
                 /\ (- Z.of_nat n <= j < Z.of_nat n)%Z) in
  (inside -> (swap cm i j).2 = None /\ (swap_1d perm i j).2 = None)
  /\ (~ inside ->
      swap cm i j = (cm, Some IndexError)
      /\ swap_1d perm i j = (perm, Some IndexError))
  /\ ((0 <= i < Z.of_nat n)%Z ->
      swap cm (i - Z.of_nat n) j = swap cm i j
      /\ swap_1d perm (i - Z.of_nat n) j = swap_1d perm i j).
Proof.
  intros Hsq Hlen inside. split; [|split].
  - intros [Hi Hj]. split.
    + destruct (swap_in_range n cm i j Hsq Hi Hj) as [cm' ->]. reflexivity.
    + unfold swap_1d.
      destruct (proj2 (swap_items_is_Some_iff perm i j)) as [p' ->];
        [rewrite Hlen; auto|reflexivity].
  - intros Hout. split; [apply (swap_out_of_range n); assumption|].
    unfold swap_1d. destruct (swap_items perm i j) as [p'|] eqn:E;
      [|reflexivity].
    exfalso. apply Hout.
    assert (H : is_Some (swap_items perm i j)) by eauto.
    apply swap_items_is_Some_iff in H. rewrite Hlen in H. exact H.
  - intros Hi. split; [apply swap_wrap; assumption|].
    unfold swap_1d.
    replace (Z.of_nat n) with (Z.of_nat (length perm))
      by (f_equal; exact Hlen).
    rewrite swap_items_wrap by (rewrite Hlen; exact Hi). reflexivity.
Qed.

Lemma swap_index_range_witness :
  swap cm3 3 0 = (cm3, Some IndexError)
  /\ swap_1d [0; 1; 2]%Z 3 0 = ([0; 1; 2]%Z, Some IndexError).
Proof.
  apply (swap_index_range 3 cm3 [0; 1; 2]%Z 3 0).
  - split; [reflexivity|repeat constructor].
  - reflexivity.
  - lia.
Defined.

(** ** [move] and [move_1d] as block relocation *)

Lemma slice_split {A} (a b : nat) (l : list A) :
  a <= b -> l = take a l ++ slice a b l ++ drop b l.
Proof.
  intros Hab. unfold slice.
  rewrite <- (take_drop a l) at 1. f_equal.
  rewrite <- (take_drop (b - a) (drop a l)) at 1. f_equal.
  rewrite drop_drop. f_equal. lia.
Qed.

Lemma slice_split3 {A} (a b c : nat) (l : list A) :
  a <= b -> b <= c ->
  l = take a l ++ slice a b l ++ slice b c l ++ drop c l.
Proof.
  intros Hab Hbc. rewrite (slice_split a b l) at 1 by exact Hab.
  do 2 f_equal. unfold slice.
  rewrite <- (take_drop (c - b) (drop b l)) at 1. f_equal.
  rewrite drop_drop. f_equal. lia.
Qed.

Lemma length_slice {A} (a b : nat) (l : list A) :
  a <= b -> b <= length l -> length (slice a b l) = b - a.
Proof.
  intros Hab Hb. unfold slice. rewrite length_take, length_drop. lia.
Qed.

Lemma Sorted_seqZ (m n : Z) : Sorted Z.le (seqZ m n).
Proof.
  destruct (decide (n <= 0)%Z) as [Hn|Hn].
  { rewrite seqZ_nil by exact Hn. constructor. }
  rewrite <- (Z2Nat.id n) by lia.
  generalize (Z.to_nat n) as k. clear n Hn. intros k. revert m.
  induction k as [|k IH]; intros m.
  - rewrite seqZ_nil by lia. constructor.
  - rewrite seqZ_cons by lia.
    replace (Z.pred (Z.of_nat (S k))) with (Z.of_nat k) by lia.
    constructor; [apply IH|].
    destruct k as [|k].
    + rewrite seqZ_nil by lia. constructor.
    + rewrite seqZ_cons by lia. constructor. lia.
Qed.

Lemma sorted_seqZ_eq (l : list Z) (m n : Z) :
  l ≡ₚ seqZ m n -> sorted l = seqZ m n.
Proof.
  intros Hp. unfold sorted.
  apply (Sorted_unique Z.le).
  - apply Sorted_merge_sort. apply _.
  - apply Sorted_seqZ.
  - rewrite merge_sort_Permutation. exact Hp.
Qed.

(** [p_new] and [sorted(p_new)] for parameters in range. *)
Lemma sorted_move_p_new (fs fe ip : Z) :
  (fs <= fe)%Z -> (ip < fs \/ ip > fe)%Z ->
  sorted (move_p_new fs fe ip)
  = seqZ (Z.min fs ip) (Z.max fe ip - Z.min fs ip + 1).
Proof.
  intros Hfe Hout. apply sorted_seqZ_eq. unfold move_p_new, py_range.
  destruct (ip >? fe)%Z eqn:E.
  - rewrite Z.min_l, Z.max_r by lia.
    replace (ip - fs + 1)%Z with ((fe + 1 - fs) + (ip + 1 - (fe + 1)))%Z
      by lia.
    rewrite seqZ_app by lia.
    replace (fs + (fe + 1 - fs))%Z with (fe + 1)%Z by lia.
    apply Permutation_app_comm.
  - rewrite Z.min_r, Z.max_l by lia.
    replace (fe - ip + 1)%Z with ((fs - ip) + (fe + 1 - fs))%Z by lia.
    rewrite seqZ_app by lia.
    replace (ip + (fs - ip))%Z with fs by lia.
    apply Permutation_app_comm.
Qed.

Section Blocks.
Context {A : Type}.

Lemma take_idx_seqZ (l : list A) (a len : nat) :
  a + len <= length l ->
  take_idx l (seqZ (Z.of_nat a) (Z.of_nat len)) = Some (slice a (a + len) l).
Proof.
  intros Hlen. unfold take_idx, slice. apply mapM_Some_2.
  replace (a + len - a) with len by lia.
  apply Forall2_same_length_lookup_2.
  - rewrite length_seqZ, length_take, length_drop. lia.
  - intros k i x Hi Hx. apply lookup_seqZ in Hi as [-> Hk].
    rewrite lookup_take_lt in Hx by lia. rewrite lookup_drop in Hx.
    apply getitem_Some. exists (a + k). split; [|exact Hx].
    rewrite norm_index_in_range by lia. f_equal. lia.
Qed.

Lemma take_idx_app (l : list A) (x y : list Z) (a b : list A) :
  take_idx l x = Some a -> take_idx l y = Some b ->
  take_idx l (x ++ y) = Some (a ++ b).
Proof.
  unfold take_idx. intros Ha Hb.
  apply mapM_Some_1 in Ha. apply mapM_Some_1 in Hb.
  apply mapM_Some_2. apply Forall2_app; assumption.
Qed.

Lemma mapM_norm_index_seqZ (n a len : nat) :
  a + len <= n ->
  mapM (norm_index n) (seqZ (Z.of_nat a) (Z.of_nat len)) = Some (seq a len).
Proof.
  intros Hlen. apply mapM_Some_2. apply Forall2_same_length_lookup_2.
  - rewrite length_seqZ, length_seq. lia.
  - intros k i x Hi Hx. apply lookup_seqZ in Hi as [-> Hk].
    apply lookup_seq in Hx as [-> _].
    rewrite norm_index_in_range by lia. f_equal. lia.
Qed.

Lemma foldl_insert_seq (vals l : list A) (lo : nat) :
  lo + length vals <= length l ->
  foldl (λ acc kv, <[kv.1:=kv.2]> acc) l (zip (seq lo (length vals)) vals)
  = take lo l ++ vals ++ drop (lo + length vals) l.
Proof.
  revert l lo. induction vals as [|v vals IH]; intros l lo Hlen.
  - cbn. rewrite Nat.add_0_r, take_drop. reflexivity.
  - cbn [length seq zip zip_with foldl]. cbn [fst snd].
    cbn in Hlen.
    rewrite IH by (rewrite length_insert; lia).
    rewrite take_insert_lt by lia.
    rewrite (take_S_r l lo (default v (l !! lo))).
    2:{ destruct (lookup_lt_is_Some_2 l lo) as [x ->]; [lia|reflexivity]. }
    rewrite insert_app_r_alt by (rewrite length_take; lia).
    rewrite length_take, Nat.min_l, Nat.sub_diag by lia. cbn.
    rewrite drop_insert_lt by lia.
    rewrite <- app_assoc. cbn. rewrite Nat.add_succ_r. reflexivity.
Qed.

Lemma put_idx_seqZ (l vals : list A) (lo : nat) :
  lo + length vals <= length l ->
  put_idx l (seqZ (Z.of_nat lo) (Z.of_nat (length vals))) vals
  = Some (take lo l ++ vals ++ drop (lo + length vals) l).
Proof.
  intros Hlen. unfold put_idx.
  rewrite mapM_norm_index_seqZ by exact Hlen. cbn.
  rewrite foldl_insert_seq by exact Hlen. reflexivity.
Qed.

(** The index assignment of [move] and [move_1d] relocates the block. *)
Lemma reindex_block (l : list A) (fs fe ip : nat) :
  fs <= fe -> fe < length l -> ip < length l -> ip < fs \/ fe < ip ->
  reindex l (sorted (move_p_new (Z.of_nat fs) (Z.of_nat fe) (Z.of_nat ip)))
    (move_p_new (Z.of_nat fs) (Z.of_nat fe) (Z.of_nat ip))
  = Some (block_moved l fs fe ip).
Proof.
  intros Hfe Hlen Hip Hout.
  rewrite sorted_move_p_new by lia.
  unfold reindex, move_p_new, py_range, block_moved.
  destruct (Z.of_nat ip >? Z.of_nat fe)%Z eqn:E.
  - assert (Hlt : fe < ip) by lia.
    rewrite (proj2 (Nat.ltb_lt fe ip) Hlt).
    replace (Z.of_nat ip + 1 - (Z.of_nat fe + 1))%Z
      with (Z.of_nat (ip - fe)) by lia.
    replace (Z.of_nat fe + 1)%Z with (Z.of_nat (S fe)) by lia.
    replace (Z.of_nat (S fe) - Z.of_nat fs)%Z
      with (Z.of_nat (S fe - fs)) by lia.
    rewrite (take_idx_app l _ _ (slice (S fe) (S ip) l) (slice fs (S fe) l)).
    2:{ rewrite take_idx_seqZ by lia. do 2 f_equal. lia. }
    2:{ rewrite take_idx_seqZ by lia. do 2 f_equal. lia. }
    cbn [mbind option_bind].
    rewrite Z.min_l, Z.max_r by lia.
    set (vals := slice (S fe) (S ip) l ++ slice fs (S fe) l).
    assert (Hv : length vals = S ip - fs).
    { unfold vals. rewrite length_app, !length_slice by lia. lia. }
    replace (Z.of_nat ip - Z.of_nat fs + 1)%Z
      with (Z.of_nat (length vals)) by lia.
    rewrite put_idx_seqZ by lia. rewrite Hv. unfold vals.
    rewrite <- app_assoc. repeat f_equal. lia.
  - assert (Hlt : ip < fs) by lia.
    rewrite (proj2 (Nat.ltb_ge fe ip)) by lia.
    replace (Z.of_nat fe + 1 - Z.of_nat fs)%Z
      with (Z.of_nat (S fe - fs)) by lia.
    replace (Z.of_nat fs - Z.of_nat ip)%Z with (Z.of_nat (fs - ip)) by lia.
    rewrite (take_idx_app l _ _ (slice fs (S fe) l) (slice ip fs l)).
    2:{ rewrite take_idx_seqZ by lia. do 2 f_equal. lia. }
    2:{ rewrite take_idx_seqZ by lia. do 2 f_equal. lia. }
    cbn [mbind option_bind].
    rewrite Z.min_r, Z.max_l by lia.
    set (vals := slice fs (S fe) l ++ slice ip fs l).
    assert (Hv : length vals = S fe - ip).
    { unfold vals. rewrite length_app, !length_slice by lia. lia. }
    replace (Z.of_nat fe - Z.of_nat ip + 1)%Z
      with (Z.of_nat (length vals)) by lia.
    rewrite put_idx_seqZ by lia. rewrite Hv. unfold vals.
    rewrite <- app_assoc. repeat f_equal. lia.
Qed.

(** Relocating a block rearranges the elements. *)
Lemma block_moved_Permutation (l : list A) (fs fe ip : nat) :
  fs <= fe -> ip < fs \/ fe < ip -> block_moved l fs fe ip ≡ₚ l.
Proof.
  intros Hfe Hout. unfold block_moved.
  destruct (fe <? ip) eqn:E.
  - apply Nat.ltb_lt in E.
    transitivity (take fs l ++ slice fs (S fe) l ++ slice (S fe) (S ip) l
                  ++ drop (S ip) l).
    + apply Permutation_app_head, Permutation_app_swap_app.
    + rewrite <- slice_split3 by lia. reflexivity.
  - apply Nat.ltb_ge in E.
    transitivity (take ip l ++ slice ip fs l ++ slice fs (S fe) l
                  ++ drop (S fe) l).
    + apply Permutation_app_head, Permutation_app_swap_app.
    + rewrite <- slice_split3 by lia. reflexivity.
Qed.

Lemma length_block_moved (l : list A) (fs fe ip : nat) :
  fs <= fe -> ip < fs \/ fe < ip ->
  length (block_moved l fs fe ip) = length l.
Proof.
  intros Hfe Hout. apply Permutation_length, block_moved_Permutation;
    assumption.
Qed.
End Blocks.

Lemma move_1d_block (perm : vector) (fs fe ip : Z) :
  (0 <= fs <= fe)%Z -> (fe < Z.of_nat (length perm))%Z ->
  (0 <= ip < Z.of_nat (length perm))%Z -> (ip < fs \/ ip > fe)%Z ->
  move_1d perm fs fe ip
  = (block_moved perm (Z.to_nat fs) (Z.to_nat fe) (Z.to_nat ip), None).
Proof.
  intros Hfs Hfe Hip Hout. unfold move_1d.
  destruct (negb _) eqn:G; [apply move_guard_spec in G; lia|].
  cbv zeta.
  rewrite <- (Z2Nat.id fs), <- (Z2Nat.id fe), <- (Z2Nat.id ip) by lia.
  rewrite reindex_block by lia. rewrite !Z2Nat.id by lia. reflexivity.
Qed.

(** X4.  With parameters in range, [move_1d] relocates the block
    [perm[from_start..from_end]] next to [insert_pos], keeping the order
    inside the block and inside the run it jumps over. *)
Theorem move_1d_relocates_block (perm : vector)
    (from_start from_end insert_pos : Z) :
  (0 <= from_start <= from_end)%Z ->
  (from_end < Z.of_nat (length perm))%Z ->
  (0 <= insert_pos < Z.of_nat (length perm))%Z ->
  (insert_pos < from_start \/ insert_pos > from_end)%Z ->
  move_1d perm from_start from_end insert_pos
  = (block_moved perm (Z.to_nat from_start) (Z.to_nat from_end)
       (Z.to_nat insert_pos), None).
Proof. apply move_1d_block. Qed.

Lemma move_1d_relocates_block_witness :
  move_1d [10; 11; 12; 13; 14; 15]%Z 1 2 4
  = ([10; 13; 14; 11; 12; 15]%Z, None).
Proof.
  apply (move_1d_relocates_block [10; 11; 12; 13; 14; 15]%Z 1 2 4);
    cbn; lia.
Defined.

Lemma move_block (n : nat) (cm : matrix) (fs fe ip : nat) :
  square n cm ->
  fs <= fe -> fe < n -> ip < n -> ip < fs \/ fe < ip ->
  move cm (Z.of_nat fs) (Z.of_nat fe) (Z.of_nat ip)
  = (block_moved ((λ row : list Z, block_moved row fs fe ip) <$> cm)
       fs fe ip, None).
Proof.
  intros [Hlen Hrows] Hfe Hn Hip Hout. unfold move.
  destruct (negb _) eqn:G; [apply move_guard_spec in G; lia|].
  cbv zeta.
  assert (Hc : mapM (λ row : list Z,
                 reindex row
                   (sorted (move_p_new (Z.of_nat fs) (Z.of_nat fe)
                              (Z.of_nat ip)))
                   (move_p_new (Z.of_nat fs) (Z.of_nat fe) (Z.of_nat ip)))
                 cm
               = Some ((λ row : list Z, block_moved row fs fe ip) <$> cm)).
  { apply mapM_Some_2. apply Forall2_fmap_r, Forall_Forall2_diag.
    eapply Forall_impl; [exact Hrows|]. intros r Hr. cbn in Hr |- *.
    apply reindex_block; lia. }
  rewrite Hc. rewrite reindex_block by (rewrite ?length_fmap; lia).
  reflexivity.
Qed.

(** X5.  With parameters in range, [move] relocates the same block of
    columns in every row and then the same block of rows. *)
Theorem move_relocates_block (n : nat) (cm : matrix)
    (from_start from_end insert_pos : Z) :
  square n cm ->
  (0 <= from_start <= from_end)%Z -> (from_end < Z.of_nat n)%Z ->
  (0 <= insert_pos < Z.of_nat n)%Z ->
  (insert_pos < from_start \/ insert_pos > from_end)%Z ->
  move cm from_start from_end insert_pos
  = (block_moved
       ((λ row : list Z,
           block_moved row (Z.to_nat from_start) (Z.to_nat from_end)
             (Z.to_nat insert_pos)) <$> cm)
       (Z.to_nat from_start) (Z.to_nat from_end) (Z.to_nat insert_pos),
     None).
Proof.
  intros Hsq Hfs Hfe Hip Hout.
  rewrite <- (Z2Nat.id from_start), <- (Z2Nat.id from_end),
    <- (Z2Nat.id insert_pos) at 1 by lia.
  apply (move_block n); [exact Hsq|lia..].
Qed.

Lemma move_relocates_block_witness :
  move cm4 1 2 0
  = ([[5; 6; 4; 7]; [9; 0; 8; 1]; [1; 2; 0; 3]; [3; 4; 2; 5]]%Z, None).
Proof.
  apply (move_relocates_block 4 cm4 1 2 0);
    [split; [reflexivity|repeat constructor]|lia..].
Defined.

(** ** Shapes and rearrangements *)

Lemma swap_keeps_square (n : nat) (cm : matrix) i j :
  square n cm -> square n (swap cm i j).1.
Proof.
  intros Hsq. unfold swap. rewrite swap_columns_rows.
  destruct (mapM (λ row : list Z, swap_items row i j) cm) as [cm1|] eqn:E1;
    [|exact Hsq].
  assert (Hsq1 : square n cm1).
  { eapply mapM_keeps_square; [|exact E1|exact Hsq].
    intros r r'. apply swap_items_length. }
  rewrite swap_rows_items.
  destruct (swap_items cm1 i j) as [cm2|] eqn:E2; [|exact Hsq1].
  cbn. destruct Hsq1 as [Hlen Hrows]. split.
  - rewrite (swap_items_length _ _ _ _ E2). exact Hlen.
  - eapply swap_items_Forall; eauto.
Qed.

Lemma move_keeps_square (n : nat) (cm : matrix) fs fe ip :
  square n cm -> square n (move cm fs fe ip).1.
Proof.
  intros Hsq. unfold move.
  destruct (negb _); [exact Hsq|]. cbv zeta.
  destruct (mapM _ cm) as [cm1|] eqn:E1; [|exact Hsq].
  assert (Hsq1 : square n cm1).
  { eapply mapM_keeps_square; [|exact E1|exact Hsq].
    intros r r'. apply reindex_length. }
  destruct (reindex cm1 _ _) as [cm2|] eqn:E2; [|exact Hsq1].
  cbn. destruct Hsq1 as [Hlen Hrows]. split.
  - rewrite (reindex_length _ _ _ _ E2). exact Hlen.
  - eapply reindex_Forall; eauto.
Qed.

(** X6.  No transform resizes its array, whether it returns or raises: an
    [n] by [n] matrix stays [n] by [n] under [swap] and [move], and a
    permutation keeps its length under [swap_1d] and [move_1d]. *)
Theorem transforms_keep_shape (n : nat) (cm : matrix) (perm : vector)
    (i j from_start from_end insert_pos : Z) :
  square n cm ->
  square n (swap cm i j).1
  /\ square n (move cm from_start from_end insert_pos).1
  /\ length (swap_1d perm i j).1 = length perm
  /\ length (move_1d perm from_start from_end insert_pos).1 = length perm.
Proof.
  intros Hsq. split; [apply swap_keeps_square, Hsq|].
  split; [apply move_keeps_square, Hsq|]. split.
  - unfold swap_1d. destruct (swap_items perm i j) as [p'|] eqn:E;
      [|reflexivity].
    cbn. eapply swap_items_length, E.
  - unfold move_1d. destruct (negb _); [reflexivity|]. cbv zeta.
    destruct (reindex perm _ _) as [p'|] eqn:E; [|reflexivity].
    cbn. eapply reindex_length, E.
Qed.

Lemma transforms_keep_shape_witness :
  square 4 (swap cm4 1 3).1 /\ square 4 (move cm4 0 1 3).1
  /\ length (swap_1d [0; 1; 2; 3]%Z 1 3).1 = 4
  /\ length (move_1d [0; 1; 2; 3]%Z 0 1 3).1 = 4.
Proof.
  apply (transforms_keep_shape 4 cm4 [0; 1; 2; 3]%Z 1 3 0 1 3).
  split; [reflexivity|repeat constructor].
Defined.

(** Exchanging two elements rearranges the list. *)
Lemma swap_items_Permutation {A} (l l' : list A) i j :
  swap_items l i j = Some l' -> l' ≡ₚ l.
Proof.
  intros H. apply swap_items_Some in H
    as (ki & kj & a & b & Hki & Hkj & Hb & Ha & ->).
  pose proof (norm_index_lt _ _ _ Hki) as Hlti.
  pose proof (norm_index_lt _ _ _ Hkj) as Hltj.
  destruct (decide (ki = kj)) as [->|Hne].
  { assert (a = b) by congruence. subst.
    rewrite list_insert_insert_eq, list_insert_id by exact Ha.
    reflexivity. }
  apply Permutation_inj. split; [rewrite !length_insert; reflexivity|].
  exists (λ k, if decide (k = ki) then kj
               else if decide (k = kj) then ki else k).
  split.
  - intros x y Hxy. repeat case_decide; congruence.
  - intros k. cbv beta. destruct (decide (k = ki)) as [->|Hk1].
    + rewrite list_lookup_insert_ne by congruence.
      rewrite list_lookup_insert_eq by lia. symmetry. exact Ha.
    + destruct (decide (k = kj)) as [->|Hk2].
      * rewrite list_lookup_insert_eq by (rewrite length_insert; lia).
        symmetry. exact Hb.
      * rewrite !list_lookup_insert_ne by congruence. reflexivity.
Qed.

(** A returning [move_1d] with non-negative parameters had them in
    range. *)
Lemma move_1d_None_in_range (perm perm' : vector) (fs fe ip : Z) :
  (0 <= fs <= fe)%Z -> (0 <= ip)%Z ->
  move_1d perm fs fe ip = (perm', None) ->
  (fe < Z.of_nat (length perm))%Z /\ (ip < Z.of_nat (length perm))%Z
  /\ (ip < fs \/ ip > fe)%Z.
Proof.
  intros Hfs Hip H. unfold move_1d in H.
  destruct (negb _) eqn:G; [discriminate|]. cbv zeta in H.
  apply not_true_iff_false in G. rewrite move_guard_spec in G.
  destruct (reindex perm _ _) as [p'|] eqn:E; [|discriminate].
  unfold reindex in E.
  destruct (take_idx perm (move_p_new fs fe ip)) as [vals|] eqn:Et;
    [|discriminate].
  assert (Hin : forall x, x ∈ move_p_new fs fe ip ->
                          (x < Z.of_nat (length perm))%Z).
  { intros x Hx. unfold take_idx in Et.
    assert (HF : Forall (is_Some ∘ getitem perm) (move_p_new fs fe ip))
      by (apply mapM_is_Some_1; eauto).
    rewrite Forall_forall in HF. specialize (HF x Hx). cbn in HF.
    apply getitem_is_Some_iff in HF. lia. }
  split; [|split; [|lia]].
  - apply Hin. unfold move_p_new, py_range.
    destruct (ip >? fe)%Z; apply elem_of_app; [right|left];
      apply elem_of_seqZ; lia.
  - apply Hin. unfold move_p_new, py_range.
    destruct (ip >? fe)%Z eqn:E'; apply elem_of_app; [left|right];
      apply elem_of_seqZ; lia.
Qed.

Lemma generate_permutation_Permutation rs fuel n perm cm k p mk c k' :
  generate_permutation rs fuel n perm cm k = Ok (p, mk, c) k' ->
  p ≡ₚ perm.
Proof.
  intros H. apply generate_permutation_Ok in H
    as [(_ & i & j & _ & _ & _ & Hp & _)
       |(_ & _ & fs & fe & ip & Hfs & _ & _ & Hip & Hp & _)].
  - apply swap_1d_None_inv in Hp. eapply swap_items_Permutation, Hp.
  - destruct (move_1d_None_in_range perm p fs fe ip) as (Hfe & Hip' & Hout);
      [lia|lia|exact Hp|].
    rewrite move_1d_block in Hp by lia.
    inversion Hp; subst. apply block_moved_Permutation; lia.
Qed.

Lemma sa_iter_Permutation rs np_exp fuel score n weights det
    (p0 : vector) s k s' k' :
  current_perm s ≡ₚ p0 /\ best_perm s ≡ₚ p0 ->
  sa_iter rs np_exp fuel score n weights det s k = Ok s' k' ->
  current_perm s' ≡ₚ p0 /\ best_perm s' ≡ₚ p0.
Proof.
  intros [Hc Hb] H. apply sa_iter_Ok in H
    as (perm & mk & tmp_cm & k1 & ts & chance & t & Hg & _ & _ & _ & ->).
  apply generate_permutation_Permutation in Hg.
  assert (Hp : perm ≡ₚ p0) by (rewrite Hg; exact Hc).
  destruct (chance <=? _)%float; unfold accepted, rejected; simpl.
  - split; [exact Hp|]. destruct (best_score s >? ts)%Z; assumption.
  - split; assumption.
Qed.

(** X7.  The permutation [simulated_annealing] returns is a rearrangement
    of the one it started from; started from the default, it is a
    permutation of [0, ..., n - 1]. *)
Theorem result_is_rearrangement (rs : nat -> N) (np_exp : float -> float)
    (fuel : nat) (cm : matrix) (perm : option vector)
    (score : matrix -> wmatrix -> option Z) (steps : Z) (t cf : float)
    (deterministic : bool) (k : nat)
    (cm' : matrix) (perm' : vector) (k' : nat) :
  simulated_annealing rs np_exp fuel cm perm score steps t cf deterministic k
  = Ok (cm', perm') k' ->
  perm' ≡ₚ default (py_range 0 (Z.of_nat (length cm))) perm.
Proof.
  intros H.
  apply simulated_annealing_Ok in H as (_ & _ & s0 & s & H0 & Hl & Heq).
  inversion Heq; subst.
  apply sa_init_Ok in H0 as (cm0 & sc & _ & _ & _ & ->).
  set (p0 := default (py_range 0 (Z.of_nat (length cm))) perm) in *.
  cut (current_perm s ≡ₚ p0 /\ best_perm s ≡ₚ p0); [tauto|].
  revert Hl.
  apply (sa_loop_invariant _ _ _ _ _ _
           (λ s, current_perm s ≡ₚ p0 /\ best_perm s ≡ₚ p0)).
  - intros s1 k1 s2 k2. apply sa_iter_Permutation.
  - split; reflexivity.
Qed.

Lemma result_is_rearrangement_witness :
  [3; 1; 2; 0]%Z ≡ₚ default (py_range 0 (Z.of_nat (length cm4)))
                      (Some [3; 1; 0; 2]%Z).
Proof.
  apply (result_is_rearrangement rs_lcg exp_bound 10 cm4
           (Some [3; 1; 0; 2]%Z) calculate_score 15 100%float
           0x1.fae147ae147aep-1%float true 2
           [[5; 3; 4; 2]; [7; 5; 6; 4]; [1; 9; 0; 8]; [3; 1; 2; 0]]%Z
           [3; 1; 2; 0]%Z 60).
  vm_compute. reflexivity.
Defined.

(** ** [apply_permutation] *)

Lemma gather_identity (n : nat) (cm : matrix) :
  square n cm -> gather cm (seq 0 n) = cm.
Proof.
  intros [Hlen Hrows]. unfold gather.
  transitivity ((λ a, cm !!! a) <$> seq 0 n).
  - apply list_fmap_ext. intros i a Ha. apply lookup_seq in Ha as [Ha Hi].
    cbn in Ha. subst a. rewrite Forall_lookup in Hrows.
    rewrite <- (Hrows i (cm !!! i))
      by (apply list_lookup_lookup_total_lt; lia).
    apply (sel_seq_id (cm !!! i)).
  - rewrite <- Hlen. apply (sel_seq_id cm).
Qed.

Lemma mapM_norm_index_range (n : nat) :
  mapM (norm_index n) (py_range 0 (Z.of_nat n)) = Some (seq 0 n).
Proof.
  unfold py_range. rewrite Z.sub_0_r.
  apply (mapM_norm_index_seqZ n 0 n). lia.
Qed.

Lemma gather_gather (cm : matrix) (ks js : list nat) :
  Forall (λ j, j < length ks) js ->
  gather (gather cm ks) js = gather cm (sel js ks).
Proof.
  intros Hjs. unfold gather at 1 3. unfold sel.
  rewrite <- list_fmap_compose. apply list_fmap_ext.
  intros i a Ha. unfold compose.
  assert (Hlt : a < length ks)
    by (rewrite Forall_lookup in Hjs; eapply Hjs, Ha).
  rewrite <- list_fmap_compose. apply list_fmap_ext.
  intros i' b Hb. unfold compose.
  assert (Hlt' : b < length ks)
    by (rewrite Forall_lookup in Hjs; eapply Hjs, Hb).
  unfold gather.
  rewrite (list_lookup_total_fmap _ ks a Hlt).
  rewrite (list_lookup_total_fmap _ ks b Hlt'). reflexivity.
Qed.

Lemma apply_permutation_compose (n : nat) (cm cm1 : matrix)
    (p q : vector) :
  square n cm ->
  apply_permutation cm p = Some cm1 ->
  apply_permutation cm1 q = take_idx p q ≫= apply_permutation cm.
Proof.
  intros Hsq H1.
  pose proof (apply_permutation_square n cm p cm1 Hsq H1) as Hsq1.
  rewrite (apply_permutation_spec (length p)) by exact Hsq1.
  rewrite (apply_permutation_spec n) in H1 by exact Hsq.
  destruct (mapM (norm_index n) p) as [ks|] eqn:Ep; [|discriminate].
  cbn in H1. inversion H1; subst cm1. clear H1.
  pose proof (length_mapM _ _ _ Ep) as Hlen.
  rewrite take_idx_sel.
  destruct (mapM (norm_index (length p)) q) as [js|] eqn:Eq;
    [|reflexivity].
  cbn [fmap option_fmap option_map mbind option_bind].
  pose proof (mapM_norm_index_lt _ _ _ Eq) as Hjs.
  rewrite (apply_permutation_spec n) by exact Hsq.
  rewrite (mapM_sel _ _ _ _ Ep Hjs).
  cbn [fmap option_fmap option_map]. f_equal.
  apply gather_gather. rewrite <- Hlen. exact Hjs.
Qed.

(** X8.  On a square matrix the identity permutation changes nothing. *)
Theorem apply_identity_permutation (n : nat) (cm : matrix) :
  square n cm ->
  apply_permutation cm (py_range 0 (Z.of_nat n)) = Some cm.
Proof.
  intros Hsq. rewrite (apply_permutation_spec n) by exact Hsq.
  rewrite mapM_norm_index_range. cbn [fmap option_fmap option_map].
  f_equal. apply gather_identity, Hsq.
Qed.

Lemma apply_identity_permutation_witness :
  apply_permutation cm4 (py_range 0 (Z.of_nat 4)) = Some cm4.
Proof.
  apply (apply_identity_permutation 4 cm4).
  split; [reflexivity|repeat constructor].
Defined.

(** X9.  Applying [p] and then [q] is applying [p[q]]; in particular the
    second call fails exactly when [q] does not index into [p]. *)
Theorem apply_permutation_twice (n : nat) (cm cm1 : matrix)
    (p q : vector) :
  square n cm ->
  apply_permutation cm p = Some cm1 ->
  apply_permutation cm1 q = take_idx p q ≫= apply_permutation cm.
Proof. apply apply_permutation_compose. Qed.

Lemma apply_permutation_twice_witness :
  apply_permutation [[8; 6; 7]; [2; 0; 1]; [5; 3; 4]]%Z [1; 2; 0]%Z
  = take_idx [2; 0; 1]%Z [1; 2; 0]%Z ≫= apply_permutation cm3.
Proof.
  apply (apply_permutation_twice 3 cm3 _ [2; 0; 1]%Z [1; 2; 0]%Z).
  - split; [reflexivity|repeat constructor].
  - vm_compute. reflexivity.
Defined.

(** X10.  Round trip: if [q] undoes [p] (that is, [p[q]] is the identity),
    applying [p] and then [q] gives the matrix back. *)
Theorem apply_inverse_permutation (n : nat) (cm cm1 : matrix)
    (p q : vector) :
  square n cm ->
  apply_permutation cm p = Some cm1 ->
  take_idx p q = Some (py_range 0 (Z.of_nat n)) ->
  apply_permutation cm1 q = Some cm.
Proof.
  intros Hsq H1 Hq.
  rewrite (apply_permutation_compose n cm cm1 p q Hsq H1), Hq.
  cbn [mbind option_bind].
  rewrite (apply_permutation_spec n) by exact Hsq.
  rewrite mapM_norm_index_range. cbn [fmap option_fmap option_map].
  f_equal. apply gather_identity, Hsq.
Qed.

Lemma apply_inverse_permutation_witness :
  apply_permutation [[8; 6; 7]; [2; 0; 1]; [5; 3; 4]]%Z [1; 2; 0]%Z
  = Some cm3.
Proof.
  apply (apply_inverse_permutation 3 cm3 _ [2; 0; 1]%Z [1; 2; 0]%Z).
  - split; [reflexivity|repeat constructor].
  - vm_compute. reflexivity.
  - vm_compute. reflexivity.
Defined.

(** X11.  On an [n] by [n] matrix, [apply_permutation] raises
    [IndexError] exactly when some entry of the permutation lies outside
    [-n, n); otherwise the result has as many rows and columns as the
    permutation has entries. *)
Theorem apply_permutation_index_range (n : nat) (cm : matrix) (p : vector) :
  square n cm ->
  (apply_permutation cm p = None
   <-> exists i, i ∈ p /\ ~ (- Z.of_nat n <= i < Z.of_nat n)%Z)
  /\ (forall cm1, apply_permutation cm p = Some cm1 ->
                  square (length p) cm1).
Proof.
  intros Hsq. split.
  - rewrite (apply_permutation_spec n) by exact Hsq.
    rewrite fmap_None, eq_None_not_Some, mapM_is_Some.
    split.
    + intros H. apply not_Forall_Exists in H; [|intros x; apply _].
      apply Exists_exists in H as (i & Hi & Hn). exists i.
      split; [exact Hi|]. intros Hr. apply Hn, norm_index_is_Some, Hr.
    + intros (i & Hi & Hout) H. apply Hout.
      rewrite Forall_forall in H. apply norm_index_is_Some, (H i Hi).
  - intros cm1. apply (apply_permutation_square n), Hsq.
Qed.

Lemma apply_permutation_index_range_witness :
  (apply_permutation cm3 [0; 3; 1]%Z = None
   <-> exists i, i ∈ [0; 3; 1]%Z
                 /\ ~ (- Z.of_nat 3 <= i < Z.of_nat 3)%Z)
  /\ (forall cm1, apply_permutation cm3 [0; 3; 1]%Z = Some cm1 ->
                  square (length [0; 3; 1]%Z) cm1).
Proof.
  apply (apply_permutation_index_range 3 cm3 [0; 3; 1]%Z).
  split; [reflexivity|repeat constructor].
Defined.

(** ** The engine: scores of the states *)

Section ScoreFacts.
Variable rs : nat -> N.
Variable np_exp : float -> float.
Variable fuel : nat.
Variable score : matrix -> wmatrix -> option Z.
Variable n : Z.
Variable weights : wmatrix.

Lemma sa_iter_scores_recorded det s k s' k' :
  scores_recorded score weights s ->
  sa_iter rs np_exp fuel score n weights det s k = Ok s' k' ->
  scores_recorded score weights s' /\ (best_score s' <= best_score s)%Z.
Proof.
  intros [Hc Hb] H. apply sa_iter_Ok in H
    as (perm & mk & tmp_cm & k1 & ts & chance & t & _ & Hs & _ & _ & ->).
  destruct (chance <=? _)%float; unfold scores_recorded, accepted, rejected;
    simpl.
  - destruct (best_score s >? ts)%Z eqn:E; repeat split; auto; lia.
  - repeat split; auto; lia.
Qed.

Lemma sa_loop_scores_recorded det m s k s' k' :
  scores_recorded score weights s ->
  sa_loop rs np_exp fuel score n weights det m s k = Ok s' k' ->
  scores_recorded score weights s' /\ (best_score s' <= best_score s)%Z.
Proof.
  intros Hs.
  apply (sa_loop_invariant rs np_exp fuel score n weights
           (λ s', scores_recorded score weights s'
                  /\ (best_score s' <= best_score s)%Z)).
  - intros s1 k1 s2 k2 [H1 Hle] Hstep.
    destruct (sa_iter_scores_recorded _ _ _ _ _ H1 Hstep) as [H2 Hle2].
    split; [exact H2|lia].
  - split; [exact Hs|lia].
Qed.
End ScoreFacts.

(** X12.  The matrix [simulated_annealing] returns never scores worse than
    the matrix it started from (the input reordered by the initial
    permutation), in either mode and for any [score] function. *)
Theorem result_no_worse_than_start (rs : nat -> N) (np_exp : float -> float)
    (fuel : nat) (cm : matrix) (perm : option vector)
    (score : matrix -> wmatrix -> option Z) (steps : Z) (t cf : float)
    (deterministic : bool) (k : nat)
    (cm' : matrix) (perm' : vector) (k' : nat) :
  simulated_annealing rs np_exp fuel cm perm score steps t cf deterministic k
  = Ok (cm', perm') k' ->
  exists cm0 score0 score',
    apply_permutation cm (default (py_range 0 (Z.of_nat (length cm))) perm)
    = Some cm0
    /\ score cm0 (calculate_weight_matrix (Z.of_nat (length cm)))
       = Some score0
    /\ score cm' (calculate_weight_matrix (Z.of_nat (length cm)))
       = Some score'
    /\ (score' <= score0)%Z.
Proof.
  intros H.
  apply simulated_annealing_Ok in H as (_ & _ & s0 & s & H0 & Hl & Heq).
  inversion Heq; subst. clear Heq.
  apply sa_init_Ok in H0 as (cm0 & sc & Hcm0 & Hsc & _ & ->).
  apply sa_loop_scores_recorded in Hl as [[_ Hb] Hle];
    [|split; exact Hsc].
  exists cm0, sc, (best_score s). cbn in Hle. auto.
Qed.

Lemma result_no_worse_than_start_witness :
  exists cm0 score0 score',
    apply_permutation cm4
      (default (py_range 0 (Z.of_nat (length cm4))) (Some [3; 1; 0; 2]%Z))
    = Some cm0
    /\ calculate_score cm0 (calculate_weight_matrix (Z.of_nat (length cm4)))
       = Some score0
    /\ calculate_score
         [[5; 3; 4; 2]; [7; 5; 6; 4]; [1; 9; 0; 8]; [3; 1; 2; 0]]%Z
         (calculate_weight_matrix (Z.of_nat (length cm4)))
       = Some score'
    /\ (score' <= score0)%Z.
Proof.
  apply (result_no_worse_than_start rs_lcg exp_bound 10 cm4
           (Some [3; 1; 0; 2]%Z) calculate_score 15 100%float
           0x1.fae147ae147aep-1%float true 2
           [[5; 3; 4; 2]; [7; 5; 6; 4]; [1; 9; 0; 8]; [3; 1; 2; 0]]%Z
           [3; 1; 2; 0]%Z 60).
  vm_compute. reflexivity.
Defined.



(** ** Weights *)

Lemma weight_total (n i j : nat) :
  i < n -> j < n ->
  (calculate_weight_matrix (Z.of_nat n) !!! i) !!! j
  = if (Z.of_nat i =? Z.of_nat j)%Z then 0%float
    else (np_float64 (Z.abs (Z.of_nat i - Z.of_nat j))
          + float_of_Z (Z.of_nat i + Z.of_nat j)
            * 0x1.47ae147ae147bp-7)%float.
Proof.
  intros Hi Hj.
  pose proof (weight_entry (Z.of_nat n) (Z.of_nat i) (Z.of_nat j)
                ltac:(lia) ltac:(lia)) as H.
  rewrite !Nat2Z.id in H.
  destruct (calculate_weight_matrix (Z.of_nat n) !! i) as [r|] eqn:Er;
    [|discriminate].
  cbn in H. rewrite (list_lookup_total_correct _ _ _ Er).
  apply list_lookup_total_correct, H.
Qed.

(** X14.  The weight matrix is symmetric, as floats, and its diagonal is
    zero. *)
Theorem weights_symmetric (n i j : nat) :
  i < n -> j < n ->
  (calculate_weight_matrix (Z.of_nat n) !!! i) !!! j
  = (calculate_weight_matrix (Z.of_nat n) !!! j) !!! i
  /\ (i = j ->
      (calculate_weight_matrix (Z.of_nat n) !!! i) !!! j = 0%float).
Proof.
  intros Hi Hj. split;
    rewrite (weight_total n i j Hi Hj), ?(weight_total n j i Hj Hi).
  - rewrite (Z.eqb_sym (Z.of_nat j)).
    replace (Z.abs (Z.of_nat j - Z.of_nat i))
      with (Z.abs (Z.of_nat i - Z.of_nat j)) by lia.
    rewrite (Z.add_comm (Z.of_nat j)). reflexivity.
  - intros ->. rewrite Z.eqb_refl. reflexivity.
Qed.

Lemma weights_symmetric_witness :
  (calculate_weight_matrix (Z.of_nat 3) !!! 0%nat) !!! 2%nat
  = (calculate_weight_matrix (Z.of_nat 3) !!! 2%nat) !!! 0%nat
  /\ (0 = 2 ->
      (calculate_weight_matrix (Z.of_nat 3) !!! 0%nat) !!! 2%nat = 0%float).
Proof. apply (weights_symmetric 3 0 2); lia. Defined.

(** ** Colours *)

(** The docstring examples. *)
Example get_color_0 : get_color 0%float = inr (255, 255, 255)%Z.
Proof. reflexivity. Qed.

Example get_color_half : get_color 0.5%float = inr (128, 128, 128)%Z.
Proof. reflexivity. Qed.

Example get_color_1 : get_color 1%float = inr (0, 0, 0)%Z.
Proof. reflexivity. Qed.

Example get_color_code_0 :
  get_color_code 0%float 100%float = inr "#ffffff".
Proof. reflexivity. Qed.

Example get_color_code_100 :
  get_color_code 100%float 100%float = inr "#000000".
Proof. reflexivity. Qed.

Example get_color_code_50 :
  get_color_code 50%float 100%float = inr "#808080".
Proof. reflexivity. Qed.

(** A float that passes [0 <= w <= 1] is a zero or a finite float without
    sign, with an exponent of at most -52 and at most 53 digits. *)
Lemma unit_interval_float (w : float) :
  (0 <=? w)%float = true -> (w <=? 1)%float = true ->
  match Prim2SF w with
  | S754_zero _ => True
  | S754_finite s m e =>
      s = false /\ (e <= -52)%Z /\ (Zdigits2 (Zpos m) <= 53)%Z
  | _ => False
  end.
Proof.
  rewrite !leb_spec. intros H0 H1.
  pose proof (Prim2SF_valid w) as Hv.
  change (Prim2SF 0) with (S754_zero false) in H0.
  change (Prim2SF 1) with (S754_finite false 4503599627370496 (-52)) in H1.
  destruct (Prim2SF w) as [s|s| |s m e]; [exact I| | |].
  - destruct s; discriminate.
  - discriminate.
  - destruct s; [discriminate|]. split; [reflexivity|]. split.
    + unfold SFleb, SFcompare in H1.
      unfold Z.le.
      destruct (e ?= -52)%Z eqn:E; discriminate.
    + unfold valid_binary, bounded, canonical_mantissa in Hv.
      apply andb_prop in Hv as [Hc _]. apply Z.eqb_eq in Hc.
      cbn [Zdigits2]. revert Hc.
      unfold fexp, SpecFloat.emin, emax, prec. lia.
Qed.

Lemma Zdigits2_mul (p q : positive) :
  (Zdigits2 (Zpos (p * q)) <= Zdigits2 (Zpos p) + Zdigits2 (Zpos q))%Z.
Proof.
  rewrite !Zdigits2_log2 by lia.
  pose proof (Z.log2_mul_above (Zpos p) (Zpos q) ltac:(lia) ltac:(lia)).
  rewrite Pos2Z.inj_mul. lia.
Qed.

(** On such a float [int(255 * w)] returns, and what it returns is not
    negative. *)
Lemma int_of_scaled_unit (w : float) :
  (0 <=? w)%float = true -> (w <=? 1)%float = true ->
  exists t, py_int (255 * w)%float = Some t /\ (0 <= t)%Z.
Proof.
  intros H0 H1. pose proof (unit_interval_float w H0 H1) as Hw.
  unfold py_int. rewrite mul_spec.
  change (Prim2SF 255) with (S754_finite false 8972014882652160 (-45)).
  destruct (Prim2SF w) as [s|s| |s m e]; [|destruct Hw|destruct Hw|].
  - cbn. eauto with lia.
  - destruct Hw as (-> & He & Hd). cbn [SF64mul SFmul xorb].
    pose proof (binary_round_aux_sign false
                  (Zpos (8972014882652160 * m)) (-45 + e) loc_Exact) as Hs.
    pose proof (binary_round_aux_finite false
                  (Zpos (8972014882652160 * m)) (-45 + e) loc_Exact
                  ltac:(lia)) as Hf.
    destruct (binary_round_aux prec emax false
                (Zpos (8972014882652160 * m)) (-45 + e) loc_Exact)
      as [s'|s'| |s' m' e'].
    + eauto with lia.
    + exfalso. apply Hf; [|lia].
      pose proof (Zdigits2_mul 8972014882652160 m) as Hm.
      change (Zdigits2 (Zpos 8972014882652160)) with 53%Z in Hm. lia.
    + exfalso. apply Hf; [|lia].
      pose proof (Zdigits2_mul 8972014882652160 m) as Hm.
      change (Zdigits2 (Zpos 8972014882652160)) with 53%Z in Hm. lia.
    + subst s'. eexists. split; [reflexivity|].
      apply Z.shiftl_nonneg. lia.
Qed.

(** X15.  [get_color] raises [ValueError] exactly when [0 <= w <= 1] does
    not hold, which includes [nan]; for every other float it returns a
    gray, three equal channels, none above 255: [int] does not fail
    there. *)
Theorem get_color_gray (w : float) :
  (get_color w = inl ValueError_white_to_black
   <-> ((0 <=? w)%float && (w <=? 1)%float) = false)
  /\ (((0 <=? w)%float && (w <=? 1)%float) = true ->
      exists v, get_color w = inr (v, v, v) /\ (v <= 255)%Z)
  /\ get_color nan = inl ValueError_white_to_black.
Proof.
  assert (Hin : ((0 <=? w)%float && (w <=? 1)%float) = true ->
                exists v, get_color w = inr (v, v, v) /\ (v <= 255)%Z).
  { intros H. apply andb_prop in H as [H0 H1].
    destruct (int_of_scaled_unit w H0 H1) as (t & Ht & Hpos).
    unfold get_color. rewrite H0, H1, Ht. cbn [andb negb].
    eexists. split; [reflexivity|lia]. }
  split; [|split; [exact Hin|reflexivity]].
  split.
  - intros H. destruct ((0 <=? w)%float && (w <=? 1)%float) eqn:E;
      [|reflexivity].
    destruct (Hin eq_refl) as (v & Hv & _). congruence.
  - intros H. unfold get_color. rewrite H. reflexivity.
Qed.

Lemma get_color_gray_witness :
  exists v, get_color 0x1.3333333333333p-2%float = inr (v, v, v)
            /\ (v <= 255)%Z.
Proof.
  apply (proj1 (proj2 (get_color_gray 0x1.3333333333333p-2%float))).
  reflexivity.
Defined.

(** A float below zero is below one, and one that is below one and not
    below zero passes [0 <= x]. *)
Lemma below_zero_below_one (x : float) :
  (x <? 0)%float = true -> (x <? 1)%float = true.
Proof.
  rewrite !ltb_spec.
  change (Prim2SF 0) with (S754_zero false).
  change (Prim2SF 1) with (S754_finite false 4503599627370496 (-52)).
  destruct (Prim2SF x) as [s|s| |s m e]; try discriminate.
  - destruct s; [reflexivity|discriminate].
  - destruct s; [reflexivity|discriminate].
Qed.

Lemma not_below_zero (x : float) :
  (x <? 0)%float = false -> (x <? 1)%float = true ->
  (0 <=? x)%float = true.
Proof.
  rewrite !ltb_spec, leb_spec.
  change (Prim2SF 0) with (S754_zero false).
  change (Prim2SF 1) with (S754_finite false 4503599627370496 (-52)).
  destruct (Prim2SF x) as [s|s| |s m e]; try discriminate.
  - reflexivity.
  - destruct s; [discriminate|reflexivity].
  - destruct s; [discriminate|reflexivity].
Qed.

(** X16.  [get_color_code] fails in two ways only: [ZeroDivisionError]
    when [max_val] is zero, and the [ValueError] of [get_color] when
    [val / max_val] is below zero; in every other case it returns a code.
    A quotient that is not below 1 (a [nan] included) is clipped to 1 and
    gives black. *)
Theorem get_color_code_errors (val max_val : float) :
  ((max_val =? 0)%float = true ->
   get_color_code val max_val = inl ZeroDivisionError_max_val)
  /\ ((max_val =? 0)%float = false ->
      (val / max_val <? 0)%float = true ->
      get_color_code val max_val = inl ValueError_white_to_black)
  /\ ((max_val =? 0)%float = false ->
      (val / max_val <? 0)%float = false ->
      exists code, get_color_code val max_val = inr code)
  /\ ((max_val =? 0)%float = false ->
      (val / max_val <? 1)%float = false ->
      get_color_code val max_val = inr "#000000").
Proof.
  unfold get_color_code. split; [|split; [|split]].
  - intros ->. reflexivity.
  - intros -> Hneg. cbv zeta. unfold py_min.
    rewrite (below_zero_below_one _ Hneg).
    unfold get_color. rewrite (ltb_leb_false _ _ Hneg). reflexivity.
  - intros -> Hpos. cbv zeta. unfold py_min.
    destruct (val / max_val <? 1)%float eqn:E1.
    + pose proof (not_below_zero _ Hpos E1) as H0.
      assert (H1 : (val / max_val <=? 1)%float = true).
      { rewrite leb_spec. rewrite ltb_spec in E1.
        unfold SFleb. unfold SFltb in E1.
        destruct (SFcompare _ _) as [[]|]; (reflexivity || discriminate). }
      destruct (proj1 (proj2 (get_color_gray (val / max_val)%float)))
        as (v & Hv & _); [rewrite H0, H1; reflexivity|].
      rewrite Hv. eexists. reflexivity.
    + eexists. reflexivity.
  - intros -> H1. cbv zeta. unfold py_min. rewrite H1. reflexivity.
Qed.

Lemma get_color_code_errors_witness :
  get_color_code 5%float 0%float = inl ZeroDivisionError_max_val
  /\ get_color_code (-5)%float 200%float = inl ValueError_white_to_black
  /\ (exists code, get_color_code 37%float 200%float = inr code)
  /\ get_color_code 300%float 200%float = inr "#000000".
Proof.
  split; [|split; [|split]].
  - apply (proj1 (get_color_code_errors 5%float 0%float)). reflexivity.
  - apply (proj1 (proj2 (get_color_code_errors (-5)%float 200%float)));
      reflexivity.
  - apply (proj1 (proj2 (proj2
             (get_color_code_errors 37%float 200%float)))); reflexivity.
  - apply (proj2 (proj2 (proj2
             (get_color_code_errors 300%float 200%float)))); reflexivity.
Defined.

(** ** Warnings about the classes *)

Lemma nonneg_entry (n : nat) (cm : matrix) (i j : nat) :
  square n cm -> nonneg cm -> i < n -> j < n ->
  (0 <= (cm !!! i) !!! j)%Z.
Proof.
  intros [Hlen Hrows] Hnn Hi Hj.
  assert (Hr : cm !! i = Some (cm !!! i))
    by (apply list_lookup_lookup_total_lt; lia).
  unfold nonneg in Hnn. rewrite Forall_lookup in Hnn, Hrows.
  pose proof (Hnn _ _ Hr) as Hrow. pose proof (Hrows _ _ Hr) as Hrl.
  rewrite Forall_lookup in Hrow. apply (Hrow j).
  apply list_lookup_lookup_total_lt. lia.
Qed.


Lemma foldl_add_nonneg (row : list Z) (a : Z) :
  Forall (λ x, 0 <= x)%Z row ->
  (a <= foldl Z.add a row)%Z
  /\ (foldl Z.add a row = a <-> Forall (λ x, x = 0%Z) row).
Proof.
  intros H. revert a. induction H as [|x row Hx _ IH]; intros a; cbn.
  - split; [lia|]. split; [constructor|reflexivity].
  - destruct (IH (a + x)%Z) as [Hle Hiff]. split; [lia|]. split.
    + intros E. assert (x = 0%Z) by lia. subst x.
      constructor; [reflexivity|]. apply Hiff. lia.
    + intros Hall. inversion Hall; subst.
      rewrite Z.add_0_r. rewrite Z.add_0_r in Hiff. apply Hiff. assumption.
Qed.

Lemma py_sum_zero (row : list Z) :
  Forall (λ x, 0 <= x)%Z row ->
  (py_sum row =? 0)%Z = bool_decide (Forall (λ x, x = 0%Z) row).
Proof.
  intros H. destruct (foldl_add_nonneg row 0 H) as [_ Hiff].
  unfold py_sum. destruct (Z.eqb_spec (foldl Z.add 0%Z row) 0) as [E|E].
  - symmetry. apply bool_decide_eq_true_2, Hiff, E.
  - symmetry. apply bool_decide_eq_false_2. intros Hall. apply E, Hiff, Hall.
Qed.

Lemma getitem_nat {A} (l : list A) (k : nat) (x : A) :
  l !! k = Some x -> getitem l (Z.of_nat k) = Some x.
Proof.
  intros H. pose proof (lookup_lt_Some _ _ _ H) as Hlt.
  unfold getitem, norm_index.
  rewrite bool_decide_eq_true_2 by lia. cbn. rewrite Nat2Z.id. exact H.
Qed.

Lemma labels_of_zero_rows_cons (l : string) (labels : list string)
    (row : list Z) (rows : matrix) :
  labels_of_zero_rows (l :: labels) (row :: rows)
  = if bool_decide (Forall (λ x, x = 0%Z) row)
    then l :: labels_of_zero_rows labels rows
    else labels_of_zero_rows labels rows.
Proof.
  unfold labels_of_zero_rows. cbn [zip zip_with].
  rewrite filter_cons. cbn [snd].
  case_bool_decide as Hd.
  - rewrite decide_True by exact Hd. reflexivity.
  - rewrite decide_False by exact Hd. reflexivity.
Qed.

Section Loops.
Variable rows : matrix.
Variable labels : list string.
Hypothesis same_length : length labels = length rows.
Hypothesis rows_nonneg : nonneg rows.

Lemma loop_step (k : nat) :
  k < length rows ->
  exists row l,
    rows !! k = Some row /\ labels !! k = Some l
    /\ Forall (λ x, 0 <= x)%Z row
    /\ drop k rows = row :: drop (S k) rows
    /\ drop k labels = l :: drop (S k) labels.
Proof.
  intros Hk.
  destruct (lookup_lt_is_Some_2 rows k Hk) as [row Hrow].
  destruct (lookup_lt_is_Some_2 labels k ltac:(lia)) as [l Hl].
  exists row, l. split; [exact Hrow|]. split; [exact Hl|]. split.
  - unfold nonneg in rows_nonneg. rewrite Forall_lookup in rows_nonneg.
    eapply rows_nonneg, Hrow.
  - split; apply drop_S; assumption.
Qed.

Lemma not_in_dataset_spec (m k : nat) :
  k + m = length rows ->
  not_in_dataset rows labels (seqZ (Z.of_nat k) (Z.of_nat m))
  = (NotInDataset <$> labels_of_zero_rows (drop k labels) (drop k rows),
     None).
Proof.
  revert k. induction m as [|m IH]; intros k Hk.
  - rewrite seqZ_nil by lia. rewrite !drop_ge by lia. reflexivity.
  - rewrite seqZ_cons by lia.
    replace (Z.succ (Z.of_nat k)) with (Z.of_nat (S k)) by lia.
    replace (Z.pred (Z.of_nat (S m))) with (Z.of_nat m) by lia.
    destruct (loop_step k ltac:(lia)) as (row & l & Hrow & Hl & Hnn & Dr & Dl).
    cbn [not_in_dataset].
    rewrite (getitem_nat _ _ _ Hrow), (getitem_nat _ _ _ Hl).
    rewrite (py_sum_zero row Hnn), (IH (S k)) by lia.
    rewrite Dr, Dl, labels_of_zero_rows_cons.
    destruct (bool_decide _); reflexivity.
Qed.

Lemma never_predicted_spec (m k : nat) :
  k + m = length rows ->
  never_predicted rows labels (seqZ (Z.of_nat k) (Z.of_nat m))
  = Some (labels_of_zero_rows (drop k labels) (drop k rows)).
Proof.
  revert k. induction m as [|m IH]; intros k Hk.
  - rewrite seqZ_nil by lia. rewrite !drop_ge by lia. reflexivity.
  - rewrite seqZ_cons by lia.
    replace (Z.succ (Z.of_nat k)) with (Z.of_nat (S k)) by lia.
    replace (Z.pred (Z.of_nat (S m))) with (Z.of_nat m) by lia.
    destruct (loop_step k ltac:(lia)) as (row & l & Hrow & Hl & Hnn & Dr & Dl).
    cbn [never_predicted].
    rewrite (getitem_nat _ _ _ Hrow), (getitem_nat _ _ _ Hl).
    cbn [mbind option_bind].
    rewrite (py_sum_zero row Hnn), (IH (S k)) by lia.
    rewrite Dr, Dl, labels_of_zero_rows_cons.
    destruct (bool_decide _); reflexivity.
Qed.
End Loops.

Lemma square_ncols (n : nat) (cm : matrix) : square n cm -> ncols cm = n.
Proof.
  intros [Hlen Hrows]. destruct cm as [|r cm]; [exact Hlen|].
  cbn. inversion Hrows; subst. assumption.
Qed.

Lemma transpose_nonneg (n : nat) (cm : matrix) :
  square n cm -> nonneg cm -> nonneg (transpose cm).
Proof.
  intros Hsq Hnn. unfold nonneg. apply Forall_lookup. intros j col Hcol.
  pose proof (lookup_lt_Some _ _ _ Hcol) as Hj.
  rewrite length_transpose in Hj.
  apply list_lookup_total_correct in Hcol.
  rewrite transpose_lookup_total in Hcol by exact Hj. subst col.
  apply Forall_fmap, Forall_lookup. intros i r Hr. cbn.
  rewrite <- (list_lookup_total_correct _ _ _ Hr).
  apply (nonneg_entry n cm i j Hsq Hnn).
  - destruct Hsq as [Hlen _]. rewrite <- Hlen.
    eapply lookup_lt_Some, Hr.
  - rewrite <- (square_ncols n cm Hsq). exact Hj.
Qed.


